(** * torchlft.functional.transforms: bijective transformations

    A shallow embedding of [src/torchlft/functional/transforms.py].

    Tensor elements are extended real numbers: a finite real, one of the
    two infinities, or NaN.  Arithmetic on finite values is exact; the
    non-finite results that torch produces without raising (a division
    by zero, the square root or the logarithm of a negative number) are
    kept, so that the places where the code relies on them, or fails to
    guard against them, are visible in the model.  Rounding, overflow
    and the sign of zero are not modelled. *)

From Stdlib Require Import Reals Lra Lia List ZArith Bool Psatz.
Import ListNotations.

Open Scope R_scope.

(** ** Scalars *)

Module Scalar.

Inductive scalar : Type :=
| Fin (r : R)
| PInf
| NInf
| NaN.

Definition Rltb (a b : R) : bool := if Rlt_dec a b then true else false.
Definition Rleb (a b : R) : bool := if Rle_dec a b then true else false.
Definition Reqb (a b : R) : bool := if Req_dec_T a b then true else false.

Definition fneg (a : scalar) : scalar :=
  match a with
  | Fin r => Fin (- r)
  | PInf => NInf
  | NInf => PInf
  | NaN => NaN
  end.

Definition fadd (a b : scalar) : scalar :=
  match a, b with
  | NaN, _ | _, NaN => NaN
  | Fin x, Fin y => Fin (x + y)
  | PInf, NInf | NInf, PInf => NaN
  | PInf, _ | _, PInf => PInf
  | NInf, _ | _, NInf => NInf
  end.

Definition fsub (a b : scalar) : scalar := fadd a (fneg b).

(** Sign-directed product of an infinity with a finite factor. *)
Definition inf_times (pos : bool) (r : R) : scalar :=
  if Rltb 0 r then (if pos then PInf else NInf)
  else if Rltb r 0 then (if pos then NInf else PInf)
  else NaN.

Definition fmul (a b : scalar) : scalar :=
  match a, b with
  | NaN, _ | _, NaN => NaN
  | Fin x, Fin y => Fin (x * y)
  | PInf, Fin r | Fin r, PInf => inf_times true r
  | NInf, Fin r | Fin r, NInf => inf_times false r
  | PInf, PInf | NInf, NInf => PInf
  | PInf, NInf | NInf, PInf => NInf
  end.

(** [torch.reciprocal]: the reciprocal of zero is an infinity. *)
Definition finv (a : scalar) : scalar :=
  match a with
  | Fin r => if Reqb r 0 then PInf else Fin (/ r)
  | PInf | NInf => Fin 0
  | NaN => NaN
  end.

Definition fdiv (a b : scalar) : scalar := fmul a (finv b).

(** [t.pow(2)] *)
Definition fpow2 (a : scalar) : scalar := fmul a a.

Definition fsqrt (a : scalar) : scalar :=
  match a with
  | Fin r => if Rltb r 0 then NaN else Fin (sqrt r)
  | PInf => PInf
  | NInf | NaN => NaN
  end.

Definition flog (a : scalar) : scalar :=
  match a with
  | Fin r => if Rltb r 0 then NaN else if Reqb r 0 then NInf else Fin (ln r)
  | PInf => PInf
  | NInf | NaN => NaN
  end.

Definition flog1p (a : scalar) : scalar := flog (fadd (Fin 1) a).

Definition fexp (a : scalar) : scalar :=
  match a with
  | Fin r => Fin (exp r)
  | PInf => PInf
  | NInf => Fin 0
  | NaN => NaN
  end.

Definition fcosh (a : scalar) : scalar :=
  match a with
  | Fin r => Fin (cosh r)
  | PInf | NInf => PInf
  | NaN => NaN
  end.

Definition ftanh (a : scalar) : scalar :=
  match a with
  | Fin r => Fin (tanh r)
  | PInf => Fin 1
  | NInf => Fin (-1)
  | NaN => NaN
  end.

(** The inverse hyperbolic tangent on [(-1, 1)]. *)
Definition atanh (r : R) : R := ln ((1 + r) / (1 - r)) / 2.

Definition fatanh (a : scalar) : scalar :=
  match a with
  | Fin r =>
      if Rltb (-1) r && Rltb r 1 then Fin (atanh r)
      else if Reqb r 1 then PInf
      else if Reqb r (-1) then NInf
      else NaN
  | PInf | NInf | NaN => NaN
  end.

(** Comparisons: every comparison with NaN is false. *)
Definition flt (a b : scalar) : bool :=
  match a, b with
  | NaN, _ | _, NaN => false
  | Fin x, Fin y => Rltb x y
  | _, NInf => false
  | NInf, _ => true
  | PInf, _ => false
  | Fin _, PInf => true
  end.

Definition fgt (a b : scalar) : bool := flt b a.

Definition fge (a b : scalar) : bool :=
  match a, b with
  | NaN, _ | _, NaN => false
  | Fin x, Fin y => Rleb y x
  | PInf, _ => true
  | _, NInf => true
  | _, PInf => false
  | NInf, _ => false
  end.

(** [t.clamp_(lo, hi)] with real bounds: [min (max t lo) hi]; NaN is
    left as it is. *)
Definition fclamp (lo hi : R) (a : scalar) : scalar :=
  match a with
  | Fin r => Fin (Rmin (Rmax r lo) hi)
  | PInf => Fin hi
  | NInf => Fin (Rmin lo hi)
  | NaN => NaN
  end.

(** Sum of a list of scalars, from the left. *)
Definition fsum (l : list scalar) : scalar := fold_left fadd l (Fin 0).

End Scalar.

Export Scalar.

Coercion Fin : R >-> scalar.

Declare Scope scalar_scope.
Delimit Scope scalar_scope with S.
Bind Scope scalar_scope with scalar.
Infix "+" := fadd : scalar_scope.
Infix "-" := fsub : scalar_scope.
Infix "*" := fmul : scalar_scope.
Infix "/" := fdiv : scalar_scope.
Notation "- x" := (fneg x) : scalar_scope.

(** ** Exceptions *)

Inductive exn : Type :=
| IndexError      (* an index outside its axis *)
| AssertionError  (* a failed [assert] *)
| ShapeError.     (* operands whose shapes do not agree *)

Inductive result (A : Type) : Type :=
| Ok (a : A)
| Raise (e : exn).

Arguments Ok {A} a.
Arguments Raise {A} e.

Definition bind {A B : Type} (m : result A) (k : A -> result B) : result B :=
  match m with
  | Ok a => k a
  | Raise e => Raise e
  end.

Notation "x <- m ;; k" := (bind m (fun x => k))
  (at level 61, m at next level, right associativity).
Notation "' p <- m ;; k" := (bind m (fun p => k))
  (at level 61, p pattern, m at next level, right associativity).

Fixpoint mapM {A B : Type} (f : A -> result B) (l : list A) : result (list B) :=
  match l with
  | [] => Ok []
  | a :: l' => b <- f a ;; bs <- mapM f l' ;; Ok (b :: bs)
  end.

(** ** Tensors

    A tensor of shape [(B, D)] is a list of [B] rows, one per batch
    element, of [D] entries each.  The operands of the elementwise
    transformations are tensors with these two axes; torch broadcasts
    them, repeating along an axis the operand whose length there is [1].
    A list without rows stands for the shape [(0, 0)]. *)

Module Tensors.

Definition Tensor : Type := list (list scalar).

Definition tmap (f : scalar -> scalar) (t : Tensor) : Tensor := map (map f) t.

(** Pairing of two axes of the same length. *)
Fixpoint zip {A B : Type} (l : list A) (m : list B) : result (list (A * B)) :=
  match l, m with
  | [], [] => Ok []
  | a :: l', b :: m' => r <- zip l' m' ;; Ok ((a, b) :: r)
  | _, _ => Raise ShapeError
  end.

Definition tzip {A B : Type} (x : list (list A)) (p : list (list B))
  : result (list (list (A * B))) :=
  rows <- zip x p ;; mapM (fun rq => zip (fst rq) (snd rq)) rows.

(** Pairing of two axes as broadcasting does: the lengths agree, or one
    of them is [1] and its entry is repeated along the other axis. *)
Definition bzip {A B : Type} (l : list A) (m : list B) : result (list (A * B)) :=
  if (length l =? length m)%nat then Ok (combine l m)
  else match l, m with
       | [a], _ => Ok (map (fun b => (a, b)) m)
       | _, [b] => Ok (map (fun a => (a, b)) l)
       | _, _ => Raise ShapeError
       end.

(** An entrywise operation on two tensors that broadcast against each
    other. *)
Definition broadcast2 {A B C : Type} (f : A -> B -> C)
           (x : list (list A)) (p : list (list B)) : result (list (list C)) :=
  rows <- bzip x p ;;
  mapM (fun rq => cols <- bzip (fst rq) (snd rq) ;;
                  Ok (map (fun ab => f (fst ab) (snd ab)) cols)) rows.

Definition tbinop (f : scalar -> scalar -> scalar) (x p : Tensor) : result Tensor :=
  broadcast2 f x p.

Definition t_add : Tensor -> Tensor -> result Tensor := tbinop fadd.
Definition t_sub : Tensor -> Tensor -> result Tensor := tbinop fsub.
Definition t_mul : Tensor -> Tensor -> result Tensor := tbinop fmul.
Definition t_div : Tensor -> Tensor -> result Tensor := tbinop fdiv.

Definition t_neg : Tensor -> Tensor := tmap fneg.
Definition t_exp : Tensor -> Tensor := tmap fexp.
Definition t_log : Tensor -> Tensor := tmap flog.
Definition t_log1p : Tensor -> Tensor := tmap flog1p.
Definition t_cosh : Tensor -> Tensor := tmap fcosh.
Definition t_tanh : Tensor -> Tensor := tmap ftanh.
Definition t_atanh : Tensor -> Tensor := tmap fatanh.
Definition t_pow2 : Tensor -> Tensor := tmap fpow2.
(** [t.mul(c)] for a Python number [c] *)
Definition t_muls (t : Tensor) (c : R) : Tensor := tmap (fun v => fmul v (Fin c)) t.

(** [torch.zeros(n)] *)
Definition zeros (n : nat) : list scalar := repeat (Fin 0) n.

(** Modelled from the spec: [torchlft.utils.sum_except_batch] is imported
    by the source but its definition is not part of it.  Section 4.1:
    "input any tensor of shape (batch, *dims); output shape (batch,), the
    sum over all axes except axis 0". *)
Definition sum_except_batch (t : Tensor) : list scalar := map fsum t.

(** Indexing the last axis at a position that may be out of range. *)
Definition gather (l : list scalar) (i : Z) : result scalar :=
  if (i <? 0)%Z then Raise IndexError
  else match nth_error l (Z.to_nat i) with
       | Some v => Ok v
       | None => Raise IndexError
       end.

(** [t[..., 0]] and [t[..., -1]] *)
Definition select_first (l : list scalar) : result scalar := gather l 0.
Definition select_last (l : list scalar) : result scalar :=
  gather l (Z.of_nat (length l) - 1).

(** [torch.searchsorted(boundaries, v)] with its default [right=False]
    is torch's lower-bound binary search over the positions
    [[start, end)]: with [mid] the middle position, [start] moves to
    [mid + 1] when [boundaries[mid] >= v] fails and [end] moves to [mid]
    otherwise; the result is [start] once the interval is empty.  The
    interval loses a position at every step, so that as many steps as
    there are boundaries always empty it.  On boundaries that are not
    sorted the result is whatever the search runs into. *)
Fixpoint lower_bound (steps : nat) (boundaries : list scalar) (v : scalar)
         (start end_ : nat) : nat :=
  match steps with
  | O => start
  | S steps' =>
      if (start <? end_)%nat then
        let mid := (start + (end_ - start) / 2)%nat in
        if fge (nth mid boundaries NaN) v
        then lower_bound steps' boundaries v start mid
        else lower_bound steps' boundaries v (S mid) end_
      else start
  end.

Definition searchsorted (boundaries : list scalar) (v : scalar) : Z :=
  Z.of_nat (lower_bound (length boundaries) boundaries v 0 (length boundaries)).

(** [idx.clamp_(lo, hi)] on an index *)
Definition clamp_idx (i lo hi : Z) : Z := Z.min (Z.max i lo) hi.

(** The shape [(B, D)] of a list of rows.  Rows of unequal lengths are
    no tensor. *)
Definition shape {A : Type} (t : list (list A)) : result (nat * nat) :=
  match t with
  | [] => Ok (0, 0)%nat
  | r :: t' =>
      if forallb (fun r' => (length r' =? length r)%nat) t'
      then Ok (length t, length r)
      else Raise ShapeError
  end.

(** The length along one axis of the result of a broadcast. *)
Definition broadcast_dim (m n : nat) : result nat :=
  if (m =? n)%nat then Ok m
  else if (m =? 1)%nat then Ok n
  else if (n =? 1)%nat then Ok m
  else Raise ShapeError.

(** [y[mask] = x[mask]] on one row and on a tensor: the mask must have
    the shape of [y], and [y] takes the entries of [x] where it holds. *)
Fixpoint assign_row (y x : list scalar) (mask : list bool) : result (list scalar) :=
  match y, x, mask with
  | [], [], [] => Ok []
  | b :: y', a :: x', c :: mask' =>
      r <- assign_row y' x' mask' ;; Ok ((if c then a else b) :: r)
  | _, _, _ => Raise IndexError
  end.

Fixpoint masked_assign (y x : Tensor) (mask : list (list bool)) : result Tensor :=
  match y, x, mask with
  | [], [], [] => Ok []
  | yr :: y', xr :: x', mr :: mask' =>
      r <- assign_row yr xr mr ;;
      rs <- masked_assign y' x' mask' ;;
      Ok (r :: rs)
  | _, _, _ => Raise IndexError
  end.

End Tensors.

Export Tensors.

(** ** The elementwise transformations *)

Module Transforms.

Definition tanh (x : Tensor) : Tensor * list scalar :=
  let y := t_tanh x in
  let ldj := sum_except_batch (t_muls (t_log (t_cosh x)) (-2)) in
  (y, ldj).

Definition inv_tanh (y : Tensor) : Tensor * list scalar :=
  let x := t_atanh y in
  let ldj := sum_except_batch (t_neg (t_log1p (t_neg (t_pow2 y)))) in
  (x, ldj).

Definition translation (x shift : Tensor) : result (Tensor * list scalar) :=
  y <- t_add x shift ;;
  let ldj := zeros (length y) in
  Ok (y, ldj).

Definition inv_translation (y shift : Tensor) : result (Tensor * list scalar) :=
  x <- t_sub y shift ;;
  let ldj := zeros (length y) in
  Ok (x, ldj).

Definition rescaling (x log_scale : Tensor) : result (Tensor * list scalar) :=
  y <- t_mul x (t_exp (t_neg log_scale)) ;;
  let ldj := sum_except_batch (t_neg log_scale) in
  Ok (y, ldj).

Definition inv_rescaling (y log_scale : Tensor) : result (Tensor * list scalar) :=
  x <- t_mul y (t_exp log_scale) ;;
  let ldj := sum_except_batch log_scale in
  Ok (x, ldj).

Definition soft_rescaling (x scale : Tensor) : result (Tensor * list scalar) :=
  let soft_scale := t_log1p (t_exp scale) in
  y <- t_mul x soft_scale ;;
  let ldj := sum_except_batch (t_log soft_scale) in
  Ok (y, ldj).

Definition inv_soft_rescaling (y scale : Tensor) : result (Tensor * list scalar) :=
  let soft_scale := t_log1p (t_exp scale) in
  x <- t_div y soft_scale ;;
  let ldj := sum_except_batch (t_neg (t_log soft_scale)) in
  Ok (x, ldj).

Definition affine_transform (x log_scale shift : Tensor)
  : result (Tensor * list scalar) :=
  xs <- t_mul x (t_exp (t_neg log_scale)) ;;
  y <- t_add xs shift ;;
  let ldj := sum_except_batch (t_neg log_scale) in
  Ok (y, ldj).

Definition inv_affine_transform (y log_scale shift : Tensor)
  : result (Tensor * list scalar) :=
  ys <- t_sub y shift ;;
  x <- t_mul ys (t_exp log_scale) ;;
  let ldj := sum_except_batch log_scale in
  Ok (x, ldj).

(** *** The rational-quadratic spline

    [torch.searchsorted] and [torch.gather] work along the last axis and
    want the input and the parameters to have the same number of axes
    and the same leading axes.  With parameters for every coordinate of
    a batch of [B] elements of [D] coordinates, the five parameter
    tensors have the shapes [(B, D, K)] and [(B, D, K + 1)], and the
    input has the shape [(B, D, 1)].  This is the layout of
    [rq_spline_transform] and [inv_rq_spline_transform] below: the input
    is kept as its [B] rows of [D] entries, and the parameters as one
    tensor whose entries are the five last-axis vectors of a coordinate.
    The module [Rank2] further down holds the same two functions on an
    input of shape [(B, M)] with parameters of the shapes [(B, K)] and
    [(B, K + 1)], one spline for each batch element. *)

Record spline : Type := {
  widths : list scalar;
  heights : list scalar;
  derivs : list scalar;
  knots_xcoords : list scalar;
  knots_ycoords : list scalar
}.

(** What the body of [rq_spline_transform] computes at one coordinate. *)
Record fwd_cell : Type := {
  fc_x : scalar;
  fc_outside : bool;
  fc_y : scalar;
  fc_gradient : scalar
}.

(** Lines 257-293 of the source at one input [x] with the last-axis
    vectors [p] that the search and the gathers use for it; these
    operations act entry by entry.  [fc_outside] is the comparison of
    lines 250-253 of [x] with the first and the last knot of [p]; it is
    the entry of [outside_interval_mask] for [x] only where the
    broadcast of these lines pairs [x] with the knots of [p], see
    [rq_spline_transform]. *)
Definition rq_spline_cell (x : scalar) (p : spline) : result fwd_cell :=
  k_first <- select_first (knots_xcoords p) ;;
  k_last <- select_last (knots_xcoords p) ;;
  let outside_interval_mask := flt x k_first || fgt x k_last in
  let segment_idx :=
    clamp_idx (searchsorted (knots_xcoords p) x - 1) 0
              (Z.of_nat (length (widths p))) in
  w <- gather (widths p) segment_idx ;;
  h <- gather (heights p) segment_idx ;;
  d0 <- gather (derivs p) segment_idx ;;
  d1 <- gather (derivs p) (segment_idx + 1) ;;
  x0 <- gather (knots_xcoords p) segment_idx ;;
  y0 <- gather (knots_ycoords p) segment_idx ;;
  let s := (h / w)%S in
  let alpha := fclamp 0 1 ((x - x0) / w)%S in
  let denominator_recip :=
    finv (s + (d1 + d0 - Fin 2 * s) * alpha * (Fin 1 - alpha))%S in
  let beta :=
    ((s * fpow2 alpha + d0 * alpha * (Fin 1 - alpha)) * denominator_recip)%S in
  let y := (y0 + h * beta)%S in
  let gradient :=
    (fpow2 s
     * (d1 * fpow2 alpha
        + Fin 2 * s * alpha * (Fin 1 - alpha)
        + d0 * fpow2 (Fin 1 - alpha))
     * fpow2 denominator_recip)%S in
  Ok {| fc_x := x; fc_outside := outside_interval_mask;
        fc_y := y; fc_gradient := gradient |}.

(** The body at every coordinate; a gather out of range anywhere raises. *)
Definition rq_spline_cells (x : Tensor) (params : list (list spline))
  : result (list (list fwd_cell)) :=
  xp <- tzip x params ;;
  mapM (mapM (fun xq => rq_spline_cell (fst xq) (snd xq))) xp.

(** [torch.all(gradient > 0)] *)
Definition all_gradients_positive (cells : list (list fwd_cell)) : bool :=
  forallb (forallb (fun c => fgt (fc_gradient c) (Fin 0))) cells.

(** The five parameter tensors are tensors: the last-axis vectors of all
    coordinates have the same five lengths. *)
Definition same_lengths (p q : spline) : bool :=
  (length (widths p) =? length (widths q))%nat
  && (length (heights p) =? length (heights q))%nat
  && (length (derivs p) =? length (derivs q))%nat
  && (length (knots_xcoords p) =? length (knots_xcoords q))%nat
  && (length (knots_ycoords p) =? length (knots_ycoords q))%nat.

Definition tensors (params : list spline) : result unit :=
  match params with
  | [] => Ok tt
  | p :: ps => if forallb (same_lengths p) ps then Ok tt else Raise ShapeError
  end.

(** [knots[..., 0]] and [knots[..., -1]] at every coordinate; they raise
    on knots whose last axis is empty. *)
Definition first_and_last (knots : spline -> list scalar) (params : list spline)
  : result (list (scalar * scalar)) :=
  mapM (fun p => k_first <- select_first (knots p) ;;
                 k_last <- select_last (knots p) ;;
                 Ok (k_first, k_last)) params.

(** The shape of [outside_interval_mask].  Lines 250-253 compare the
    input, of shape [(B, D, 1)], with [knots[..., 0]] and
    [knots[..., -1]], of shape [(B, D)].  Broadcasting aligns the shapes
    at their last axes: [1] with [D], [D] with [B], and [B] with nothing. *)
Definition outside_interval_mask_shape (B D : nat) : result (nat * nat * nat) :=
  last <- broadcast_dim 1 D ;;
  middle <- broadcast_dim D B ;;
  Ok (B, middle, last).

(** Whether a mask of that shape can index a tensor of shape [(B, D, 1)]. *)
Definition mask_fits (mask : nat * nat * nat) (B D : nat) : bool :=
  let '(b, d, l) := mask in ((b =? B) && (d =? D) && (l =? 1))%nat.

(** The diagnostic of lines 254-255 only logs; it is left out.  Lists
    that are no tensors are refused first.  The masked assignment of
    line 296 raises unless the mask has the shape of [y]; it has only
    for [B = D = 1], where its one entry is [fc_outside] of the one
    coordinate. *)
Definition rq_spline_transform (x : Tensor) (params : list (list spline))
  : result (Tensor * list scalar) :=
  '(B, D) <- shape x ;;
  _ <- tensors (concat params) ;;
  (* lines 250-253 *)
  _ <- first_and_last knots_xcoords (concat params) ;;
  outside_interval_mask <- outside_interval_mask_shape B D ;;
  (* lines 257-293 *)
  cells <- rq_spline_cells x params ;;
  if all_gradients_positive cells then
    (* y[outside_interval_mask] = x[outside_interval_mask] *)
    if mask_fits outside_interval_mask B D then
      let y := map (map (fun c => if fc_outside c then fc_x c else fc_y c)) cells in
      let ldj := sum_except_batch (map (map (fun c => flog (fc_gradient c))) cells) in
      Ok (y, ldj)
    else Raise IndexError
  else Raise AssertionError.

(** What the body of [inv_rq_spline_transform] computes at one coordinate. *)
Record inv_cell : Type := {
  ic_outside : bool;
  ic_discriminant : scalar;
  ic_x : scalar;
  ic_gradient_fwd : scalar
}.

(** Lines 319-355 of the source at one input [y] with the last-axis
    vectors [p] that the search and the gathers use for it, and the
    comparison of lines 312-315 of [y] with the first and the last knot
    of [p]. *)
Definition inv_rq_spline_cell (y : scalar) (p : spline) : result inv_cell :=
  k_first <- select_first (knots_ycoords p) ;;
  k_last <- select_last (knots_ycoords p) ;;
  let outside_interval_mask := flt y k_first || fgt y k_last in
  let segment_idx :=
    clamp_idx (searchsorted (knots_ycoords p) y - 1) 0
              (Z.of_nat (length (widths p))) in
  w <- gather (widths p) segment_idx ;;
  h <- gather (heights p) segment_idx ;;
  d0 <- gather (derivs p) segment_idx ;;
  d1 <- gather (derivs p) (segment_idx + 1) ;;
  x0 <- gather (knots_xcoords p) segment_idx ;;
  y0 <- gather (knots_ycoords p) segment_idx ;;
  let s := (h / w)%S in
  let beta := fclamp 0 1 ((y - y0) / w)%S in
  let b := (d0 - (d1 + d0 - Fin 2 * s) * beta)%S in
  let a := (s - b)%S in
  let c := (- s * beta)%S in
  let discriminant := (fpow2 b - Fin 4 * a * c)%S in
  let alpha := (Fin (-2) * c * finv (b + fsqrt discriminant))%S in
  let x := (x0 + w * alpha)%S in
  let denominator_recip :=
    finv (s + (d1 + d0 - Fin 2 * s) * alpha * (Fin 1 - alpha))%S in
  let gradient_fwd :=
    (fpow2 s
     * (d1 * fpow2 alpha
        + Fin 2 * s * alpha * (Fin 1 - alpha)
        + d0 * fpow2 (Fin 1 - alpha))
     * fpow2 denominator_recip)%S in
  Ok {| ic_outside := outside_interval_mask; ic_discriminant := discriminant;
        ic_x := x; ic_gradient_fwd := gradient_fwd |}.

Definition inv_rq_spline_cells (y : Tensor) (params : list (list spline))
  : result (list (list inv_cell)) :=
  yp <- tzip y params ;;
  mapM (mapM (fun yq => inv_rq_spline_cell (fst yq) (snd yq))) yp.

(** The mask is computed (and logged) but the result is returned as
    computed: the source has no assertion and no masked assignment here.
    The comparison of lines 312-315 still has to broadcast. *)
Definition inv_rq_spline_transform (y : Tensor) (params : list (list spline))
  : result (Tensor * list scalar) :=
  '(B, D) <- shape y ;;
  _ <- tensors (concat params) ;;
  (* lines 312-315 *)
  _ <- first_and_last knots_ycoords (concat params) ;;
  _ <- outside_interval_mask_shape B D ;;
  (* lines 319-355 *)
  cells <- inv_rq_spline_cells y params ;;
  let x := map (map ic_x) cells in
  let ldj :=
    sum_except_batch (map (map (fun c => fneg (flog (ic_gradient_fwd c)))) cells) in
  Ok (x, ldj).

(** *** The spline on an input of two axes

    The same two functions on an input of shape [(B, M)] with parameters
    of the shapes [(B, K)] and [(B, K + 1)]: the [M] entries of batch
    element [i] go through the spline of batch element [i].  Here
    [knots[..., 0]] has the shape [(B)], which broadcasting aligns with
    the last axis of the input: entry [(i, j)] is compared with the
    knots of batch element [j], or of the only batch element if [B = 1]. *)

Module Rank2.

(** Lines 250-253 *)
Definition outside_interval_mask (x : Tensor) (knots : list (scalar * scalar))
  : result (list (list bool)) :=
  broadcast2 (fun v k => flt v (fst k) || fgt v (snd k)) x [knots].

(** Lines 257-293 at every entry, row [i] with the parameters of batch
    element [i]. *)
Definition rq_spline_cells (x : Tensor) (params : list spline)
  : result (list (list fwd_cell)) :=
  rows <- zip x params ;;
  mapM (fun rp => mapM (fun v => rq_spline_cell v (snd rp)) (fst rp)) rows.

Definition rq_spline_transform (x : Tensor) (params : list spline)
  : result (Tensor * list scalar) :=
  _ <- shape x ;;
  _ <- tensors params ;;
  (* lines 250-253 *)
  knots <- first_and_last knots_xcoords params ;;
  outside_interval_mask <- outside_interval_mask x knots ;;
  (* lines 257-293 *)
  cells <- rq_spline_cells x params ;;
  if all_gradients_positive cells then
    (* y[outside_interval_mask] = x[outside_interval_mask] *)
    y <- masked_assign (map (map fc_y) cells) x outside_interval_mask ;;
    let ldj := sum_except_batch (map (map (fun c => flog (fc_gradient c))) cells) in
    Ok (y, ldj)
  else Raise AssertionError.

(** Lines 319-355 at every entry. *)
Definition inv_rq_spline_cells (y : Tensor) (params : list spline)
  : result (list (list inv_cell)) :=
  rows <- zip y params ;;
  mapM (fun rp => mapM (fun v => inv_rq_spline_cell v (snd rp)) (fst rp)) rows.

Definition inv_rq_spline_transform (y : Tensor) (params : list spline)
  : result (Tensor * list scalar) :=
  _ <- shape y ;;
  _ <- tensors params ;;
  (* lines 312-315 *)
  knots <- first_and_last knots_ycoords params ;;
  _ <- outside_interval_mask y knots ;;
  (* lines 319-355 *)
  cells <- inv_rq_spline_cells y params ;;
  let x := map (map ic_x) cells in
  let ldj :=
    sum_except_batch (map (map (fun c => fneg (flog (ic_gradient_fwd c)))) cells) in
  Ok (x, ldj).

End Rank2.

End Transforms.

Import Transforms.

(** ** Real-valued reading of the spline

    The closed forms that the spline code evaluates on finite values,
    and the well-formedness of a parametrisation (section 3 of the
    specification). *)

Definition rq_denominator (s d0 d1 a : R) : R :=
  s + (d1 + d0 - 2 * s) * a * (1 - a).

Definition rq_beta (s d0 d1 a : R) : R :=
  (s * (a * a) + d0 * a * (1 - a)) * / rq_denominator s d0 d1 a.

Definition rq_gradient (s d0 d1 a : R) : R :=
  s * s
  * (d1 * (a * a) + 2 * s * a * (1 - a) + d0 * ((1 - a) * (1 - a)))
  * (/ rq_denominator s d0 d1 a * / rq_denominator s d0 d1 a).

Record rspline : Type := {
  r_widths : list R;
  r_heights : list R;
  r_derivs : list R;
  r_kx : list R;
  r_ky : list R
}.

Definition finite_spline (q : rspline) : spline :=
  {| widths := map Fin (r_widths q);
     heights := map Fin (r_heights q);
     derivs := map Fin (r_derivs q);
     knots_xcoords := map Fin (r_kx q);
     knots_ycoords := map Fin (r_ky q) |}.

Definition increasing (l : list R) : Prop :=
  forall i j, (i < j < length l)%nat -> nth i l 0 < nth j l 0.

(** [K >= 1] segments over [K+1] knots; positive widths, heights and
    derivatives; strictly increasing knots; widths and heights are the
    horizontal and vertical extents of the segments. *)
Record valid_spline (q : rspline) : Prop := {
  vs_segments : (0 < length (r_widths q))%nat;
  vs_len_h : length (r_heights q) = length (r_widths q);
  vs_len_d : length (r_derivs q) = S (length (r_widths q));
  vs_len_kx : length (r_kx q) = S (length (r_widths q));
  vs_len_ky : length (r_ky q) = S (length (r_widths q));
  vs_pos_w : Forall (Rlt 0) (r_widths q);
  vs_pos_h : Forall (Rlt 0) (r_heights q);
  vs_pos_d : Forall (Rlt 0) (r_derivs q);
  vs_inc_x : increasing (r_kx q);
  vs_inc_y : increasing (r_ky q);
  vs_extent_x : forall k, (k < length (r_widths q))%nat ->
      nth (S k) (r_kx q) 0 = nth k (r_kx q) 0 + nth k (r_widths q) 0;
  vs_extent_y : forall k, (k < length (r_widths q))%nat ->
      nth (S k) (r_ky q) 0 = nth k (r_ky q) 0 + nth k (r_heights q) 0
}.

(** The segment that the search selects for a finite input: the number
    of knots strictly below [x], less one, clamped as the code does. *)
Definition count_below (kx : list R) (x : R) : nat :=
  length (filter (fun k => Rltb k x) kx).

Definition segment_index (kx : list R) (K : nat) (x : R) : nat :=
  Nat.min (count_below kx x - 1) K.

(** The forward body on segment [k], as a real function of [x]. *)
Definition seg_slope (q : rspline) (k : nat) : R :=
  nth k (r_heights q) 0 / nth k (r_widths q) 0.

Definition fwd_alpha (q : rspline) (k : nat) (x : R) : R :=
  Rmin (Rmax ((x - nth k (r_kx q) 0) / nth k (r_widths q) 0) 0) 1.

Definition fwd_y (q : rspline) (k : nat) (x : R) : R :=
  nth k (r_ky q) 0
  + nth k (r_heights q) 0
    * rq_beta (seg_slope q k) (nth k (r_derivs q) 0) (nth (S k) (r_derivs q) 0)
              (fwd_alpha q k x).

Definition fwd_gradient (q : rspline) (k : nat) (x : R) : R :=
  rq_gradient (seg_slope q k) (nth k (r_derivs q) 0) (nth (S k) (r_derivs q) 0)
              (fwd_alpha q k x).

(** The inverse body on segment [k], as a real function of [y]. *)
Definition inv_beta (q : rspline) (k : nat) (y : R) : R :=
  Rmin (Rmax ((y - nth k (r_ky q) 0) / nth k (r_widths q) 0) 0) 1.

Definition inv_b (s d0 d1 beta : R) : R := d0 - (d1 + d0 - 2 * s) * beta.

Definition inv_discriminant (s d0 d1 beta : R) : R :=
  inv_b s d0 d1 beta * inv_b s d0 d1 beta
  - 4 * (s - inv_b s d0 d1 beta) * (- s * beta).

Definition inv_alpha (s d0 d1 beta : R) : R :=
  -2 * (- s * beta)
  * / (inv_b s d0 d1 beta + sqrt (inv_discriminant s d0 d1 beta)).

Definition inv_x (q : rspline) (k : nat) (y : R) : R :=
  nth k (r_kx q) 0
  + nth k (r_widths q) 0
    * inv_alpha (seg_slope q k) (nth k (r_derivs q) 0) (nth (S k) (r_derivs q) 0)
                (inv_beta q k y).

Definition inv_gradient (q : rspline) (k : nat) (y : R) : R :=
  rq_gradient (seg_slope q k) (nth k (r_derivs q) 0) (nth (S k) (r_derivs q) 0)
              (inv_alpha (seg_slope q k) (nth k (r_derivs q) 0)
                         (nth (S k) (r_derivs q) 0) (inv_beta q k y)).

(** Entry [(i, j)] of a tensor. *)
Definition tget{A : Type} (t : list (list A)) (i j : nat) : option A :=
  match nth_error t i with
  | Some row => nth_error row j
  | None => None
  end.

(** Tensors of finite values, and the entrywise combination of two of
    them over the reals. *)
Definition tfin (t : list (list R)) : Tensor := map (map Fin) t.

Definition same_shape {A B : Type} (x : list (list A)) (p : list (list B)) : Prop :=
  Forall2 (fun a b => length a = length b) x p.

Definition rmap2 (g : R -> R -> R) (x p : list (list R)) : list (list R) :=
  map (fun rq => map (fun ab => g (fst ab) (snd ab)) (combine (fst rq) (snd rq)))
      (combine x p).

(** [inv] undoes [fwd] on finite inputs and parameters of one shape, and
    reports the opposite log-det-Jacobian. *)
Definition inverse_pair
    (fwd inv : Tensor -> Tensor -> result (Tensor * list scalar)) : Prop :=
  forall x p : list (list R),
    same_shape x p ->
    exists y ldj ldj',
      fwd (tfin x) (tfin p) = Ok (y, ldj) /\
      inv y (tfin p) = Ok (tfin x, ldj') /\
      ldj = map fneg ldj'.

(** A transformation with parameters [theta] treats the batch elements
    independently when, in two calls that return, batch element [i] of
    the output and of the log-det-Jacobian agree as soon as the two
    inputs hold the same batch element [i]. *)
Definition batch_independent {P : Type}
    (f : Tensor -> P -> result (Tensor * list scalar)) : Prop :=
  forall (x x' : Tensor) (theta : P) (y : Tensor) (ldj : list scalar)
         (y' : Tensor) (ldj' : list scalar) (i : nat) (row : list scalar),
    nth_error x i = Some row -> nth_error x' i = Some row ->
    f x theta = Ok (y, ldj) -> f x' theta = Ok (y', ldj') ->
    nth_error y i = nth_error y' i /\ nth_error ldj i = nth_error ldj' i.

(** On the one-entry tensors [[[x]]] with [x] in [dom], the
    transformation [F] computes a real function with a positive
    derivative, and the log-det-Jacobian that it reports is the logarithm
    of that derivative. *)
Definition log_derivative
    (F : Tensor -> result (Tensor * list scalar)) (dom : R -> Prop) : Prop :=
  exists f g : R -> R,
    forall x, dom x ->
      F [[Fin x]] = Ok ([[Fin (f x)]], [Fin (ln (g x))])
      /\ 0 < g x /\ derivable_pt_lim f x (g x).

(** The call returned, with an output of the shape of [x] and one
    log-det-Jacobian per batch element. *)
Definition returns_shape (x : Tensor) (r : result (Tensor * list scalar)) : Prop :=
  exists y ldj, r = Ok (y, ldj) /\ same_shape x y /\ length ldj = length x.

(** Some concrete parametrisations with one segment over [[0, 1]]. *)
Definition unit_spline : rspline :=
  {| r_widths := [1]; r_heights := [1]; r_derivs := [1; 1];
     r_kx := [0; 1]; r_ky := [0; 1] |}.

Definition steep_spline : rspline :=
  {| r_widths := [1]; r_heights := [1]; r_derivs := [2; 1];
     r_kx := [0; 1]; r_ky := [0; 1] |}.

Definition tall_spline : rspline :=
  {| r_widths := [1]; r_heights := [2]; r_derivs := [1; 1];
     r_kx := [0; 1]; r_ky := [0; 2] |}.

Definition falling_spline : rspline :=
  {| r_widths := [1]; r_heights := [1]; r_derivs := [-1; 1];
     r_kx := [0; 1]; r_ky := [0; 1] |}.

(** One segment over [[2, 3]], of height [2]. *)
Definition far_spline : rspline :=
  {| r_widths := [1]; r_heights := [2]; r_derivs := [1; 1];
     r_kx := [2; 3]; r_ky := [5; 7] |}.

(** Two segments over [[0, 3]]: the first as wide as it is high, the
    second not. *)
Definition two_segment_spline : rspline :=
  {| r_widths := [1; 2]; r_heights := [1; 3]; r_derivs := [1; 2; 1];
     r_kx := [0; 1; 3]; r_ky := [0; 1; 4] |}.

(** * Properties *)

(** ** Scalars *)

Lemma Rltb_true a b : a < b -> Rltb a b = true.
Proof. intros H; unfold Rltb; destruct (Rlt_dec a b); [reflexivity | contradiction]. Qed.

Lemma Rltb_false a b : ~ a < b -> Rltb a b = false.
Proof. intros H; unfold Rltb; destruct (Rlt_dec a b); [contradiction | reflexivity]. Qed.

Lemma Rleb_true a b : a <= b -> Rleb a b = true.
Proof. intros H; unfold Rleb; destruct (Rle_dec a b); [reflexivity | contradiction]. Qed.

Lemma Rleb_false a b : ~ a <= b -> Rleb a b = false.
Proof. intros H; unfold Rleb; destruct (Rle_dec a b); [contradiction | reflexivity]. Qed.

Lemma Reqb_true a b : a = b -> Reqb a b = true.
Proof. intros H; unfold Reqb; destruct (Req_dec_T a b); [reflexivity | contradiction]. Qed.

Lemma Reqb_false a b : a <> b -> Reqb a b = false.
Proof. intros H; unfold Reqb; destruct (Req_dec_T a b); [contradiction | reflexivity]. Qed.

Lemma Rltb_spec a b : Rltb a b = true <-> a < b.
Proof. unfold Rltb; destruct (Rlt_dec a b); split; auto; discriminate. Qed.

Lemma Rleb_spec a b : Rleb a b = true <-> a <= b.
Proof. unfold Rleb; destruct (Rle_dec a b); split; auto; discriminate. Qed.

(** Decide the comparisons of a goal whose operands are numerals. *)
Ltac rdecide :=
  repeat first
    [ rewrite Rltb_true by lra | rewrite Rltb_false by lra
    | rewrite Rleb_true by lra | rewrite Rleb_false by lra
    | rewrite Reqb_true by lra | rewrite Reqb_false by lra ].

Lemma finv_Fin r : r <> 0 -> finv (Fin r) = Fin (/ r).
Proof. intros H; simpl; now rewrite Reqb_false. Qed.

Lemma fdiv_Fin a b : b <> 0 -> fdiv (Fin a) (Fin b) = Fin (a / b).
Proof. intros H; unfold fdiv; now rewrite finv_Fin. Qed.

Lemma flog_Fin r : 0 < r -> flog (Fin r) = Fin (ln r).
Proof. intros H; simpl; rewrite Rltb_false, Reqb_false by lra; reflexivity. Qed.

Lemma fsqrt_Fin r : 0 <= r -> fsqrt (Fin r) = Fin (sqrt r).
Proof. intros H; simpl; rewrite Rltb_false by lra; reflexivity. Qed.

Lemma fclamp01_Fin r : 0 <= r <= 1 -> fclamp 0 1 (Fin r) = Fin r.
Proof.
  intros [H0 H1]; simpl; f_equal.
  rewrite Rmax_left by lra. now rewrite Rmin_left.
Qed.

Lemma fsum_Fin (l : list R) : fsum (map Fin l) = Fin (fold_right Rplus 0 l).
Proof.
  unfold fsum.
  assert (H : forall a, fold_left fadd (map Fin l) (Fin a)
                        = Fin (a + fold_right Rplus 0 l)).
  { induction l as [|v l IH]; intros a; simpl.
    - f_equal; lra.
    - rewrite IH. f_equal; lra. }
  rewrite H. f_equal; lra.
Qed.

Lemma fold_left_fadd_NaN (l : list scalar) : fold_left fadd l NaN = NaN.
Proof. induction l as [|v l IH]; simpl; auto. Qed.

Lemma fsum_NaN (l : list scalar) : In NaN l -> fsum l = NaN.
Proof.
  unfold fsum. generalize (Fin 0).
  induction l as [|v l IH]; intros a Hin; simpl; [contradiction|].
  destruct Hin as [Hv | Hin].
  - subst v. replace (fadd a NaN) with NaN by (destruct a; reflexivity).
    apply fold_left_fadd_NaN.
  - now apply IH.
Qed.

(** ** The exception monad and the tensor combinators *)

Lemma bind_ok {A B : Type} (m : result A) (k : A -> result B) (b : B) :
  bind m k = Ok b -> exists a, m = Ok a /\ k a = Ok b.
Proof. destruct m as [a|e]; simpl; intros H; [eauto | discriminate]. Qed.

Lemma zip_ok {A B : Type} (l : list A) (m : list B) (r : list (A * B)) :
  zip l m = Ok r -> r = combine l m /\ length l = length m.
Proof.
  revert m r; induction l as [|a l IH]; intros [|b m] r H; simpl in H;
    try discriminate.
  - inversion H; auto.
  - apply bind_ok in H as (r' & Hz & Hr). inversion Hr; subst.
    apply IH in Hz as [-> Hlen]. simpl; auto.
Qed.

Lemma zip_same_length {A B : Type} (l : list A) (m : list B) :
  length l = length m -> zip l m = Ok (combine l m).
Proof.
  revert m; induction l as [|a l IH]; intros [|b m] H; simpl in *;
    try discriminate; auto.
  rewrite IH by lia. reflexivity.
Qed.

Lemma mapM_length {A B : Type} (f : A -> result B) (l : list A) (r : list B) :
  mapM f l = Ok r -> length r = length l.
Proof.
  revert r; induction l as [|a l IH]; intros r H; simpl in H.
  - inversion H; reflexivity.
  - apply bind_ok in H as (b & _ & H). apply bind_ok in H as (bs & Hbs & H).
    inversion H; subst; simpl. f_equal; auto.
Qed.

Lemma mapM_nth_error {A B : Type} (f : A -> result B) (l : list A) (r : list B) :
  mapM f l = Ok r ->
  forall i a, nth_error l i = Some a ->
  exists b, f a = Ok b /\ nth_error r i = Some b.
Proof.
  revert r; induction l as [|a0 l IH]; intros r H i a Hi.
  - destruct i; discriminate.
  - simpl in H. apply bind_ok in H as (b & Hb & H).
    apply bind_ok in H as (bs & Hbs & H). inversion H; subst.
    destruct i as [|i]; simpl in *.
    + inversion Hi; subst; eauto.
    + eapply IH; eauto.
Qed.

Lemma mapM_pure {A B : Type} (f : A -> result B) (g : A -> B) (l : list A) :
  (forall a, In a l -> f a = Ok (g a)) -> mapM f l = Ok (map g l).
Proof.
  induction l as [|a l IH]; intros H; simpl; auto.
  rewrite H by (left; reflexivity). simpl.
  rewrite IH by (intros; apply H; right; assumption). reflexivity.
Qed.

Lemma mapM_total {A B : Type} (f : A -> result B) (l : list A) :
  Forall (fun a => exists b, f a = Ok b) l -> exists r, mapM f l = Ok r.
Proof.
  induction 1 as [|a l [b Hb] _ [r Hr]]; simpl; [eauto|].
  rewrite Hb. cbn [bind]. rewrite Hr. cbn [bind]. eauto.
Qed.

Lemma mapM_raise {A B : Type} (f : A -> result B) (l : list A) (e : exn) :
  (forall a, In a l -> f a = Raise e) -> l <> [] -> mapM f l = Raise e.
Proof.
  destruct l as [|a l]; intros H Hne; [congruence|].
  simpl. rewrite H by (left; reflexivity). reflexivity.
Qed.

Lemma nth_error_combine {A B : Type} (l : list A) (m : list B) (i : nat) :
  nth_error (combine l m) i =
  match nth_error l i, nth_error m i with
  | Some a, Some b => Some (a, b)
  | _, _ => None
  end.
Proof.
  revert m i; induction l as [|a l IH]; intros [|b m] [|i]; simpl; auto.
  destruct (nth_error l i); reflexivity.
Qed.

(** Row [i] of [tzip x p] pairs row [i] of [x] with row [i] of [p]. *)
Lemma tzip_row {A B : Type} (x : list (list A)) (p : list (list B)) r :
  tzip x p = Ok r ->
  length r = length x /\ length x = length p /\
  forall i xr pr, nth_error x i = Some xr -> nth_error p i = Some pr ->
    length xr = length pr /\ nth_error r i = Some (combine xr pr).
Proof.
  unfold tzip; intros H. apply bind_ok in H as (rows & Hz & Hm).
  apply zip_ok in Hz as [-> Hlen].
  split; [|split; [assumption|]].
  - apply mapM_length in Hm. rewrite Hm, length_combine. lia.
  - intros i xr pr Hx Hp.
    destruct (mapM_nth_error _ _ _ Hm i (xr, pr)) as (c & Hc & Hr).
    { rewrite nth_error_combine, Hx, Hp. reflexivity. }
    simpl in Hc. apply zip_ok in Hc as [-> Hl]. auto.
Qed.

Lemma tzip_same_shape {A B : Type} (x : list (list A)) (p : list (list B)) :
  Forall2 (fun xr pr => length xr = length pr) x p ->
  tzip x p = Ok (map (fun rq => combine (fst rq) (snd rq)) (combine x p)).
Proof.
  intros H. unfold tzip.
  rewrite zip_same_length by (eapply Forall2_length; eauto). simpl.
  apply mapM_pure. intros [xr pr] Hin. simpl.
  apply zip_same_length.
  induction H as [|a b x p Hab H IH]; simpl in Hin; [contradiction|].
  destruct Hin as [Heq | Hin]; [inversion Heq; subst; assumption | auto].
Qed.

(** ** Locating the segment in increasing knots *)

Lemma increasing_tail (a : R) (l : list R) :
  increasing (a :: l) ->
  increasing l /\ forall j, (j < length l)%nat -> a < nth j l 0.
Proof.
  intros H. split.
  - intros i j Hij. apply (H (S i) (S j)). simpl. lia.
  - intros j Hj. apply (H 0%nat (S j)). simpl. lia.
Qed.

Lemma count_below_none (l : list R) (x : R) :
  (forall j, (j < length l)%nat -> x <= nth j l 0) -> count_below l x = 0%nat.
Proof.
  unfold count_below. induction l as [|a l IH]; intros H; simpl; auto.
  rewrite Rltb_false.
  - apply IH. intros j Hj. apply (H (S j)). simpl. lia.
  - specialize (H 0%nat). simpl in H. assert (x <= a) by (apply H; lia). lra.
Qed.

Lemma count_below_cons_lt (a : R) (l : list R) (x : R) :
  a < x -> count_below (a :: l) x = S (count_below l x).
Proof. intros H. unfold count_below. simpl. now rewrite Rltb_true. Qed.

Lemma increasing_pair (a b : R) : a < b -> increasing [a; b].
Proof.
  intros H i j Hij. simpl in Hij.
  assert (i = 0%nat) by lia. assert (j = 1%nat) by lia. subst. simpl. exact H.
Qed.

(** With [kx[k] < x <= kx[k+1]] (the upper bound only if there is a knot
    [k+1]), exactly the knots [0..k] lie strictly below [x]. *)
Lemma count_below_between (kx : list R) (x : R) (k : nat) :
  increasing kx -> (k < length kx)%nat ->
  nth k kx 0 < x ->
  ((S k < length kx)%nat -> x <= nth (S k) kx 0) ->
  count_below kx x = S k.
Proof.
  revert k. induction kx as [|a l IH]; intros k Hinc Hk Hlo Hhi.
  - simpl in Hk. lia.
  - apply increasing_tail in Hinc as Hinc'. destruct Hinc' as [Hl Ha].
    destruct k as [|k].
    + simpl in Hlo. rewrite count_below_cons_lt by assumption. f_equal.
      apply count_below_none. intros j Hj.
      destruct j as [|j].
      * apply Hhi. simpl. lia.
      * assert (x <= nth 0 l 0) by (apply Hhi; simpl; lia).
        assert (nth 0 l 0 < nth (S j) l 0) by (apply Hl; lia). lra.
    + simpl in Hlo, Hk.
      assert (a < nth k l 0) by (apply Ha; lia).
      rewrite count_below_cons_lt by lra. f_equal.
      apply IH; auto; try lia.
      intros HS. apply Hhi. simpl. lia.
Qed.

Section Locate.

Variable ks : list R.
Variable K : nat.
Hypothesis Hinc : increasing ks.
Hypothesis Hlen : length ks = S K.

(** Inside the knot range the search selects segment [k] for
    [ks[k] < x <= ks[k+1]]. *)
Lemma segment_index_inner (k : nat) (x : R) :
  (k < K)%nat -> nth k ks 0 < x -> x <= nth (S k) ks 0 ->
  segment_index ks K x = k.
Proof.
  intros Hk Hlo Hhi. unfold segment_index.
  rewrite (count_below_between ks x k); auto; lia.
Qed.

(** At or below the first knot the clamped index is [0]. *)
Lemma segment_index_first (x : R) :
  x <= nth 0 ks 0 -> segment_index ks K x = 0%nat.
Proof.
  intros Hx. unfold segment_index.
  rewrite count_below_none; [reflexivity|].
  intros j Hj. destruct j as [|j]; [exact Hx|].
  assert (nth 0 ks 0 < nth (S j) ks 0) by (apply Hinc; lia).
  lra.
Qed.

(** Above the last knot the clamped index is [K], one past the last
    segment. *)
Lemma segment_index_above (x : R) :
  nth K ks 0 < x -> segment_index ks K x = K.
Proof.
  intros Hx. unfold segment_index.
  rewrite (count_below_between ks x K); auto; lia.
Qed.

End Locate.

(** ** Searching and gathering on finite parameters *)

(** The binary search finds the position [c] that splits the
    boundaries into those for which [k >= v] fails, before [c], and those
    for which it holds, from [c] on. *)
Lemma lower_bound_partition (bd : list scalar) (v : scalar) (c : nat) :
  (c <= length bd)%nat ->
  (forall i, (i < c)%nat -> fge (nth i bd NaN) v = false) ->
  (forall i, (c <= i < length bd)%nat -> fge (nth i bd NaN) v = true) ->
  forall steps start end_,
    (start <= c <= end_)%nat -> (end_ <= length bd)%nat ->
    (end_ - start <= steps)%nat ->
    lower_bound steps bd v start end_ = c.
Proof.
  intros Hc Hlo Hhi. induction steps as [|n IH]; intros start end_ Hs He Hf.
  - simpl. lia.
  - cbn [lower_bound]. destruct (start <? end_)%nat eqn:E.
    + apply Nat.ltb_lt in E.
      assert (Hmid : ((end_ - start) / 2 < end_ - start)%nat)
        by (apply Nat.div_lt; lia).
      set (mid := (start + (end_ - start) / 2)%nat) in *.
      assert (Hm : (start <= mid < end_)%nat) by (unfold mid; lia).
      destruct (fge (nth mid bd NaN) v) eqn:G.
      * apply IH; try lia.
        destruct (Nat.lt_ge_cases mid c) as [Hlt | Hge]; [|lia].
        rewrite (Hlo mid Hlt) in G. discriminate.
      * apply IH; try lia.
        destruct (Nat.lt_ge_cases mid c) as [Hlt | Hge]; [lia|].
        rewrite Hhi in G by lia. discriminate.
    + apply Nat.ltb_ge in E. lia.
Qed.

(** In increasing knots, those strictly below [x] come first. *)
Lemma count_below_prefix (kx : list R) (x : R) :
  increasing kx ->
  (count_below kx x <= length kx)%nat
  /\ (forall i, (i < count_below kx x)%nat -> nth i kx 0 < x)
  /\ (forall i, (count_below kx x <= i < length kx)%nat -> x <= nth i kx 0).
Proof.
  induction kx as [|a l IH]; intros Hinc.
  - unfold count_below. simpl. repeat split; intros; lia.
  - apply increasing_tail in Hinc as [Hl Ha].
    destruct (Rlt_le_dec a x) as [Hlt | Hle].
    + rewrite count_below_cons_lt by exact Hlt.
      destruct (IH Hl) as (Hc & Hlo & Hhi). simpl length. repeat split.
      * lia.
      * intros [|i] Hi; simpl; [exact Hlt | apply Hlo; lia].
      * intros [|i] Hi; simpl; [lia | apply Hhi; lia].
    + assert (Hnone : count_below (a :: l) x = 0%nat).
      { apply count_below_none. intros [|j] Hj; simpl; [exact Hle|].
        simpl in Hj. assert (a < nth j l 0) by (apply Ha; lia). lra. }
      rewrite Hnone. simpl length. repeat split.
      * lia.
      * intros i Hi. lia.
      * intros [|i] Hi; simpl; [exact Hle|].
        assert (a < nth i l 0) by (apply Ha; lia). lra.
Qed.

Lemma nth_map_Fin (l : list R) (i : nat) :
  (i < length l)%nat -> nth i (map Fin l) NaN = Fin (nth i l 0).
Proof.
  intros H. rewrite (nth_indep _ NaN (Fin 0)) by (now rewrite length_map).
  apply (map_nth Fin).
Qed.

Lemma searchsorted_Fin (kx : list R) (x : R) :
  increasing kx ->
  searchsorted (map Fin kx) (Fin x) = Z.of_nat (count_below kx x).
Proof.
  intros Hinc. destruct (count_below_prefix kx x Hinc) as (Hc & Hlo & Hhi).
  unfold searchsorted. f_equal. rewrite length_map.
  apply lower_bound_partition; rewrite ?length_map; try lia.
  - intros i Hi. rewrite nth_map_Fin by lia. simpl.
    apply Rleb_false. specialize (Hlo i Hi). lra.
  - intros i Hi. rewrite nth_map_Fin by lia. simpl.
    apply Rleb_true. now apply Hhi.
Qed.

Lemma clamp_idx_nat (c K : nat) :
  clamp_idx (Z.of_nat c - 1) 0 (Z.of_nat K) = Z.of_nat (Nat.min (c - 1) K).
Proof. unfold clamp_idx. lia. Qed.

Lemma gather_Fin (l : list R) (k : nat) :
  (k < length l)%nat -> gather (map Fin l) (Z.of_nat k) = Ok (Fin (nth k l 0)).
Proof.
  intros H. unfold gather.
  replace (Z.of_nat k <? 0)%Z with false by (symmetry; apply Z.ltb_ge; lia).
  rewrite Nat2Z.id, nth_error_map, (nth_error_nth' l 0 H). reflexivity.
Qed.

Lemma gather_out_of_range (l : list scalar) (k : nat) :
  (length l <= k)%nat -> gather l (Z.of_nat k) = Raise IndexError.
Proof.
  intros H. unfold gather.
  replace (Z.of_nat k <? 0)%Z with false by (symmetry; apply Z.ltb_ge; lia).
  rewrite Nat2Z.id. apply nth_error_None in H. now rewrite H.
Qed.

Lemma select_first_Fin (l : list R) :
  (0 < length l)%nat -> select_first (map Fin l) = Ok (Fin (nth 0 l 0)).
Proof. intros H. unfold select_first. now apply (gather_Fin l 0). Qed.

Lemma select_last_Fin (l : list R) (K : nat) :
  length l = S K -> select_last (map Fin l) = Ok (Fin (nth K l 0)).
Proof.
  intros H. unfold select_last. rewrite length_map, H.
  replace (Z.of_nat (S K) - 1)%Z with (Z.of_nat K) by lia.
  apply gather_Fin. lia.
Qed.


(** ** Closed forms of the spline bodies on finite values *)

Lemma finv_rq (s d0 d1 a : R) :
  rq_denominator s d0 d1 a <> 0 ->
  finv (Fin s + (Fin d1 + Fin d0 - Fin 2 * Fin s) * Fin a * (Fin 1 - Fin a))%S
  = Fin (/ rq_denominator s d0 d1 a).
Proof.
  intros H. cbn [fadd fsub fmul fneg].
  rewrite finv_Fin; unfold rq_denominator in *.
  - reflexivity.
  - intros E. apply H. rewrite <- E. ring.
Qed.

Lemma rq_spline_cell_closed (q : rspline) (x : R) (k : nat) :
  length (r_heights q) = length (r_widths q) ->
  length (r_derivs q) = S (length (r_widths q)) ->
  length (r_kx q) = S (length (r_widths q)) ->
  length (r_ky q) = S (length (r_widths q)) ->
  k = segment_index (r_kx q) (length (r_widths q)) x ->
  (k < length (r_widths q))%nat ->
  nth k (r_widths q) 0 <> 0 ->
  rq_denominator (seg_slope q k) (nth k (r_derivs q) 0)
                 (nth (S k) (r_derivs q) 0) (fwd_alpha q k x) <> 0 ->
  increasing (r_kx q) ->
  rq_spline_cell (Fin x) (finite_spline q) =
  Ok {| fc_x := Fin x;
        fc_outside := Rltb x (nth 0 (r_kx q) 0)
                      || Rltb (nth (length (r_widths q)) (r_kx q) 0) x;
        fc_y := Fin (fwd_y q k x);
        fc_gradient := Fin (fwd_gradient q k x) |}.
Proof.
  intros Hh Hd Hkx Hky Hk Hlt Hw HD Hinc.
  unfold rq_spline_cell. cbn [finite_spline widths heights derivs knots_xcoords knots_ycoords].
  rewrite select_first_Fin by lia.
  rewrite (select_last_Fin _ _ Hkx).
  cbn [bind].
  rewrite searchsorted_Fin by exact Hinc. rewrite length_map, clamp_idx_nat.
  fold (segment_index (r_kx q) (length (r_widths q)) x). rewrite <- Hk.
  replace (Z.of_nat k + 1)%Z with (Z.of_nat (S k)) by lia.
  rewrite !gather_Fin by lia.
  cbn [bind].
  rewrite fdiv_Fin by assumption.
  change (Fin x - Fin (nth k (r_kx q) 0))%S with (Fin (x - nth k (r_kx q) 0)).
  rewrite fdiv_Fin by assumption.
  change (fclamp 0 1 (Fin ((x - nth k (r_kx q) 0) / nth k (r_widths q) 0)))
    with (Fin (fwd_alpha q k x)).
  fold (seg_slope q k).
  rewrite finv_rq by assumption.
  cbn [fadd fsub fmul fneg fpow2 flt fgt].
  reflexivity.
Qed.

(** The inverse body up to the square root, at the segment [k] that the
    search and the clamp select, whatever the order of the knots. *)
Lemma inv_rq_spline_cell_prefix_at (q : rspline) (y : R) (k : nat) :
  length (r_heights q) = length (r_widths q) ->
  length (r_derivs q) = S (length (r_widths q)) ->
  length (r_kx q) = S (length (r_widths q)) ->
  length (r_ky q) = S (length (r_widths q)) ->
  clamp_idx (searchsorted (map Fin (r_ky q)) (Fin y) - 1) 0
            (Z.of_nat (length (r_widths q))) = Z.of_nat k ->
  (k < length (r_widths q))%nat ->
  nth k (r_widths q) 0 <> 0 ->
  let s := seg_slope q k in
  let d0 := nth k (r_derivs q) 0 in
  let d1 := nth (S k) (r_derivs q) 0 in
  let beta := inv_beta q k y in
  let alpha :=
    (Fin (-2) * Fin (- s * beta)
     * finv (Fin (inv_b s d0 d1 beta) + fsqrt (Fin (inv_discriminant s d0 d1 beta))))%S in
  inv_rq_spline_cell (Fin y) (finite_spline q) =
  Ok {| ic_outside := Rltb y (nth 0 (r_ky q) 0)
                      || Rltb (nth (length (r_widths q)) (r_ky q) 0) y;
        ic_discriminant := Fin (inv_discriminant s d0 d1 beta);
        ic_x := (Fin (nth k (r_kx q) 0) + Fin (nth k (r_widths q) 0) * alpha)%S;
        ic_gradient_fwd :=
          (fpow2 (Fin s)
           * (Fin d1 * fpow2 alpha
              + Fin 2 * Fin s * alpha * (Fin 1 - alpha)
              + Fin d0 * fpow2 (Fin 1 - alpha))
           * fpow2 (finv (Fin s + (Fin d1 + Fin d0 - Fin 2 * Fin s) * alpha
                                  * (Fin 1 - alpha))))%S |}.
Proof.
  intros Hh Hd Hkx Hky Hk Hlt Hw s d0 d1 beta alpha.
  unfold inv_rq_spline_cell.
  cbn [finite_spline widths heights derivs knots_xcoords knots_ycoords].
  rewrite select_first_Fin by lia.
  rewrite (select_last_Fin _ _ Hky).
  cbn [bind].
  rewrite length_map, Hk.
  replace (Z.of_nat k + 1)%Z with (Z.of_nat (S k)) by lia.
  rewrite !gather_Fin by lia.
  cbn [bind].
  rewrite fdiv_Fin by assumption.
  change (Fin y - Fin (nth k (r_ky q) 0))%S with (Fin (y - nth k (r_ky q) 0)).
  rewrite fdiv_Fin by assumption.
  change (fclamp 0 1 (Fin ((y - nth k (r_ky q) 0) / nth k (r_widths q) 0)))
    with (Fin beta).
  fold (seg_slope q k). fold s. fold d0. fold d1.
  reflexivity.
Qed.

Lemma inv_rq_spline_cell_prefix (q : rspline) (y : R) (k : nat) :
  length (r_heights q) = length (r_widths q) ->
  length (r_derivs q) = S (length (r_widths q)) ->
  length (r_kx q) = S (length (r_widths q)) ->
  length (r_ky q) = S (length (r_widths q)) ->
  k = segment_index (r_ky q) (length (r_widths q)) y ->
  (k < length (r_widths q))%nat ->
  nth k (r_widths q) 0 <> 0 ->
  increasing (r_ky q) ->
  let s := seg_slope q k in
  let d0 := nth k (r_derivs q) 0 in
  let d1 := nth (S k) (r_derivs q) 0 in
  let beta := inv_beta q k y in
  let alpha :=
    (Fin (-2) * Fin (- s * beta)
     * finv (Fin (inv_b s d0 d1 beta) + fsqrt (Fin (inv_discriminant s d0 d1 beta))))%S in
  inv_rq_spline_cell (Fin y) (finite_spline q) =
  Ok {| ic_outside := Rltb y (nth 0 (r_ky q) 0)
                      || Rltb (nth (length (r_widths q)) (r_ky q) 0) y;
        ic_discriminant := Fin (inv_discriminant s d0 d1 beta);
        ic_x := (Fin (nth k (r_kx q) 0) + Fin (nth k (r_widths q) 0) * alpha)%S;
        ic_gradient_fwd :=
          (fpow2 (Fin s)
           * (Fin d1 * fpow2 alpha
              + Fin 2 * Fin s * alpha * (Fin 1 - alpha)
              + Fin d0 * fpow2 (Fin 1 - alpha))
           * fpow2 (finv (Fin s + (Fin d1 + Fin d0 - Fin 2 * Fin s) * alpha
                                  * (Fin 1 - alpha))))%S |}.
Proof.
  intros Hh Hd Hkx Hky Hk Hlt Hw Hinc.
  apply inv_rq_spline_cell_prefix_at; try assumption.
  rewrite searchsorted_Fin by exact Hinc. rewrite clamp_idx_nat.
  fold (segment_index (r_ky q) (length (r_widths q)) y). now rewrite <- Hk.
Qed.

Lemma inv_rq_spline_cell_closed (q : rspline) (y : R) (k : nat) :
  length (r_heights q) = length (r_widths q) ->
  length (r_derivs q) = S (length (r_widths q)) ->
  length (r_kx q) = S (length (r_widths q)) ->
  length (r_ky q) = S (length (r_widths q)) ->
  k = segment_index (r_ky q) (length (r_widths q)) y ->
  (k < length (r_widths q))%nat ->
  nth k (r_widths q) 0 <> 0 ->
  let s := seg_slope q k in
  let d0 := nth k (r_derivs q) 0 in
  let d1 := nth (S k) (r_derivs q) 0 in
  let beta := inv_beta q k y in
  0 <= inv_discriminant s d0 d1 beta ->
  inv_b s d0 d1 beta + sqrt (inv_discriminant s d0 d1 beta) <> 0 ->
  rq_denominator s d0 d1 (inv_alpha s d0 d1 beta) <> 0 ->
  increasing (r_ky q) ->
  inv_rq_spline_cell (Fin y) (finite_spline q) =
  Ok {| ic_outside := Rltb y (nth 0 (r_ky q) 0)
                      || Rltb (nth (length (r_widths q)) (r_ky q) 0) y;
        ic_discriminant := Fin (inv_discriminant s d0 d1 beta);
        ic_x := Fin (nth k (r_kx q) 0
                     + nth k (r_widths q) 0 * inv_alpha s d0 d1 beta);
        ic_gradient_fwd := Fin (rq_gradient s d0 d1 (inv_alpha s d0 d1 beta)) |}.
Proof.
  intros Hh Hd Hkx Hky Hk Hlt Hw s d0 d1 beta Hdisc Hroot HD Hinc.
  rewrite (inv_rq_spline_cell_prefix q y k) by assumption.
  fold s d0 d1 beta.
  rewrite fsqrt_Fin by assumption.
  change (Fin (inv_b s d0 d1 beta) + Fin (sqrt (inv_discriminant s d0 d1 beta)))%S
    with (Fin (inv_b s d0 d1 beta + sqrt (inv_discriminant s d0 d1 beta))).
  rewrite finv_Fin by assumption.
  change (Fin (-2) * Fin (- s * beta)
          * Fin (/ (inv_b s d0 d1 beta + sqrt (inv_discriminant s d0 d1 beta))))%S
    with (Fin (inv_alpha s d0 d1 beta)).
  rewrite finv_rq by assumption.
  reflexivity.
Qed.

(** A negative discriminant: the square root is NaN, and so is all that
    is computed from it. *)
Lemma inv_rq_spline_cell_nan (q : rspline) (y : R) (k : nat) :
  length (r_heights q) = length (r_widths q) ->
  length (r_derivs q) = S (length (r_widths q)) ->
  length (r_kx q) = S (length (r_widths q)) ->
  length (r_ky q) = S (length (r_widths q)) ->
  k = segment_index (r_ky q) (length (r_widths q)) y ->
  (k < length (r_widths q))%nat ->
  nth k (r_widths q) 0 <> 0 ->
  let s := seg_slope q k in
  let d0 := nth k (r_derivs q) 0 in
  let d1 := nth (S k) (r_derivs q) 0 in
  let beta := inv_beta q k y in
  inv_discriminant s d0 d1 beta < 0 ->
  increasing (r_ky q) ->
  inv_rq_spline_cell (Fin y) (finite_spline q) =
  Ok {| ic_outside := Rltb y (nth 0 (r_ky q) 0)
                      || Rltb (nth (length (r_widths q)) (r_ky q) 0) y;
        ic_discriminant := Fin (inv_discriminant s d0 d1 beta);
        ic_x := NaN;
        ic_gradient_fwd := NaN |}.
Proof.
  intros Hh Hd Hkx Hky Hk Hlt Hw s d0 d1 beta Hdisc Hinc.
  rewrite (inv_rq_spline_cell_prefix q y k) by assumption.
  fold s d0 d1 beta.
  replace (fsqrt (Fin (inv_discriminant s d0 d1 beta))) with NaN
    by (simpl; now rewrite Rltb_true).
  reflexivity.
Qed.

(** ** From one coordinate to the tensor *)

(** Peel the successful steps off a computation that returned. *)
Ltac unbind H :=
  repeat match type of H with
    | bind _ _ = Ok _ =>
        let a := fresh "t" in let Ha := fresh "Ht" in
        apply bind_ok in H as (a & Ha & H)
    | (let '(_, _) := ?a in _) = Ok _ => destruct a
    end.

(** The first and the last knot of the one coordinate of a one-entry
    input: they are read before the body runs, and the body reads them
    again. *)
Lemma first_and_last_single (v : scalar) (p : spline) (e : exn) :
  (rq_spline_cell v p = Raise e ->
   first_and_last knots_xcoords [p] = Raise e
   \/ exists ks, first_and_last knots_xcoords [p] = Ok ks)
  /\ (inv_rq_spline_cell v p = Raise e ->
      first_and_last knots_ycoords [p] = Raise e
      \/ exists ks, first_and_last knots_ycoords [p] = Ok ks).
Proof.
  split; intros H; unfold first_and_last; cbn [mapM].
  - unfold rq_spline_cell in H.
    destruct (select_first (knots_xcoords p)) as [k0|e0]; cbn [bind] in *;
      [|left; congruence].
    destruct (select_last (knots_xcoords p)) as [k1|e1]; cbn [bind] in *;
      [|left; congruence].
    right. eauto.
  - unfold inv_rq_spline_cell in H.
    destruct (select_first (knots_ycoords p)) as [k0|e0]; cbn [bind] in *;
      [|left; congruence].
    destruct (select_last (knots_ycoords p)) as [k1|e1]; cbn [bind] in *;
      [|left; congruence].
    right. eauto.
Qed.

Lemma first_and_last_single_ok (v : scalar) (p : spline) :
  (forall c, rq_spline_cell v p = Ok c ->
             exists ks, first_and_last knots_xcoords [p] = Ok ks)
  /\ (forall c, inv_rq_spline_cell v p = Ok c ->
                exists ks, first_and_last knots_ycoords [p] = Ok ks).
Proof.
  split; intros c H; unfold first_and_last; cbn [mapM].
  - unfold rq_spline_cell in H.
    destruct (select_first (knots_xcoords p)) as [k0|e0]; cbn [bind] in *;
      [|discriminate].
    destruct (select_last (knots_xcoords p)) as [k1|e1]; cbn [bind] in *;
      [|discriminate].
    eauto.
  - unfold inv_rq_spline_cell in H.
    destruct (select_first (knots_ycoords p)) as [k0|e0]; cbn [bind] in *;
      [|discriminate].
    destruct (select_last (knots_ycoords p)) as [k1|e1]; cbn [bind] in *;
      [|discriminate].
    eauto.
Qed.

(** On a one-entry input the lists are tensors and the mask has the
    shape of the input. *)
Ltac one_entry :=
  cbn [shape forallb length concat app tensors bind outside_interval_mask_shape
       broadcast_dim Nat.eqb mask_fits andb].

Lemma rq_spline_transform_single (v : scalar) (p : spline) (c : fwd_cell) :
  rq_spline_cell v p = Ok c ->
  rq_spline_transform [[v]] [[p]] =
  if fgt (fc_gradient c) (Fin 0)
  then Ok ([[if fc_outside c then fc_x c else fc_y c]],
           [fsum [flog (fc_gradient c)]])
  else Raise AssertionError.
Proof.
  intros H. destruct (proj1 (first_and_last_single_ok v p) c H) as [ks Hk].
  unfold rq_spline_transform, rq_spline_cells. one_entry. rewrite Hk. one_entry.
  cbn [tzip zip bind mapM fst snd]. rewrite H.
  cbn [bind all_gradients_positive forallb].
  destruct (fgt (fc_gradient c) (Fin 0)); reflexivity.
Qed.

Lemma rq_spline_transform_single_raise (v : scalar) (p : spline) (e : exn) :
  rq_spline_cell v p = Raise e -> rq_spline_transform [[v]] [[p]] = Raise e.
Proof.
  intros H. unfold rq_spline_transform, rq_spline_cells. one_entry.
  destruct (proj1 (first_and_last_single v p e) H) as [Hk | [ks Hk]];
    rewrite Hk; one_entry; [reflexivity|].
  cbn [tzip zip bind mapM fst snd]. rewrite H. reflexivity.
Qed.

Lemma inv_rq_spline_transform_single (v : scalar) (p : spline) (c : inv_cell) :
  inv_rq_spline_cell v p = Ok c ->
  inv_rq_spline_transform [[v]] [[p]] =
  Ok ([[ic_x c]], [fsum [fneg (flog (ic_gradient_fwd c))]]).
Proof.
  intros H. destruct (proj2 (first_and_last_single_ok v p) c H) as [ks Hk].
  unfold inv_rq_spline_transform, inv_rq_spline_cells. one_entry.
  rewrite Hk. one_entry.
  cbn [tzip zip bind mapM fst snd]. rewrite H. reflexivity.
Qed.

Lemma inv_rq_spline_transform_single_raise (v : scalar) (p : spline) (e : exn) :
  inv_rq_spline_cell v p = Raise e -> inv_rq_spline_transform [[v]] [[p]] = Raise e.
Proof.
  intros H. unfold inv_rq_spline_transform, inv_rq_spline_cells. one_entry.
  destruct (proj2 (first_and_last_single v p e) H) as [Hk | [ks Hk]];
    rewrite Hk; one_entry; [reflexivity|].
  cbn [tzip zip bind mapM fst snd]. rewrite H. reflexivity.
Qed.

Section Lifting.

Context {A B C : Type} (f : A * B -> result C).

Lemma lifted_row (x : list (list A)) (p : list (list B)) (cells : list (list C)) :
  (xp <- tzip x p ;; mapM (mapM f) xp) = Ok cells ->
  length cells = length x /\
  forall i xr pr, nth_error x i = Some xr -> nth_error p i = Some pr ->
    exists cr, nth_error cells i = Some cr /\ mapM f (combine xr pr) = Ok cr.
Proof.
  intros H. apply bind_ok in H as (xp & Hz & Hm).
  apply tzip_row in Hz as (Hlen & _ & Hrow). split.
  - apply mapM_length in Hm. congruence.
  - intros i xr pr Hx Hp. destruct (Hrow i xr pr Hx Hp) as [_ Hi].
    destruct (mapM_nth_error _ _ _ Hm i _ Hi) as (cr & Hcr & Hn). eauto.
Qed.

Lemma lifted_entry (x : list (list A)) (p : list (list B)) (cells : list (list C))
      (i j : nat) (v : A) (w : B) :
  (xp <- tzip x p ;; mapM (mapM f) xp) = Ok cells ->
  tget x i j = Some v -> tget p i j = Some w ->
  exists c, f (v, w) = Ok c /\ tget cells i j = Some c.
Proof.
  intros H Hx Hp. unfold tget in *.
  destruct (nth_error x i) as [xr|] eqn:Ex; [|discriminate].
  destruct (nth_error p i) as [pr|] eqn:Ep; [|discriminate].
  destruct (lifted_row _ _ _ H) as [_ Hrow].
  destruct (Hrow i xr pr Ex Ep) as (cr & Hcr & Hm).
  destruct (mapM_nth_error _ _ _ Hm j (v, w)) as (c & Hc & Hn).
  { rewrite nth_error_combine, Hx, Hp. reflexivity. }
  exists c. rewrite Hcr. auto.
Qed.

End Lifting.

Lemma tget_map {A B : Type} (g : A -> B) (t : list (list A)) (i j : nat) :
  tget (map (map g) t) i j = option_map g (tget t i j).
Proof.
  unfold tget. rewrite nth_error_map.
  destruct (nth_error t i) as [r|]; simpl; [apply nth_error_map | reflexivity].
Qed.

Lemma all_gradients_positive_spec (cells : list (list fwd_cell)) :
  all_gradients_positive cells = true <->
  forall i j c, tget cells i j = Some c -> fgt (fc_gradient c) (Fin 0) = true.
Proof.
  unfold all_gradients_positive. rewrite forallb_forall. split.
  - intros H i j c Hc. unfold tget in Hc.
    destruct (nth_error cells i) as [r|] eqn:Er; [|discriminate].
    apply nth_error_In in Er, Hc. specialize (H r Er).
    rewrite forallb_forall in H. auto.
  - intros H r Hr. rewrite forallb_forall. intros c Hc.
    apply In_nth_error in Hr as [i Hi]. apply In_nth_error in Hc as [j Hj].
    apply (H i j). unfold tget. now rewrite Hi.
Qed.

(** The forward result at one entry, read off the body at that entry. *)
Lemma rq_spline_transform_entry x params y ldj i j v p :
  rq_spline_transform x params = Ok (y, ldj) ->
  tget x i j = Some v -> tget params i j = Some p ->
  exists c, rq_spline_cell v p = Ok c /\
            fgt (fc_gradient c) (Fin 0) = true /\
            tget y i j = Some (if fc_outside c then fc_x c else fc_y c).
Proof.
  intros H Hx Hp. unfold rq_spline_transform in H. unbind H.
  rename t1 into mask, t2 into cells, Ht3 into Hc.
  destruct (all_gradients_positive cells) eqn:Hall; [|discriminate].
  destruct (mask_fits mask n n0); [|discriminate].
  inversion H; subst; clear H.
  destruct (lifted_entry _ _ _ _ i j v p Hc Hx Hp) as (c & Hcell & Hget).
  exists c. split; [exact Hcell|]. split.
  - rewrite all_gradients_positive_spec in Hall. eauto.
  - rewrite tget_map, Hget. reflexivity.
Qed.

Lemma inv_rq_spline_transform_entry y params x ldj i j v p :
  inv_rq_spline_transform y params = Ok (x, ldj) ->
  tget y i j = Some v -> tget params i j = Some p ->
  exists c, inv_rq_spline_cell v p = Ok c /\ tget x i j = Some (ic_x c).
Proof.
  intros H Hy Hp. unfold inv_rq_spline_transform in H. unbind H.
  rename t2 into cells, Ht3 into Hc. inversion H; subst; clear H.
  destruct (lifted_entry _ _ _ _ i j v p Hc Hy Hp) as (c & Hcell & Hget).
  exists c. split; [exact Hcell|]. rewrite tget_map, Hget. reflexivity.
Qed.

(** ** The rational-quadratic interpolant *)

Section Interpolant.

Variables s d0 d1 : R.
Hypothesis Hs : 0 < s.
Hypothesis Hd0 : 0 < d0.
Hypothesis Hd1 : 0 < d1.

Lemma rq_denominator_pos (a : R) : 0 <= a <= 1 -> 0 < rq_denominator s d0 d1 a.
Proof.
  intros [Ha0 Ha1]. unfold rq_denominator.
  replace (s + (d1 + d0 - 2 * s) * a * (1 - a))
    with (s * (a * a + (1 - a) * (1 - a)) + (d0 + d1) * (a * (1 - a))) by ring.
  assert (0 <= a * (1 - a)) by nra.
  assert (0 < a * a + (1 - a) * (1 - a)) by nra.
  assert (0 < s * (a * a + (1 - a) * (1 - a))) by (apply Rmult_lt_0_compat; lra).
  assert (0 <= (d0 + d1) * (a * (1 - a))) by (apply Rmult_le_pos; lra).
  lra.
Qed.

Lemma rq_gradient_pos (a : R) : 0 <= a <= 1 -> 0 < rq_gradient s d0 d1 a.
Proof.
  intros Ha. pose proof (rq_denominator_pos a Ha) as HD.
  destruct Ha as [Ha0 Ha1].
  unfold rq_gradient.
  assert (Hi : 0 < / rq_denominator s d0 d1 a) by (apply Rinv_0_lt_compat; exact HD).
  assert (Hn : 0 < d1 * (a * a) + 2 * s * a * (1 - a) + d0 * ((1 - a) * (1 - a))).
  { assert (0 <= d1 * (a * a)) by (apply Rmult_le_pos; nra).
    assert (0 <= 2 * s * a * (1 - a)).
    { replace (2 * s * a * (1 - a)) with ((2 * s) * (a * (1 - a))) by ring.
      apply Rmult_le_pos; nra. }
    assert (0 <= d0 * ((1 - a) * (1 - a))) by (apply Rmult_le_pos; nra).
    destruct (Rle_lt_dec a (1 / 2)).
    - assert (0 < d0 * ((1 - a) * (1 - a))) by (apply Rmult_lt_0_compat; nra). lra.
    - assert (0 < d1 * (a * a)) by (apply Rmult_lt_0_compat; nra). lra. }
  repeat apply Rmult_lt_0_compat; assumption.
Qed.

Lemma rq_beta_0 : rq_beta s d0 d1 0 = 0.
Proof. unfold rq_beta. ring. Qed.

Lemma rq_beta_1 : rq_beta s d0 d1 1 = 1.
Proof. unfold rq_beta, rq_denominator. field. lra. Qed.

Lemma rq_gradient_0 : rq_gradient s d0 d1 0 = d0.
Proof. unfold rq_gradient, rq_denominator. field. lra. Qed.

Lemma rq_gradient_1 : rq_gradient s d0 d1 1 = d1.
Proof. unfold rq_gradient, rq_denominator. field. lra. Qed.

(** The interpolant is strictly increasing on [[0, 1]]. *)
Lemma rq_beta_increasing (a b : R) :
  0 <= a -> a < b -> b <= 1 -> rq_beta s d0 d1 a < rq_beta s d0 d1 b.
Proof.
  intros Ha Hab Hb.
  assert (HDa : 0 < rq_denominator s d0 d1 a) by (apply rq_denominator_pos; lra).
  assert (HDb : 0 < rq_denominator s d0 d1 b) by (apply rq_denominator_pos; lra).
  unfold rq_beta.
  set (Na := s * (a * a) + d0 * a * (1 - a)).
  set (Nb := s * (b * b) + d0 * b * (1 - b)).
  assert (Hcross : Na * rq_denominator s d0 d1 b < Nb * rq_denominator s d0 d1 a).
  { apply Rlt_0_minus.
    replace (Nb * rq_denominator s d0 d1 a - Na * rq_denominator s d0 d1 b)
      with ((b - a) * (s * (s * (a * (1 - b) + b * (1 - a))
                            + d0 * ((1 - a) * (1 - b)) + d1 * (a * b))))
      by (unfold Na, Nb, rq_denominator; ring).
    apply Rmult_lt_0_compat; [lra|].
    apply Rmult_lt_0_compat; [lra|].
    assert (0 <= a * (1 - b)) by (apply Rmult_le_pos; lra).
    assert (0 < b * (1 - a)) by (apply Rmult_lt_0_compat; lra).
    assert (0 < s * (a * (1 - b) + b * (1 - a))) by (apply Rmult_lt_0_compat; lra).
    assert (0 <= d0 * ((1 - a) * (1 - b))).
    { apply Rmult_le_pos; [lra|]. apply Rmult_le_pos; lra. }
    assert (0 <= d1 * (a * b)).
    { apply Rmult_le_pos; [lra|]. apply Rmult_le_pos; lra. }
    lra. }
  apply (Rmult_lt_reg_r (rq_denominator s d0 d1 a)); [assumption|].
  apply (Rmult_lt_reg_r (rq_denominator s d0 d1 b)); [assumption|].
  replace (Na * / rq_denominator s d0 d1 a * rq_denominator s d0 d1 a
           * rq_denominator s d0 d1 b)
    with (Na * rq_denominator s d0 d1 b) by (field; lra).
  replace (Nb * / rq_denominator s d0 d1 b * rq_denominator s d0 d1 a
           * rq_denominator s d0 d1 b)
    with (Nb * rq_denominator s d0 d1 a) by (field; lra).
  exact Hcross.
Qed.

End Interpolant.

Section ValidSpline.

Variable q : rspline.
Hypothesis Hv : valid_spline q.

Let K := length (r_widths q).

Lemma valid_width_pos (k : nat) : (k < K)%nat -> 0 < nth k (r_widths q) 0.
Proof.
  intros Hk. pose proof (vs_pos_w q Hv) as H.
  rewrite Forall_forall in H. apply H, nth_In. exact Hk.
Qed.

Lemma valid_height_pos (k : nat) : (k < K)%nat -> 0 < nth k (r_heights q) 0.
Proof.
  intros Hk. pose proof (vs_pos_h q Hv) as H.
  rewrite Forall_forall in H. apply H, nth_In. rewrite (vs_len_h q Hv). exact Hk.
Qed.

Lemma valid_deriv_pos (k : nat) : (k <= K)%nat -> 0 < nth k (r_derivs q) 0.
Proof.
  intros Hk. pose proof (vs_pos_d q Hv) as H.
  rewrite Forall_forall in H. apply H, nth_In. rewrite (vs_len_d q Hv). fold K. lia.
Qed.

Lemma valid_slope_pos (k : nat) : (k < K)%nat -> 0 < seg_slope q k.
Proof.
  intros Hk. unfold seg_slope. apply Rdiv_lt_0_compat.
  - now apply valid_height_pos.
  - now apply valid_width_pos.
Qed.

End ValidSpline.

Lemma clamp01_range (r : R) : 0 <= Rmin (Rmax r 0) 1 <= 1.
Proof.
  unfold Rmin, Rmax.
  destruct (Rle_dec r 0); destruct (Rle_dec _ 1); lra.
Qed.

Lemma clamp01_id (r : R) : 0 <= r <= 1 -> Rmin (Rmax r 0) 1 = r.
Proof.
  intros H. unfold Rmin, Rmax.
  destruct (Rle_dec r 0); destruct (Rle_dec _ 1); lra.
Qed.

Lemma clamp01_low (r : R) : r <= 0 -> Rmin (Rmax r 0) 1 = 0.
Proof.
  intros H. unfold Rmin, Rmax.
  destruct (Rle_dec r 0); destruct (Rle_dec _ 1); lra.
Qed.

Lemma increasing_le (l : list R) (i j : nat) :
  increasing l -> (i <= j < length l)%nat -> nth i l 0 <= nth j l 0.
Proof.
  intros H Hij. destruct (Nat.eq_dec i j) as [->|Hne]; [lra|].
  left. apply H. lia.
Qed.

Section ValidCell.

Variable q : rspline.
Hypothesis Hv : valid_spline q.

Let K := length (r_widths q).

Lemma fwd_alpha_range (k : nat) (x : R) : 0 <= fwd_alpha q k x <= 1.
Proof. apply clamp01_range. Qed.

Lemma fwd_alpha_inner (k : nat) (x : R) :
  (k < K)%nat -> nth k (r_kx q) 0 <= x -> x <= nth (S k) (r_kx q) 0 ->
  fwd_alpha q k x = (x - nth k (r_kx q) 0) / nth k (r_widths q) 0.
Proof.
  intros Hk Hlo Hhi. unfold fwd_alpha. apply clamp01_id.
  pose proof (valid_width_pos q Hv k Hk) as Hw.
  rewrite (vs_extent_x q Hv k Hk) in Hhi. split.
  - unfold Rdiv. apply Rmult_le_pos; [lra|].
    left. apply Rinv_0_lt_compat. lra.
  - apply (Rmult_le_reg_r (nth k (r_widths q) 0)); [exact Hw|].
    unfold Rdiv. rewrite Rmult_assoc, Rinv_l by lra. lra.
Qed.

Lemma fwd_alpha_below (x : R) :
  x <= nth 0 (r_kx q) 0 -> fwd_alpha q 0 x = 0.
Proof.
  intros Hx. unfold fwd_alpha. apply clamp01_low.
  pose proof (valid_width_pos q Hv 0%nat (vs_segments q Hv)) as Hw.
  assert (Hi : 0 < / nth 0 (r_widths q) 0) by (apply Rinv_0_lt_compat; exact Hw).
  unfold Rdiv. nra.
Qed.

Lemma fwd_gradient_pos (k : nat) (x : R) : (k < K)%nat -> 0 < fwd_gradient q k x.
Proof.
  intros Hk. unfold fwd_gradient. apply rq_gradient_pos.
  - now apply valid_slope_pos.
  - apply valid_deriv_pos; [exact Hv | fold K; lia].
  - apply valid_deriv_pos; [exact Hv | fold K; lia].
  - apply fwd_alpha_range.
Qed.

(** Whenever the selected segment is in range, the body of the forward
    pass evaluates to its closed form. *)
Lemma valid_cell (x : R) (k : nat) :
  k = segment_index (r_kx q) K x -> (k < K)%nat ->
  rq_spline_cell (Fin x) (finite_spline q) =
  Ok {| fc_x := Fin x;
        fc_outside := Rltb x (nth 0 (r_kx q) 0) || Rltb (nth K (r_kx q) 0) x;
        fc_y := Fin (fwd_y q k x);
        fc_gradient := Fin (fwd_gradient q k x) |}.
Proof.
  intros Hk Hlt.
  apply rq_spline_cell_closed; try apply Hv; try assumption.
  - pose proof (valid_width_pos q Hv k Hlt). lra.
  - apply Rgt_not_eq, Rlt_gt, rq_denominator_pos.
    + now apply valid_slope_pos.
    + apply valid_deriv_pos; [exact Hv | fold K; lia].
    + apply valid_deriv_pos; [exact Hv | fold K; lia].
    + apply fwd_alpha_range.
Qed.

(** Above the last knot the gather of the segment width is out of
    range. *)
Lemma valid_cell_above (x : R) :
  nth K (r_kx q) 0 < x ->
  rq_spline_cell (Fin x) (finite_spline q) = Raise IndexError.
Proof.
  intros Hx. unfold rq_spline_cell.
  cbn [finite_spline widths heights derivs knots_xcoords knots_ycoords].
  rewrite select_first_Fin by (rewrite (vs_len_kx q Hv); lia).
  rewrite (select_last_Fin _ _ (vs_len_kx q Hv)).
  cbn [bind].
  rewrite searchsorted_Fin by apply Hv. rewrite length_map, clamp_idx_nat.
  fold (segment_index (r_kx q) (length (r_widths q)) x).
  rewrite (segment_index_above (r_kx q) (length (r_widths q))
             (vs_inc_x q Hv) (vs_len_kx q Hv) x Hx).
  rewrite gather_out_of_range by (rewrite length_map; lia).
  reflexivity.
Qed.

End ValidCell.

(** ** The spline at concrete inputs *)

(** Unfold the real-valued closed forms on a concrete parametrisation. *)
Ltac unfold_closed :=
  unfold fwd_y, fwd_gradient, fwd_alpha, inv_beta, inv_alpha, inv_discriminant,
    inv_b, rq_gradient, rq_beta, rq_denominator, seg_slope; simpl.

Lemma segment_one (ks : list R) (x : R) :
  segment_index ks 1 x = 0%nat \/ segment_index ks 1 x = 1%nat.
Proof. unfold segment_index. lia. Qed.

Lemma steep_cell_below :
  rq_spline_cell (Fin (-1)) (finite_spline steep_spline) =
  Ok {| fc_x := Fin (-1); fc_outside := true; fc_y := Fin 0; fc_gradient := Fin 2 |}.
Proof.
  assert (Ha : fwd_alpha steep_spline 0 (-1) = 0).
  { unfold fwd_alpha; simpl. apply clamp01_low. lra. }
  assert (Hk : 0%nat = segment_index (r_kx steep_spline)
                         (length (r_widths steep_spline)) (-1)).
  { unfold segment_index, count_below; simpl. rdecide. reflexivity. }
  rewrite (rq_spline_cell_closed steep_spline (-1) 0 eq_refl eq_refl eq_refl eq_refl Hk).
  - f_equal. f_equal.
    + simpl. rdecide. reflexivity.
    + f_equal. unfold fwd_y. rewrite Ha. unfold_closed. field.
    + f_equal. unfold fwd_gradient. rewrite Ha. unfold_closed. field.
  - simpl. lia.
  - simpl. lra.
  - rewrite Ha. unfold_closed. lra.
  - apply increasing_pair. lra.
Qed.

Lemma fsum_singleton (r : R) : fsum [Fin r] = Fin r.
Proof. unfold fsum; simpl. f_equal. lra. Qed.

Lemma inv_alpha_0 (s d0 d1 : R) : inv_alpha s d0 d1 0 = 0.
Proof. unfold inv_alpha. ring. Qed.

Lemma unit_inv_cell_below :
  inv_rq_spline_cell (Fin (-1)) (finite_spline unit_spline) =
  Ok {| ic_outside := true; ic_discriminant := Fin 1;
        ic_x := Fin 0; ic_gradient_fwd := Fin 1 |}.
Proof.
  assert (Hb : inv_beta unit_spline 0 (-1) = 0).
  { unfold inv_beta; simpl. apply clamp01_low. lra. }
  assert (Hk : 0%nat = segment_index (r_ky unit_spline)
                         (length (r_widths unit_spline)) (-1)).
  { unfold segment_index, count_below; simpl. rdecide. reflexivity. }
  assert (Hs : seg_slope unit_spline 0 = 1) by (unfold seg_slope; simpl; field).
  pose proof (inv_rq_spline_cell_closed unit_spline (-1) 0
                eq_refl eq_refl eq_refl eq_refl Hk) as H.
  cbv zeta in H. rewrite Hb, Hs, inv_alpha_0 in H. simpl nth in H.
  assert (Hd : inv_discriminant 1 1 1 0 = 1)
    by (unfold inv_discriminant, inv_b; ring).
  rewrite Hd in H. rewrite H.
  - f_equal. f_equal.
    + simpl. rdecide. reflexivity.
    + f_equal. ring.
    + f_equal. unfold rq_gradient, rq_denominator. field.
  - simpl. lia.
  - lra.
  - lra.
  - rewrite sqrt_1. unfold inv_b. lra.
  - unfold rq_denominator. lra.
  - apply increasing_pair. lra.
Qed.

Lemma tall_cell_half :
  rq_spline_cell (Fin (1 / 2)) (finite_spline tall_spline) =
  Ok {| fc_x := Fin (1 / 2); fc_outside := false;
        fc_y := Fin 1; fc_gradient := Fin (8 / 3) |}.
Proof.
  assert (Ha : fwd_alpha tall_spline 0 (1 / 2) = 1 / 2).
  { unfold fwd_alpha; simpl. rewrite clamp01_id by lra. field. }
  assert (Hk : 0%nat = segment_index (r_kx tall_spline)
                         (length (r_widths tall_spline)) (1 / 2)).
  { unfold segment_index, count_below; simpl. rdecide. reflexivity. }
  rewrite (rq_spline_cell_closed tall_spline (1 / 2) 0 eq_refl eq_refl eq_refl eq_refl Hk).
  - f_equal. f_equal.
    + simpl. rdecide. reflexivity.
    + f_equal. unfold fwd_y. rewrite Ha. unfold_closed. field.
    + f_equal. unfold fwd_gradient. rewrite Ha. unfold_closed. field.
  - simpl. lia.
  - simpl. lra.
  - rewrite Ha. unfold_closed. lra.
  - apply increasing_pair. lra.
Qed.

Lemma tall_inv_cell_one :
  inv_rq_spline_cell (Fin 1) (finite_spline tall_spline) =
  Ok {| ic_outside := false; ic_discriminant := Fin 1;
        ic_x := Fin 1; ic_gradient_fwd := Fin 1 |}.
Proof.
  assert (Hb : inv_beta tall_spline 0 1 = 1).
  { unfold inv_beta; simpl. rewrite clamp01_id by lra. field. }
  assert (Hk : 0%nat = segment_index (r_ky tall_spline)
                         (length (r_widths tall_spline)) 1).
  { unfold segment_index, count_below; simpl. rdecide. reflexivity. }
  assert (Hs : seg_slope tall_spline 0 = 2) by (unfold seg_slope; simpl; field).
  assert (Hd : inv_discriminant 2 1 1 1 = 1)
    by (unfold inv_discriminant, inv_b; ring).
  assert (Hal : inv_alpha 2 1 1 1 = 1).
  { unfold inv_alpha. rewrite Hd, sqrt_1. unfold inv_b. field. }
  pose proof (inv_rq_spline_cell_closed tall_spline 1 0
                eq_refl eq_refl eq_refl eq_refl Hk) as H.
  cbv zeta in H. rewrite Hb, Hs in H. simpl nth in H.
  rewrite Hal, Hd in H. rewrite H.
  - f_equal. f_equal.
    + simpl. rdecide. reflexivity.
    + f_equal. ring.
    + f_equal. unfold rq_gradient, rq_denominator. field.
  - simpl. lia.
  - lra.
  - lra.
  - rewrite sqrt_1. unfold inv_b. lra.
  - unfold rq_denominator. lra.
  - apply increasing_pair. lra.
Qed.

(** A one-segment parametrisation is valid as soon as its numbers are. *)
Lemma valid_one_segment (w h da db x0 y0 : R) :
  0 < w -> 0 < h -> 0 < da -> 0 < db ->
  valid_spline {| r_widths := [w]; r_heights := [h]; r_derivs := [da; db];
                  r_kx := [x0; x0 + w]; r_ky := [y0; y0 + h] |}.
Proof.
  intros Hw Hh Hda Hdb.
  constructor; simpl; auto; try (repeat constructor; assumption).
  - apply increasing_pair. lra.
  - apply increasing_pair. lra.
  - intros k Hk. assert (k = 0%nat) by lia. subst. reflexivity.
  - intros k Hk. assert (k = 0%nat) by lia. subst. reflexivity.
Qed.

Lemma unit_spline_valid : valid_spline unit_spline.
Proof.
  replace unit_spline with
    {| r_widths := [1]; r_heights := [1]; r_derivs := [1; 1];
       r_kx := [0; 0 + 1]; r_ky := [0; 0 + 1] |}.
  - apply valid_one_segment; lra.
  - unfold unit_spline. repeat f_equal; lra.
Qed.

Lemma steep_spline_valid : valid_spline steep_spline.
Proof.
  replace steep_spline with
    {| r_widths := [1]; r_heights := [1]; r_derivs := [2; 1];
       r_kx := [0; 0 + 1]; r_ky := [0; 0 + 1] |}.
  - apply valid_one_segment; lra.
  - unfold steep_spline. repeat f_equal; lra.
Qed.

Lemma tall_spline_valid : valid_spline tall_spline.
Proof.
  replace tall_spline with
    {| r_widths := [1]; r_heights := [2]; r_derivs := [1; 1];
       r_kx := [0; 0 + 1]; r_ky := [0; 0 + 2] |}.
  - apply valid_one_segment; lra.
  - unfold tall_spline. repeat f_equal; lra.
Qed.

Lemma far_spline_valid : valid_spline far_spline.
Proof.
  replace far_spline with
    {| r_widths := [1]; r_heights := [2]; r_derivs := [1; 1];
       r_kx := [2; 2 + 1]; r_ky := [5; 5 + 2] |}.
  - apply valid_one_segment; lra.
  - unfold far_spline. repeat f_equal; lra.
Qed.

Lemma far_cell_middle :
  rq_spline_cell (Fin (5 / 2)) (finite_spline far_spline) =
  Ok {| fc_x := Fin (5 / 2); fc_outside := false;
        fc_y := Fin 6; fc_gradient := Fin (8 / 3) |}.
Proof.
  assert (Ha : fwd_alpha far_spline 0 (5 / 2) = 1 / 2).
  { unfold fwd_alpha; simpl. rewrite clamp01_id by lra. field. }
  assert (Hk : 0%nat = segment_index (r_kx far_spline)
                         (length (r_widths far_spline)) (5 / 2)).
  { unfold segment_index, count_below; simpl. rdecide. reflexivity. }
  rewrite (rq_spline_cell_closed far_spline (5 / 2) 0 eq_refl eq_refl eq_refl eq_refl Hk).
  - f_equal. f_equal.
    + simpl. rdecide. reflexivity.
    + f_equal. unfold fwd_y. rewrite Ha. unfold_closed. field.
    + f_equal. unfold fwd_gradient. rewrite Ha. unfold_closed. field.
  - simpl. lia.
  - simpl. lra.
  - rewrite Ha. unfold_closed. lra.
  - apply increasing_pair. lra.
Qed.

Lemma inv_cell_above_unit :
  inv_rq_spline_cell (Fin 2) (finite_spline unit_spline) = Raise IndexError.
Proof.
  unfold inv_rq_spline_cell, select_first, select_last, searchsorted. simpl.
  rdecide. simpl. reflexivity.
Qed.

(** C3.  The claim is that the segment index is clamped into [[0, K-1]],
    so that no gather is out of bounds and inputs outside the interval
    never raise.  The code clamps into [[0, K]] (the upper bound is
    [widths.shape[-1]]): for an input above the last knot the index is
    [K], and the gather of the width raises, in both directions.  Here
    [K = 1], the knots are [[0, 1]] and the input is [2]. *)
Theorem index_clamp_reaches_K :
  clamp_idx (searchsorted (knots_xcoords (finite_spline unit_spline)) (Fin 2) - 1)
            0 (Z.of_nat (length (widths (finite_spline unit_spline)))) = 1%Z
  /\ rq_spline_transform [[Fin 2]] [[finite_spline unit_spline]] = Raise IndexError
  /\ inv_rq_spline_transform [[Fin 2]] [[finite_spline unit_spline]] = Raise IndexError.
Proof.
  split; [|split].
  - unfold searchsorted. simpl. rdecide. reflexivity.
  - apply rq_spline_transform_single_raise.
    apply (valid_cell_above unit_spline unit_spline_valid). simpl. lra.
  - apply inv_rq_spline_transform_single_raise, inv_cell_above_unit.
Qed.

(** C2.  The claim is that an input outside the knot range is returned
    unchanged and adds nothing to the log-det-Jacobian.  Below the first
    knot the output is the input, but the gradient of the boundary
    segment is still summed: with [derivs = [2, 1]] the call at [x = -1]
    reports [ldj = ln 2].  Above the last knot the call raises. *)
Theorem forward_outside_interval_ldj :
  rq_spline_transform [[Fin (-1)]] [[finite_spline steep_spline]]
    = Ok ([[Fin (-1)]], [Fin (ln 2)])
  /\ ln 2 <> 0
  /\ rq_spline_transform [[Fin 2]] [[finite_spline steep_spline]] = Raise IndexError.
Proof.
  split; [|split].
  - rewrite (rq_spline_transform_single _ _ _ steep_cell_below).
    cbn [fc_gradient fc_outside fc_x fc_y fgt flt]. rdecide.
    rewrite flog_Fin by lra. rewrite fsum_singleton. reflexivity.
  - pose proof ln_lt_2. lra.
  - apply rq_spline_transform_single_raise.
    apply (valid_cell_above steep_spline steep_spline_valid). simpl. lra.
Qed.

(** C4.  The claim is that the inverse returns an input outside the knot
    range of [knots_ycoords] unchanged.  The inverse computes the mask
    but never assigns through it: at [y = -1], below the first knot [0],
    it returns the first knot of [knots_xcoords], [0]. *)
Theorem inverse_outside_interval_not_identity :
  inv_rq_spline_transform [[Fin (-1)]] [[finite_spline unit_spline]]
    = Ok ([[Fin 0]], [Fin 0])
  /\ 0 <> -1.
Proof.
  split; [|lra].
  rewrite (inv_rq_spline_transform_single _ _ _ unit_inv_cell_below).
  cbn [ic_x ic_gradient_fwd]. rewrite flog_Fin by lra.
  cbn [fneg]. rewrite fsum_singleton, ln_1. repeat f_equal. lra.
Qed.

(** C1.  The claim is that the inverse undoes the forward pass and
    reports the opposite log-det-Jacobian.  The inverse divides
    [y - y0] by the width instead of the height, so the two agree only
    on segments with [w = h].  With one segment of width [1] and height
    [2], the forward pass sends [1/2] to [1] with [ldj = ln (8/3)]; the
    inverse sends [1] to [1] with [ldj = 0]. *)
Theorem spline_roundtrip_fails :
  valid_spline tall_spline
  /\ rq_spline_transform [[Fin (1 / 2)]] [[finite_spline tall_spline]]
     = Ok ([[Fin 1]], [Fin (ln (8 / 3))])
  /\ inv_rq_spline_transform [[Fin 1]] [[finite_spline tall_spline]]
     = Ok ([[Fin 1]], [Fin 0])
  /\ 1 <> 1 / 2
  /\ 0 <> - ln (8 / 3).
Proof.
  split; [exact tall_spline_valid|]. split; [|split; [|split]].
  - rewrite (rq_spline_transform_single _ _ _ tall_cell_half).
    cbn [fc_gradient fc_outside fc_x fc_y fgt flt]. rdecide.
    rewrite flog_Fin by lra. rewrite fsum_singleton. reflexivity.
  - rewrite (inv_rq_spline_transform_single _ _ _ tall_inv_cell_one).
    cbn [ic_x ic_gradient_fwd]. rewrite flog_Fin by lra.
    cbn [fneg]. rewrite fsum_singleton, ln_1. repeat f_equal. lra.
  - lra.
  - assert (ln 1 < ln (8 / 3)) by (apply ln_increasing; lra).
    rewrite ln_1 in *. lra.
Qed.

(** ** The forward pass on a valid parametrisation *)

Section ValidSegment.

Variable q : rspline.
Hypothesis Hv : valid_spline q.

Let K := length (r_widths q).

Lemma fwd_y_left_knot (k : nat) :
  (k < K)%nat -> fwd_y q k (nth k (r_kx q) 0) = nth k (r_ky q) 0.
Proof.
  intros Hk. unfold fwd_y.
  pose proof (valid_width_pos q Hv k Hk) as Hw.
  rewrite (fwd_alpha_inner q Hv k); try (fold K; lia); try lra.
  - replace ((nth k (r_kx q) 0 - nth k (r_kx q) 0) / nth k (r_widths q) 0)
      with 0 by (field; lra).
    rewrite rq_beta_0. ring.
  - rewrite (vs_extent_x q Hv k Hk). lra.
Qed.

Lemma fwd_y_right_knot (k : nat) :
  (k < K)%nat -> fwd_y q k (nth (S k) (r_kx q) 0) = nth (S k) (r_ky q) 0.
Proof.
  intros Hk. unfold fwd_y.
  pose proof (valid_width_pos q Hv k Hk) as Hw.
  rewrite (fwd_alpha_inner q Hv k); try (fold K; lia); try lra.
  - rewrite (vs_extent_x q Hv k Hk).
    replace ((nth k (r_kx q) 0 + nth k (r_widths q) 0 - nth k (r_kx q) 0)
             / nth k (r_widths q) 0) with 1 by (field; lra).
    rewrite rq_beta_1 by (now apply valid_slope_pos).
    rewrite (vs_extent_y q Hv k Hk). ring.
  - rewrite (vs_extent_x q Hv k Hk). lra.
Qed.

(** On the closed segment [[kx[k], kx[k+1]]] the forward body is not
    masked, its value is the interpolant of segment [k], and its gradient
    is positive.  At the left end of a segment [k >= 1] the search
    selects segment [k-1], whose right end has the same value. *)
Lemma valid_cell_segment (k : nat) (x : R) :
  (k < K)%nat -> nth k (r_kx q) 0 <= x -> x <= nth (S k) (r_kx q) 0 ->
  exists g, 0 < g /\
    rq_spline_cell (Fin x) (finite_spline q) =
    Ok {| fc_x := Fin x; fc_outside := false;
          fc_y := Fin (fwd_y q k x); fc_gradient := Fin g |}.
Proof.
  intros Hk Hlo Hhi.
  pose proof (vs_inc_x q Hv) as Hinc. pose proof (vs_len_kx q Hv) as Hlen.
  assert (Hout : Rltb x (nth 0 (r_kx q) 0)
                 || Rltb (nth (length (r_widths q)) (r_kx q) 0) x = false).
  { assert (nth 0 (r_kx q) 0 <= nth k (r_kx q) 0)
      by (apply increasing_le; [exact Hinc | fold K in Hlen; lia]).
    assert (nth (S k) (r_kx q) 0 <= nth (length (r_widths q)) (r_kx q) 0)
      by (apply increasing_le; [exact Hinc | fold K in Hlen |- *; lia]).
    rewrite !Rltb_false by lra. reflexivity. }
  destruct Hlo as [Hlo | Heq].
  - (* strictly inside: the search selects segment k *)
    exists (fwd_gradient q k x). split; [now apply fwd_gradient_pos|].
    rewrite (valid_cell q Hv x k).
    + rewrite Hout. reflexivity.
    + symmetry. now apply segment_index_inner.
    + exact Hk.
  - subst x. destruct k as [|k'].
    + (* the first knot: the index -1 is clamped to 0 *)
      exists (fwd_gradient q 0 (nth 0 (r_kx q) 0)).
      split; [now apply fwd_gradient_pos|].
      rewrite (valid_cell q Hv _ 0%nat).
      * rewrite Hout. reflexivity.
      * symmetry. apply segment_index_first; auto. lra.
      * exact Hk.
    + (* an inner knot: the search selects the segment to its left *)
      assert (Hk' : (k' < K)%nat) by lia.
      exists (fwd_gradient q k' (nth (S k') (r_kx q) 0)).
      split; [now apply fwd_gradient_pos|].
      rewrite (valid_cell q Hv _ k').
      * rewrite Hout, fwd_y_right_knot, fwd_y_left_knot by assumption.
        reflexivity.
      * symmetry. apply segment_index_inner; auto; try lra.
        apply Hinc. fold K in Hlen. lia.
      * exact Hk'.
Qed.


(** The interpolant of a segment is strictly increasing on the segment. *)
Lemma fwd_y_increasing (k : nat) (x1 x2 : R) :
  (k < K)%nat ->
  nth k (r_kx q) 0 <= x1 -> x1 < x2 -> x2 <= nth (S k) (r_kx q) 0 ->
  fwd_y q k x1 < fwd_y q k x2.
Proof.
  intros Hk Hlo Hlt Hhi. unfold fwd_y.
  pose proof (valid_width_pos q Hv k Hk) as Hw.
  pose proof (valid_height_pos q Hv k Hk) as Hh.
  rewrite !(fwd_alpha_inner q Hv k) by (try (fold K; lia); lra).
  assert (Hi : 0 < / nth k (r_widths q) 0) by (now apply Rinv_0_lt_compat).
  assert (Hb : rq_beta (seg_slope q k) (nth k (r_derivs q) 0)
                       (nth (S k) (r_derivs q) 0)
                       ((x1 - nth k (r_kx q) 0) / nth k (r_widths q) 0)
             < rq_beta (seg_slope q k) (nth k (r_derivs q) 0)
                       (nth (S k) (r_derivs q) 0)
                       ((x2 - nth k (r_kx q) 0) / nth k (r_widths q) 0)).
  { apply rq_beta_increasing.
    - now apply valid_slope_pos.
    - apply valid_deriv_pos; [exact Hv | fold K; lia].
    - apply valid_deriv_pos; [exact Hv | fold K; lia].
    - unfold Rdiv. apply Rmult_le_pos; lra.
    - unfold Rdiv. apply Rmult_lt_compat_r; lra.
    - rewrite (vs_extent_x q Hv k Hk) in Hhi.
      apply (Rmult_le_reg_r (nth k (r_widths q) 0)); [exact Hw|].
      unfold Rdiv. rewrite Rmult_assoc, Rinv_l by lra. lra. }
  apply Rplus_lt_compat_l. apply Rmult_lt_compat_l; assumption.
Qed.

End ValidSegment.

Lemma fgt_Fin_pos (g : R) : 0 < g -> fgt (Fin g) (Fin 0) = true.
Proof. intros H. unfold fgt; simpl. now apply Rltb_true. Qed.





(** ** The assertion on the gradient *)

Lemma lifted_shape {A B C : Type} (f : A * B -> result C)
      (x : list (list A)) (p : list (list B)) (cells : list (list C)) :
  (xp <- tzip x p ;; mapM (mapM f) xp) = Ok cells ->
  length cells = length x /\
  forall i xr, nth_error x i = Some xr ->
    exists cr, nth_error cells i = Some cr /\ length cr = length xr.
Proof.
  intros H. destruct (lifted_row f _ _ _ H) as [Hlen Hrow].
  split; [exact Hlen|]. intros i xr Hx.
  apply bind_ok in H as (xp & Hz & _).
  apply tzip_row in Hz as (_ & Hxp & Hshape).
  destruct (nth_error p i) as [pr|] eqn:Hp.
  - destruct (Hrow i xr pr Hx Hp) as (cr & Hcr & Hm).
    destruct (Hshape i xr pr Hx Hp) as [Hl _].
    exists cr. split; [exact Hcr|].
    apply mapM_length in Hm. rewrite Hm, length_combine. lia.
  - apply nth_error_None in Hp.
    assert (i < length x)%nat by (apply nth_error_Some; congruence). lia.
Qed.

Lemma all_gradients_positive_false (cells : list (list fwd_cell)) i j c :
  tget cells i j = Some c -> fgt (fc_gradient c) (Fin 0) = false ->
  all_gradients_positive cells = false.
Proof.
  intros Hc Hg. destruct (all_gradients_positive cells) eqn:Hall; [|reflexivity].
  rewrite all_gradients_positive_spec in Hall.
  rewrite (Hall i j c Hc) in Hg. discriminate.
Qed.

Lemma rq_spline_cells_single (v : scalar) (p : spline) (c : fwd_cell) :
  rq_spline_cell v p = Ok c -> rq_spline_cells [[v]] [[p]] = Ok [[c]].
Proof.
  intros H. unfold rq_spline_cells.
  cbn [tzip zip bind mapM fst snd]. rewrite H. reflexivity.
Qed.

(** The assertion of line 294.  Once the body has computed the gradient
    at every entry (no gather was out of range), a gradient that fails
    to be strictly positive at some entry (a NaN gradient fails too)
    keeps the call from returning, whatever the shape of the input. *)
Lemma rq_spline_transform_asserts_gradient
      (x : Tensor) (params : list (list spline)) (cells : list (list fwd_cell)) :
  rq_spline_cells x params = Ok cells ->
  (exists i j c, tget cells i j = Some c /\ fgt (fc_gradient c) (Fin 0) = false) ->
  forall y ldj, rq_spline_transform x params <> Ok (y, ldj).
Proof.
  intros Hcells (i & j & c & Hc & Hg) y ldj H.
  unfold rq_spline_transform in H. unbind H.
  rewrite Hcells in Ht3. inversion Ht3; subst t2.
  rewrite (all_gradients_positive_false cells i j c Hc Hg) in H. discriminate.
Qed.

(** On a one-entry input the assertion decides: the call raises the
    assertion error if the gradient is not strictly positive, and
    returns otherwise. *)
Lemma rq_spline_transform_asserts_gradient_one_entry
      (v : scalar) (p : spline) (c : fwd_cell) :
  rq_spline_cell v p = Ok c ->
  (fgt (fc_gradient c) (Fin 0) = false ->
   rq_spline_transform [[v]] [[p]] = Raise AssertionError)
  /\ (fgt (fc_gradient c) (Fin 0) = true ->
      exists w l, rq_spline_transform [[v]] [[p]] = Ok ([[w]], [l])).
Proof.
  intros H. rewrite (rq_spline_transform_single _ _ _ H).
  split; intros ->; [reflexivity | eauto].
Qed.

(** The shape of the mask for an input with more than one entry is not
    the shape of the input. *)
Lemma mask_fits_one_entry (B D : nat) (mask : nat * nat * nat) :
  outside_interval_mask_shape B D = Ok mask -> mask_fits mask B D = true ->
  B = 1%nat /\ D = 1%nat.
Proof.
  unfold outside_interval_mask_shape, broadcast_dim, mask_fits. intros H Hfit.
  destruct (1 =? D)%nat eqn:E1; cbn [bind] in H.
  - apply Nat.eqb_eq in E1. subst D.
    destruct (1 =? B)%nat eqn:E2; cbn [bind] in H.
    + apply Nat.eqb_eq in E2. auto.
    + rewrite Nat.eqb_refl in H. cbn [bind] in H. inversion H; subst mask.
      rewrite !andb_true_iff, !Nat.eqb_eq in Hfit. apply Nat.eqb_neq in E2. lia.
  - rewrite Nat.eqb_refl in H. cbn [bind] in H.
    destruct (D =? B)%nat; cbn [bind] in H;
      [|destruct (D =? 1)%nat; cbn [bind] in H;
        [|destruct (B =? 1)%nat; cbn [bind] in H; [|discriminate]]];
      inversion H; subst mask;
      rewrite !andb_true_iff, !Nat.eqb_eq in Hfit; apply Nat.eqb_neq in E1; lia.
Qed.

(** The forward pass returns on one-entry inputs only. *)
Lemma rq_spline_transform_returns_one_entry
      (x : Tensor) (params : list (list spline)) (y : Tensor) (ldj : list scalar) :
  rq_spline_transform x params = Ok (y, ldj) ->
  exists v p, x = [[v]] /\ params = [[p]].
Proof.
  intros H. unfold rq_spline_transform in H. unbind H.
  destruct (all_gradients_positive t2); [|discriminate].
  destruct (mask_fits t1 n n0) eqn:Hfit; [|discriminate].
  destruct (mask_fits_one_entry _ _ _ Ht2 Hfit) as [-> ->].
  unfold shape in Ht.
  destruct x as [|r x]; [discriminate|].
  destruct (forallb _ x); [|discriminate].
  inversion Ht as [[Hl Hr]].
  destruct x; [|discriminate]. destruct r as [|v [|? ?]]; try discriminate.
  unfold rq_spline_cells in Ht3. apply bind_ok in Ht3 as (xp & Hz & _).
  apply tzip_row in Hz as (_ & Hlen & Hrow).
  destruct params as [|pr [|? ?]]; try discriminate.
  destruct (Hrow 0%nat [v] pr eq_refl eq_refl) as [Hlr _].
  destruct pr as [|p [|? ?]]; try discriminate. eauto.
Qed.

(** C6.  The claim is that the call raises when some element of the
    gradient is not strictly positive, and returns [(y, ldj)] when every
    element is.  The assertion works as claimed
    ([rq_spline_transform_asserts_gradient]), but a strictly positive
    gradient does not make the call return.  For a batch of two elements
    of two coordinates, with one segment of width [1] and height [2] at
    every coordinate and every input at [1/2], the gradient is [8/3]
    everywhere and the assertion passes; the mask of lines 250-253 has
    the shape [(2, 2, 2)], where [y] has the shape [(2, 2, 1)], and the
    masked assignment of line 296 raises. *)
Theorem rq_spline_transform_raises_on_positive_gradient :
  let x := [[Fin (1 / 2); Fin (1 / 2)]; [Fin (1 / 2); Fin (1 / 2)]] in
  let p := finite_spline tall_spline in
  let params := [[p; p]; [p; p]] in
  (exists cells,
      rq_spline_cells x params = Ok cells
      /\ all_gradients_positive cells = true
      /\ forall i j c, tget cells i j = Some c -> fc_gradient c = Fin (8 / 3))
  /\ 0 < 8 / 3
  /\ outside_interval_mask_shape 2 2 = Ok (2, 2, 2)%nat
  /\ rq_spline_transform x params = Raise IndexError.
Proof.
  intros x p params.
  set (c := {| fc_x := Fin (1 / 2); fc_outside := false;
               fc_y := Fin 1; fc_gradient := Fin (8 / 3) |}).
  assert (Hcells : rq_spline_cells x params = Ok [[c; c]; [c; c]]).
  { unfold rq_spline_cells, x, params, p.
    cbn [tzip zip bind mapM fst snd]. rewrite tall_cell_half. reflexivity. }
  assert (Hpos : all_gradients_positive [[c; c]; [c; c]] = true).
  { unfold all_gradients_positive. cbn [forallb fc_gradient c].
    rewrite fgt_Fin_pos by lra. reflexivity. }
  assert (Hk : first_and_last knots_xcoords [p; p; p; p]
               = Ok [(Fin 0, Fin 1); (Fin 0, Fin 1); (Fin 0, Fin 1); (Fin 0, Fin 1)])
    by reflexivity.
  split; [|split; [lra | split; [reflexivity|]]].
  - exists [[c; c]; [c; c]]. split; [exact Hcells | split; [exact Hpos|]].
    intros i j c' Hc'. unfold tget in Hc'.
    destruct i as [|[|[|i]]]; cbn in Hc'; try discriminate;
      destruct j as [|[|[|j]]]; cbn in Hc'; try discriminate;
      inversion Hc'; reflexivity.
  - unfold rq_spline_transform. fold x params.
    replace (shape x) with (Ok (2, 2)%nat : result (nat * nat)) by reflexivity.
    cbn [bind]. unfold params at 1 2. cbn [concat app].
    replace (tensors [p; p; p; p]) with (Ok tt : result unit)
      by (unfold tensors, same_lengths, p; reflexivity).
    cbn [bind]. rewrite Hk. cbn [bind].
    replace (outside_interval_mask_shape 2 2) with (Ok (2, 2, 2)%nat : result _)
      by reflexivity.
    cbn [bind]. rewrite Hcells. cbn [bind]. rewrite Hpos. reflexivity.
Qed.

(** The assertion does fire: with a negative derivative at the first
    knot, the gradient at that knot is negative. *)
Example rq_spline_transform_assertion_fires :
  rq_spline_transform [[Fin 0]] [[finite_spline falling_spline]]
  = Raise AssertionError.
Proof.
  assert (Ha : fwd_alpha falling_spline 0 0 = 0).
  { unfold fwd_alpha; simpl. apply clamp01_low. lra. }
  assert (Hk : 0%nat = segment_index (r_kx falling_spline)
                         (length (r_widths falling_spline)) 0).
  { unfold segment_index, count_below; simpl. rdecide. reflexivity. }
  assert (Hc : rq_spline_cell (Fin 0) (finite_spline falling_spline) =
               Ok {| fc_x := Fin 0; fc_outside := false;
                     fc_y := Fin 0; fc_gradient := Fin (-1) |}).
  { rewrite (rq_spline_cell_closed falling_spline 0 0
               eq_refl eq_refl eq_refl eq_refl Hk).
    - f_equal. f_equal.
      + simpl. rdecide. reflexivity.
      + f_equal. unfold fwd_y. rewrite Ha. unfold_closed. field.
      + f_equal. unfold fwd_gradient. rewrite Ha. unfold_closed. field.
    - simpl. lia.
    - simpl. lra.
    - rewrite Ha. unfold_closed. lra.
    - apply increasing_pair. lra. }
  rewrite (rq_spline_transform_single _ _ _ Hc).
  cbn [fc_gradient fgt flt]. rdecide. reflexivity.
Qed.

(** ** Batch independence *)

Lemma mapM_nth_eq {A B : Type} (g : A -> result B) (l l' : list A) (r r' : list B)
      (i : nat) :
  mapM g l = Ok r -> mapM g l' = Ok r' ->
  nth_error l i = nth_error l' i -> nth_error r i = nth_error r' i.
Proof.
  intros H H' Hi.
  destruct (nth_error l i) as [a|] eqn:Ha.
  - symmetry in Hi.
    destruct (mapM_nth_error _ _ _ H i a Ha) as (b & Hb & Hr).
    destruct (mapM_nth_error _ _ _ H' i a Hi) as (b' & Hb' & Hr').
    congruence.
  - symmetry in Hi.
    apply mapM_length in H, H'. apply nth_error_None in Ha, Hi.
    assert (nth_error r i = None) by (apply nth_error_None; lia).
    assert (nth_error r' i = None) by (apply nth_error_None; lia).
    congruence.
Qed.

Lemma tzip_row_eq {A B : Type} (x x' : list (list A)) (p : list (list B)) r r'
      (i : nat) :
  tzip x p = Ok r -> tzip x' p = Ok r' ->
  nth_error x i = nth_error x' i -> nth_error r i = nth_error r' i.
Proof.
  intros H H' Hi.
  apply tzip_row in H as (Hlen & Hxp & Hrow).
  apply tzip_row in H' as (Hlen' & Hxp' & Hrow').
  destruct (nth_error x i) as [xr|] eqn:Hx.
  - symmetry in Hi.
    destruct (nth_error p i) as [pr|] eqn:Hp.
    + destruct (Hrow i xr pr Hx Hp) as [_ ->].
      destruct (Hrow' i xr pr Hi Hp) as [_ ->]. reflexivity.
    + apply nth_error_None in Hp.
      assert (i < length x)%nat by (apply nth_error_Some; congruence). lia.
  - symmetry in Hi. apply nth_error_None in Hx, Hi.
    assert (nth_error r i = None) by (apply nth_error_None; lia).
    assert (nth_error r' i = None) by (apply nth_error_None; lia).
    congruence.
Qed.

(** *** Broadcasting *)

Lemma bzip_same_length {A B : Type} (l : list A) (m : list B) :
  length l = length m -> bzip l m = Ok (combine l m).
Proof. intros H. unfold bzip. rewrite H, Nat.eqb_refl. reflexivity. Qed.

(** Against a one-entry axis, every entry is paired with that entry. *)
Lemma bzip_singleton_r {A B : Type} (l : list A) (b : B) :
  bzip l [b] = Ok (map (fun a => (a, b)) l).
Proof.
  unfold bzip. destruct l as [|a [|a' l]]; reflexivity.
Qed.

(** Entry [i] of a broadcast pairing holds entry [i] of the left operand
    next to the entry that broadcasting takes from the right operand. *)
Lemma bzip_nth_error {A B : Type} (l : list A) (m : list B) r (i : nat) (a : A) :
  bzip l m = Ok r -> nth_error l i = Some a ->
  nth_error r i
  = option_map (pair a) (nth_error m (if (length m =? 1)%nat then 0%nat else i)).
Proof.
  unfold bzip. intros H Hi.
  destruct (length l =? length m)%nat eqn:E.
  - apply Nat.eqb_eq in E. inversion H; subst r.
    rewrite nth_error_combine, Hi.
    destruct (length m =? 1)%nat eqn:E1.
    + apply Nat.eqb_eq in E1.
      assert (i = 0%nat).
      { assert (i < length l)%nat by (apply nth_error_Some; congruence). lia. }
      subst i. destruct (nth_error m 0); reflexivity.
    + destruct (nth_error m i); reflexivity.
  - destruct l as [|a0 [|a1 l]].
    + destruct i; discriminate.
    + inversion H; subst r. destruct i as [|i]; [|destruct i; discriminate].
      inversion Hi; subst a0. change (length [a]) with 1%nat in E.
      rewrite Nat.eqb_sym in E. rewrite E. apply nth_error_map.
    + destruct m as [|b [|b' m]]; try discriminate.
      assert (Hr : r = map (fun u => (u, b)) (a0 :: a1 :: l)) by congruence.
      rewrite Hr, nth_error_map, Hi. reflexivity.
Qed.

Lemma bzip_nil {A B : Type} (m : list B) (r : list (A * B)) :
  bzip [] m = Ok r -> r = [].
Proof.
  unfold bzip. destruct m as [|b [|b' m]]; simpl; intros H; inversion H; reflexivity.
Qed.

Lemma broadcast2_nil {A B C : Type} (f : A -> B -> C) (p : list (list B)) y :
  broadcast2 f [] p = Ok y -> y = [].
Proof.
  unfold broadcast2. intros H. apply bind_ok in H as (rows & Hr & H).
  apply bzip_nil in Hr. subst rows. inversion H. reflexivity.
Qed.

(** Row [i] of the result of a broadcast operation depends on the left
    operand through its row [i] only. *)
Lemma broadcast2_row_eq {A B C : Type} (f : A -> B -> C)
      (x x' : list (list A)) (p : list (list B)) y y' (i : nat) (xr : list A) :
  broadcast2 f x p = Ok y -> broadcast2 f x' p = Ok y' ->
  nth_error x i = Some xr -> nth_error x' i = Some xr ->
  nth_error y i = nth_error y' i.
Proof.
  unfold broadcast2. intros H H' Hi Hi'.
  apply bind_ok in H as (rows & Hr & H). apply bind_ok in H' as (rows' & Hr' & H').
  apply (mapM_nth_eq _ _ _ _ _ i H H').
  rewrite (bzip_nth_error _ _ _ _ _ Hr Hi), (bzip_nth_error _ _ _ _ _ Hr' Hi').
  reflexivity.
Qed.

(** If the result has no row [i] where the left operand has one, the
    result has no row at all: the left operand had one row and the right
    operand none. *)
Lemma broadcast2_row_none {A B C : Type} (f : A -> B -> C)
      (x : list (list A)) (p : list (list B)) y (i : nat) (xr : list A) :
  broadcast2 f x p = Ok y -> nth_error x i = Some xr -> nth_error y i = None ->
  y = [].
Proof.
  unfold broadcast2. intros H Hi Hn.
  apply bind_ok in H as (rows & Hr & H).
  pose proof (mapM_length _ _ _ H) as Hl.
  assert (Hrows : nth_error rows i = None).
  { apply nth_error_None. apply nth_error_None in Hn. lia. }
  unfold bzip in Hr. destruct (length x =? length p)%nat eqn:E.
  - apply Nat.eqb_eq in E. inversion Hr; subst rows.
    apply nth_error_None in Hrows. rewrite length_combine in Hrows.
    assert (i < length x)%nat by (apply nth_error_Some; congruence). lia.
  - destruct x as [|a0 [|a1 x]].
    + destruct i; discriminate.
    + inversion Hr; subst rows. destruct i as [|i]; [|destruct i; discriminate].
      destruct p as [|b p]; [|discriminate]. inversion H. reflexivity.
    + destruct p as [|b [|b' p]]; try discriminate.
      assert (Hr0 : rows = map (fun u => (u, b)) (a0 :: a1 :: x)) by congruence.
      rewrite Hr0, nth_error_map, Hi in Hrows. discriminate.
Qed.

(** On operands of one shape the broadcast operation is the entrywise
    one. *)
Lemma tbinop_strict (f : scalar -> scalar -> scalar) (x p : Tensor) :
  same_shape x p ->
  tbinop f x p
  = (xp <- tzip x p ;; Ok (map (map (fun ab => f (fst ab) (snd ab))) xp)).
Proof.
  intros H. rewrite (tzip_same_shape x p H). cbn [bind].
  unfold tbinop, broadcast2.
  rewrite bzip_same_length by (eapply Forall2_length; eauto). cbn [bind].
  rewrite map_map. apply mapM_pure. intros [xr pr] Hin. cbn [fst snd].
  rewrite bzip_same_length; [reflexivity|].
  unfold same_shape in H.
  induction H as [|a b x p Hab H IH]; simpl in Hin; [contradiction|].
  destruct Hin as [Heq | Hin]; [inversion Heq; subst; assumption | auto].
Qed.

Lemma tbinop_row_eq (f : scalar -> scalar -> scalar) (x x' p y y' : Tensor)
      (i : nat) (row : list scalar) :
  tbinop f x p = Ok y -> tbinop f x' p = Ok y' ->
  nth_error x i = Some row -> nth_error x' i = Some row ->
  nth_error y i = nth_error y' i.
Proof. apply broadcast2_row_eq. Qed.

(** Two operations in a row. *)
Lemma tbinop_row_eq2 (f g : scalar -> scalar -> scalar)
      (x x' p p' xs xs' y y' : Tensor) (i : nat) (row : list scalar) :
  tbinop f x p = Ok xs -> tbinop f x' p = Ok xs' ->
  tbinop g xs p' = Ok y -> tbinop g xs' p' = Ok y' ->
  nth_error x i = Some row -> nth_error x' i = Some row ->
  nth_error y i = nth_error y' i.
Proof.
  intros H H' G G' Hi Hi'.
  pose proof (tbinop_row_eq f x x' p xs xs' i row H H' Hi Hi') as Hxs.
  destruct (nth_error xs i) as [r|] eqn:E.
  - symmetry in Hxs. exact (tbinop_row_eq g xs xs' p' y y' i r G G' E Hxs).
  - symmetry in Hxs.
    apply (broadcast2_row_none _ _ _ _ _ _ H Hi) in E.
    apply (broadcast2_row_none _ _ _ _ _ _ H' Hi') in Hxs. subst xs xs'.
    apply broadcast2_nil in G, G'. now subst.
Qed.

Lemma nth_error_zeros (n i : nat) :
  nth_error (zeros n) i = if (i <? n)%nat then Some (Fin 0) else None.
Proof.
  unfold zeros. revert i. induction n as [|n IH]; intros [|i]; simpl; auto.
Qed.

Lemma zeros_row_eq {A : Type} (y y' : list A) (i : nat) :
  nth_error y i = nth_error y' i ->
  nth_error (zeros (length y)) i = nth_error (zeros (length y')) i.
Proof.
  intros H. rewrite !nth_error_zeros.
  destruct (i <? length y)%nat eqn:E, (i <? length y')%nat eqn:E';
    try reflexivity.
  - apply Nat.ltb_lt in E. apply Nat.ltb_ge in E'.
    apply nth_error_None in E'. apply nth_error_Some in E. congruence.
  - apply Nat.ltb_lt in E'. apply Nat.ltb_ge in E.
    apply nth_error_None in E. apply nth_error_Some in E'. congruence.
Qed.

Lemma tmap_row_eq (g : scalar -> scalar) (x x' : Tensor) (i : nat) :
  nth_error x i = nth_error x' i ->
  nth_error (tmap g x) i = nth_error (tmap g x') i.
Proof. intros H. unfold tmap. now rewrite !nth_error_map, H. Qed.

Lemma sum_except_batch_row_eq (t t' : Tensor) (i : nat) :
  nth_error t i = nth_error t' i ->
  nth_error (sum_except_batch t) i = nth_error (sum_except_batch t') i.
Proof. intros H. unfold sum_except_batch. now rewrite !nth_error_map, H. Qed.

Lemma lifted_row_eq {A B C : Type} (f : A * B -> result C)
      (x x' : list (list A)) (p : list (list B)) cells cells' (i : nat) :
  (xp <- tzip x p ;; mapM (mapM f) xp) = Ok cells ->
  (xp <- tzip x' p ;; mapM (mapM f) xp) = Ok cells' ->
  nth_error x i = nth_error x' i -> nth_error cells i = nth_error cells' i.
Proof.
  intros H H' Hi.
  apply bind_ok in H as (r & Hr & H). apply bind_ok in H' as (r' & Hr' & H').
  apply (mapM_nth_eq _ _ _ _ _ i H H').
  apply (tzip_row_eq x x' p r r' i Hr Hr' Hi).
Qed.

(** *** The spline on an input of two axes *)

Lemma mapM_map {A B C : Type} (h : A -> B) (g : B -> result C) (l : list A) :
  mapM g (map h l) = mapM (fun a => g (h a)) l.
Proof. induction l as [|a l IH]; simpl; [reflexivity | now rewrite IH]. Qed.

(** Row [i] of the mask compares row [i] of the input with the first and
    last knots of all batch elements, laid along the row. *)
Lemma outside_interval_mask_rows (x : Tensor) (knots : list (scalar * scalar)) :
  Rank2.outside_interval_mask x knots
  = mapM (fun xr => cols <- bzip xr knots ;;
                    Ok (map (fun vk => flt (fst vk) (fst (snd vk))
                                       || fgt (fst vk) (snd (snd vk))) cols)) x.
Proof.
  unfold Rank2.outside_interval_mask, broadcast2.
  rewrite bzip_singleton_r. cbn [bind]. rewrite mapM_map. reflexivity.
Qed.

Lemma outside_interval_mask_row_eq (x x' : Tensor) knots m m' (i : nat) :
  Rank2.outside_interval_mask x knots = Ok m ->
  Rank2.outside_interval_mask x' knots = Ok m' ->
  nth_error x i = nth_error x' i -> nth_error m i = nth_error m' i.
Proof.
  rewrite !outside_interval_mask_rows. intros H H' Hi.
  exact (mapM_nth_eq _ _ _ _ _ i H H' Hi).
Qed.

Lemma zip_row_eq {A B : Type} (x x' : list A) (p : list B) r r' (i : nat) :
  zip x p = Ok r -> zip x' p = Ok r' ->
  nth_error x i = nth_error x' i -> nth_error r i = nth_error r' i.
Proof.
  intros H H' Hi. apply zip_ok in H as [-> _]. apply zip_ok in H' as [-> _].
  now rewrite !nth_error_combine, Hi.
Qed.

Lemma masked_assign_row_eq (y0 x m y0' x' m' : _) (y y' : Tensor) (i : nat) :
  masked_assign y0 x m = Ok y -> masked_assign y0' x' m' = Ok y' ->
  nth_error y0 i = nth_error y0' i -> nth_error x i = nth_error x' i ->
  nth_error m i = nth_error m' i ->
  nth_error y i = nth_error y' i.
Proof.
  revert y0 x m y0' x' m' y y'.
  induction i as [|i IH]; intros y0 x m y0' x' m' y y' H H' Hy Hx Hm.
  - destruct y0 as [|a y0], x as [|b x], m as [|c m]; try discriminate;
      destruct y0' as [|a' y0'], x' as [|b' x'], m' as [|c' m']; try discriminate;
      cbn [masked_assign] in H, H'.
    + inversion H; inversion H'; reflexivity.
    + simpl in Hy, Hx, Hm. inversion Hy; inversion Hx; inversion Hm; subst.
      apply bind_ok in H as (r & Hr & H). apply bind_ok in H as (rs & _ & H).
      apply bind_ok in H' as (r' & Hr' & H'). apply bind_ok in H' as (rs' & _ & H').
      inversion H; inversion H'; subst. simpl. congruence.
  - destruct y0 as [|a y0], x as [|b x], m as [|c m]; try discriminate;
      destruct y0' as [|a' y0'], x' as [|b' x'], m' as [|c' m']; try discriminate;
      cbn [masked_assign] in H, H'.
    + inversion H; inversion H'; reflexivity.
    + inversion H; subst y. simpl in Hy.
      apply bind_ok in H' as (r' & _ & H'). apply bind_ok in H' as (rs' & Hrs' & H').
      inversion H'; subst y'. simpl.
      symmetry. apply nth_error_None.
      assert (Hl : forall a b c d, masked_assign a b c = Ok d -> length d = length a).
      { clear. induction a as [|u a IHa]; intros [|v b] [|w c] d H;
          try discriminate; cbn [masked_assign] in H.
        - inversion H; reflexivity.
        - apply bind_ok in H as (r & _ & H). apply bind_ok in H as (rs & Hrs & H).
          inversion H; subst. simpl. f_equal. eauto. }
      rewrite (Hl _ _ _ _ Hrs'). symmetry in Hy. now apply nth_error_None in Hy.
    + inversion H'; subst y'. simpl in Hy.
      apply bind_ok in H as (r & _ & H). apply bind_ok in H as (rs & Hrs & H).
      inversion H; subst y. simpl.
      apply nth_error_None.
      assert (Hl : forall a b c d, masked_assign a b c = Ok d -> length d = length a).
      { clear. induction a as [|u a IHa]; intros [|v b] [|w c] d H;
          try discriminate; cbn [masked_assign] in H.
        - inversion H; reflexivity.
        - apply bind_ok in H as (r & _ & H). apply bind_ok in H as (rs & Hrs & H).
          inversion H; subst. simpl. f_equal. eauto. }
      rewrite (Hl _ _ _ _ Hrs). now apply nth_error_None in Hy.
    + simpl in Hy, Hx, Hm.
      apply bind_ok in H as (r & _ & H). apply bind_ok in H as (rs & Hrs & H).
      apply bind_ok in H' as (r' & _ & H'). apply bind_ok in H' as (rs' & Hrs' & H').
      inversion H; inversion H'; subst. simpl. eauto.
Qed.

Lemma rank2_cells_row_eq {C : Type} (g : scalar -> spline -> result C)
      (x x' : Tensor) (params : list spline) cells cells' (i : nat) :
  (rows <- zip x params ;;
   mapM (fun rp => mapM (fun v => g v (snd rp)) (fst rp)) rows) = Ok cells ->
  (rows <- zip x' params ;;
   mapM (fun rp => mapM (fun v => g v (snd rp)) (fst rp)) rows) = Ok cells' ->
  nth_error x i = nth_error x' i -> nth_error cells i = nth_error cells' i.
Proof.
  intros H H' Hi.
  apply bind_ok in H as (r & Hr & H). apply bind_ok in H' as (r' & Hr' & H').
  apply (mapM_nth_eq _ _ _ _ _ i H H').
  exact (zip_row_eq _ _ _ _ _ i Hr Hr' Hi).
Qed.

Section BatchIndependence.

Ltac unpack H :=
  repeat match type of H with
    | bind _ _ = Ok _ =>
        let a := fresh "t" in let Ha := fresh "Ht" in
        apply bind_ok in H as (a & Ha & H)
    end;
  inversion H; subst; clear H.

Lemma tanh_batch_independent :
  batch_independent (fun x (_ : unit) => Ok (Transforms.tanh x)).
Proof.
  intros x x' [] y ldj y' ldj' i row Hi Hi' H H'. inversion H; inversion H'; subst.
  assert (Heq : nth_error x i = nth_error x' i) by congruence.
  split.
  - now apply tmap_row_eq.
  - apply sum_except_batch_row_eq. unfold t_muls, t_log, t_cosh.
    now repeat apply tmap_row_eq.
Qed.

Lemma inv_tanh_batch_independent :
  batch_independent (fun y (_ : unit) => Ok (inv_tanh y)).
Proof.
  intros x x' [] y ldj y' ldj' i row Hi Hi' H H'. inversion H; inversion H'; subst.
  assert (Heq : nth_error x i = nth_error x' i) by congruence.
  split.
  - now apply tmap_row_eq.
  - apply sum_except_batch_row_eq. unfold t_neg, t_log1p, t_pow2.
    now repeat apply tmap_row_eq.
Qed.

Lemma translation_batch_independent : batch_independent translation.
Proof.
  intros x x' p y ldj y' ldj' i row Hi Hi' H H'. unfold translation in *.
  unpack H. unpack H'.
  assert (Hy : nth_error y i = nth_error y' i) by (eapply tbinop_row_eq; eauto).
  split; [exact Hy | now apply zeros_row_eq].
Qed.

Lemma inv_translation_batch_independent : batch_independent inv_translation.
Proof.
  intros x x' p y ldj y' ldj' i row Hi Hi' H H'. unfold inv_translation in *.
  unpack H. unpack H'. split.
  - eapply tbinop_row_eq; eauto.
  - apply zeros_row_eq. congruence.
Qed.

Lemma rescaling_batch_independent : batch_independent rescaling.
Proof.
  intros x x' p y ldj y' ldj' i row Hi Hi' H H'. unfold rescaling in *.
  unpack H. unpack H'. split; [eapply tbinop_row_eq; eauto | reflexivity].
Qed.

Lemma inv_rescaling_batch_independent : batch_independent inv_rescaling.
Proof.
  intros x x' p y ldj y' ldj' i row Hi Hi' H H'. unfold inv_rescaling in *.
  unpack H. unpack H'. split; [eapply tbinop_row_eq; eauto | reflexivity].
Qed.

Lemma soft_rescaling_batch_independent : batch_independent soft_rescaling.
Proof.
  intros x x' p y ldj y' ldj' i row Hi Hi' H H'. unfold soft_rescaling in *.
  unpack H. unpack H'. split; [eapply tbinop_row_eq; eauto | reflexivity].
Qed.

Lemma inv_soft_rescaling_batch_independent : batch_independent inv_soft_rescaling.
Proof.
  intros x x' p y ldj y' ldj' i row Hi Hi' H H'. unfold inv_soft_rescaling in *.
  unpack H. unpack H'. split; [eapply tbinop_row_eq; eauto | reflexivity].
Qed.

Lemma affine_transform_batch_independent :
  batch_independent (fun x p => affine_transform x (fst p) (snd p)).
Proof.
  intros x x' p y ldj y' ldj' i row Hi Hi' H H'. unfold affine_transform in *.
  unpack H. unpack H'. split; [|reflexivity]. unfold t_mul, t_add in *.
  eapply (tbinop_row_eq2 fmul fadd x x' _ _ _ _ y y' i row); eassumption.
Qed.

Lemma inv_affine_transform_batch_independent :
  batch_independent (fun y p => inv_affine_transform y (fst p) (snd p)).
Proof.
  intros x x' p y ldj y' ldj' i row Hi Hi' H H'. unfold inv_affine_transform in *.
  unpack H. unpack H'. split; [|reflexivity]. unfold t_mul, t_sub in *.
  eapply (tbinop_row_eq2 fsub fmul x x' _ _ _ _ y y' i row); eassumption.
Qed.

(** With parameters for every coordinate the forward pass returns on
    one-entry inputs only: two calls that return and share a batch
    element are the same call. *)
Lemma rq_spline_transform_batch_independent : batch_independent rq_spline_transform.
Proof.
  intros x x' p y ldj y' ldj' i row Hi Hi' H H'.
  destruct (rq_spline_transform_returns_one_entry _ _ _ _ H) as (v & q & -> & _).
  destruct (rq_spline_transform_returns_one_entry _ _ _ _ H') as (v' & q' & -> & _).
  destruct i as [|i]; [|destruct i; discriminate].
  simpl in Hi, Hi'. assert (v = v') by congruence. subst v'.
  rewrite H in H'. inversion H'. auto.
Qed.

Lemma inv_rq_spline_transform_batch_independent :
  batch_independent inv_rq_spline_transform.
Proof.
  intros x x' p y ldj y' ldj' i row Hi Hi' H H'.
  assert (Heq : nth_error x i = nth_error x' i) by congruence.
  unfold inv_rq_spline_transform in *.
  apply bind_ok in H as ([B D] & _ & H). apply bind_ok in H as (u & _ & H).
  apply bind_ok in H as (knots & _ & H). apply bind_ok in H as (mask & _ & H).
  apply bind_ok in H as (cells & Hc & H).
  apply bind_ok in H' as ([B' D'] & _ & H'). apply bind_ok in H' as (u' & _ & H').
  apply bind_ok in H' as (knots' & _ & H'). apply bind_ok in H' as (mask' & _ & H').
  apply bind_ok in H' as (cells' & Hc' & H').
  inversion H; inversion H'; subst.
  pose proof (lifted_row_eq _ x x' p _ _ i Hc Hc' Heq) as Hrow.
  unfold sum_except_batch. rewrite !nth_error_map, Hrow. auto.
Qed.

Lemma rank2_rq_spline_transform_batch_independent :
  batch_independent Rank2.rq_spline_transform.
Proof.
  intros x x' p y ldj y' ldj' i row Hi Hi' H H'.
  assert (Heq : nth_error x i = nth_error x' i) by congruence.
  unfold Rank2.rq_spline_transform in *.
  apply bind_ok in H as (sh & _ & H). apply bind_ok in H as (u & _ & H).
  apply bind_ok in H as (knots & Hk & H). apply bind_ok in H as (mask & Hm & H).
  apply bind_ok in H as (cells & Hc & H).
  apply bind_ok in H' as (sh' & _ & H'). apply bind_ok in H' as (u' & _ & H').
  apply bind_ok in H' as (knots' & Hk' & H'). apply bind_ok in H' as (mask' & Hm' & H').
  apply bind_ok in H' as (cells' & Hc' & H').
  assert (knots' = knots) by congruence. subst knots'.
  destruct (all_gradients_positive cells); [|discriminate].
  destruct (all_gradients_positive cells'); [|discriminate].
  apply bind_ok in H as (w & Hw & H). apply bind_ok in H' as (w' & Hw' & H').
  inversion H; inversion H'; subst.
  pose proof (rank2_cells_row_eq _ x x' p _ _ i Hc Hc' Heq) as Hrow.
  pose proof (outside_interval_mask_row_eq x x' _ _ _ i Hm Hm' Heq) as Hmask.
  split.
  - apply (masked_assign_row_eq _ _ _ _ _ _ _ _ i Hw Hw'); auto.
    now rewrite !nth_error_map, Hrow.
  - unfold sum_except_batch. now rewrite !nth_error_map, Hrow.
Qed.

Lemma rank2_inv_rq_spline_transform_batch_independent :
  batch_independent Rank2.inv_rq_spline_transform.
Proof.
  intros x x' p y ldj y' ldj' i row Hi Hi' H H'.
  assert (Heq : nth_error x i = nth_error x' i) by congruence.
  unfold Rank2.inv_rq_spline_transform in *.
  apply bind_ok in H as (sh & _ & H). apply bind_ok in H as (u & _ & H).
  apply bind_ok in H as (knots & _ & H). apply bind_ok in H as (mask & _ & H).
  apply bind_ok in H as (cells & Hc & H).
  apply bind_ok in H' as (sh' & _ & H'). apply bind_ok in H' as (u' & _ & H').
  apply bind_ok in H' as (knots' & _ & H'). apply bind_ok in H' as (mask' & _ & H').
  apply bind_ok in H' as (cells' & Hc' & H').
  inversion H; inversion H'; subst.
  pose proof (rank2_cells_row_eq _ x x' p _ _ i Hc Hc' Heq) as Hrow.
  unfold sum_except_batch. rewrite !nth_error_map, Hrow. auto.
Qed.

End BatchIndependence.

(** C9.  For every transformation, the output row and the
    log-det-Jacobian entry of batch element [i] are the same in any two
    calls that return, take the same parameters, and hold the same batch
    element [i] in their inputs.  The operands of the elementwise
    transformations broadcast; the spline is taken with parameters for
    every coordinate, and with one spline for each batch element. *)
Theorem batch_elements_are_independent :
  batch_independent (fun x (_ : unit) => Ok (Transforms.tanh x))
  /\ batch_independent (fun y (_ : unit) => Ok (inv_tanh y))
  /\ batch_independent translation
  /\ batch_independent inv_translation
  /\ batch_independent rescaling
  /\ batch_independent inv_rescaling
  /\ batch_independent soft_rescaling
  /\ batch_independent inv_soft_rescaling
  /\ batch_independent (fun x p => affine_transform x (fst p) (snd p))
  /\ batch_independent (fun y p => inv_affine_transform y (fst p) (snd p))
  /\ batch_independent rq_spline_transform
  /\ batch_independent inv_rq_spline_transform
  /\ batch_independent Rank2.rq_spline_transform
  /\ batch_independent Rank2.inv_rq_spline_transform.
Proof.
  repeat apply conj.
  - apply tanh_batch_independent.
  - apply inv_tanh_batch_independent.
  - apply translation_batch_independent.
  - apply inv_translation_batch_independent.
  - apply rescaling_batch_independent.
  - apply inv_rescaling_batch_independent.
  - apply soft_rescaling_batch_independent.
  - apply inv_soft_rescaling_batch_independent.
  - apply affine_transform_batch_independent.
  - apply inv_affine_transform_batch_independent.
  - apply rq_spline_transform_batch_independent.
  - apply inv_rq_spline_transform_batch_independent.
  - apply rank2_rq_spline_transform_batch_independent.
  - apply rank2_inv_rq_spline_transform_batch_independent.
Qed.

(** ** The hyperbolic tangent and its inverse *)

Section Hyperbolic.

Variable r : R.

Let e := exp r.

Lemma exp_r_pos : 0 < e.
Proof. apply exp_pos. Qed.

Lemma cosh_as_exp : cosh r = (e * e + 1) / (2 * e).
Proof.
  pose proof exp_r_pos. unfold cosh. rewrite exp_Ropp. fold e. field. lra.
Qed.

Lemma tanh_as_exp : Rtrigo_def.tanh r = (e * e - 1) / (e * e + 1).
Proof.
  pose proof exp_r_pos as He. unfold Rtrigo_def.tanh, sinh, cosh.
  rewrite exp_Ropp. fold e. field. split; nra.
Qed.

Lemma cosh_pos : 0 < cosh r.
Proof.
  pose proof exp_r_pos as He. rewrite cosh_as_exp.
  apply Rdiv_lt_0_compat; nra.
Qed.

Lemma tanh_bounds : -1 < Rtrigo_def.tanh r < 1.
Proof.
  pose proof exp_r_pos as He. rewrite tanh_as_exp.
  assert (Hd : 1 < e * e + 1) by nra.
  assert (Hi : 0 < / (e * e + 1)) by (apply Rinv_0_lt_compat; lra).
  assert (Hi1 : / (e * e + 1) < / 1) by (apply Rinv_lt_contravar; lra).
  rewrite Rinv_1 in Hi1.
  replace ((e * e - 1) / (e * e + 1)) with (1 - 2 * / (e * e + 1))
    by (field; lra).
  lra.
Qed.

Lemma atanh_tanh : atanh (Rtrigo_def.tanh r) = r.
Proof.
  pose proof exp_r_pos as He. unfold atanh. rewrite tanh_as_exp.
  replace ((1 + (e * e - 1) / (e * e + 1)) / (1 - (e * e - 1) / (e * e + 1)))
    with (e * e) by (field; split; nra).
  rewrite ln_mult by assumption. unfold e. rewrite ln_exp. field.
Qed.

Lemma one_minus_tanh_sqr :
  1 + - (Rtrigo_def.tanh r * Rtrigo_def.tanh r) = / (cosh r * cosh r).
Proof.
  pose proof exp_r_pos as He. rewrite tanh_as_exp, cosh_as_exp.
  field. split; nra.
Qed.

(** The two log-det-Jacobian terms of [tanh] and [inv_tanh] are opposite. *)
Lemma tanh_ldj_terms :
  ln (cosh r) * -2 = - - ln (1 + - (Rtrigo_def.tanh r * Rtrigo_def.tanh r)).
Proof.
  pose proof cosh_pos as Hc. rewrite one_minus_tanh_sqr.
  rewrite ln_Rinv by (apply Rmult_lt_0_compat; assumption).
  rewrite ln_mult by assumption. ring.
Qed.

End Hyperbolic.

Lemma softplus_pos (s : R) : 0 < ln (1 + exp s).
Proof.
  pose proof (exp_pos s). rewrite <- ln_1. apply ln_increasing; lra.
Qed.

(** ** Tensors of finite values *)

Lemma tmap_tfin (f : scalar -> scalar) (g : R -> R) (x : list (list R)) :
  (forall a, f (Fin a) = Fin (g a)) -> tmap f (tfin x) = tfin (map (map g) x).
Proof.
  intros H. unfold tmap, tfin. rewrite !map_map. apply map_ext. intros row.
  rewrite !map_map. apply map_ext. exact H.
Qed.

Lemma same_shape_tfin (x p : list (list R)) :
  same_shape x p -> same_shape (tfin x) (tfin p).
Proof.
  unfold same_shape, tfin. induction 1; simpl; constructor; auto.
  now rewrite !length_map.
Qed.

Lemma same_shape_map_r {A B C : Type} (u : B -> C) (x : list (list A))
      (p : list (list B)) :
  same_shape x p -> same_shape x (map (map u) p).
Proof.
  unfold same_shape. induction 1; simpl; constructor; auto.
  now rewrite length_map.
Qed.

Lemma same_shape_rmap2 {B : Type} (g : R -> R -> R) (x p : list (list R))
      (p' : list (list B)) :
  same_shape x p -> same_shape x p' -> same_shape (rmap2 g x p) p'.
Proof.
  unfold same_shape, rmap2. intros H. revert p'.
  induction H as [|a b x p Hab H IH]; intros p' H'; inversion H'; subst; simpl;
    constructor; auto.
  rewrite length_map, length_combine. simpl. lia.
Qed.

Lemma row_binop_fin (f : scalar -> scalar -> scalar) (g : R -> R -> R)
      (P : R -> Prop) (a b : list R) :
  (forall u v, P v -> f (Fin u) (Fin v) = Fin (g u v)) ->
  Forall P b ->
  map (fun ab => f (fst ab) (snd ab)) (combine (map Fin a) (map Fin b))
  = map Fin (map (fun ab => g (fst ab) (snd ab)) (combine a b)).
Proof.
  intros Hfg. revert b. induction a as [|u a IH]; intros [|v b] Hb; simpl; auto.
  inversion Hb; subst. rewrite Hfg by assumption. f_equal. now apply IH.
Qed.

Lemma tbinop_fin (f : scalar -> scalar -> scalar) (g : R -> R -> R)
      (P : R -> Prop) (x p : list (list R)) :
  (forall u v, P v -> f (Fin u) (Fin v) = Fin (g u v)) ->
  same_shape x p -> Forall (Forall P) p ->
  tbinop f (tfin x) (tfin p) = Ok (tfin (rmap2 g x p)).
Proof.
  intros Hfg Hs HP. rewrite (tbinop_strict _ _ _ (same_shape_tfin _ _ Hs)).
  rewrite (tzip_same_shape _ _ (same_shape_tfin _ _ Hs)). cbn [bind].
  apply f_equal. unfold tfin, rmap2. rewrite !map_map.
  induction Hs as [|a b x p Hab Hs IH]; simpl; auto.
  inversion HP; subst.
  f_equal; [now apply (row_binop_fin f g P) | now apply IH].
Qed.

Lemma Forall_Forall_map {A B : Type} (P : B -> Prop) (u : A -> B)
      (p : list (list A)) :
  (forall a, P (u a)) -> Forall (Forall P) (map (map u) p).
Proof.
  intros H. apply Forall_forall. intros row Hrow.
  apply in_map_iff in Hrow as (row' & <- & _).
  apply Forall_forall. intros b Hb. apply in_map_iff in Hb as (a & <- & _).
  apply H.
Qed.

Lemma Forall_Forall_True {A : Type} (p : list (list A)) :
  Forall (Forall (fun _ => True)) p.
Proof.
  apply Forall_forall. intros row _. apply Forall_forall. auto.
Qed.

(** Applying [g1] with parameters [u p] and then [g2] with parameters
    [v p] gives back the input, when [g2] undoes [g1] pointwise. *)
Lemma rmap2_roundtrip (g1 g2 : R -> R -> R) (u v : R -> R) (x p : list (list R)) :
  (forall a b, g2 (g1 a (u b)) (v b) = a) ->
  same_shape x p ->
  rmap2 g2 (rmap2 g1 x (map (map u) p)) (map (map v) p) = x.
Proof.
  intros Hg Hs. unfold rmap2.
  induction Hs as [|a b x p Hab Hs IH]; simpl; auto.
  f_equal; [|exact IH]. clear IH Hs.
  revert b Hab. induction a as [|c a IHa]; intros [|d b] Hab; simpl in *;
    try discriminate; auto.
  f_equal; [apply Hg | apply IHa; lia].
Qed.

Lemma rsum_opp (l : list R) :
  fold_right Rplus 0 (map Ropp l) = - fold_right Rplus 0 l.
Proof. induction l as [|a l IH]; simpl; [lra | rewrite IH; lra]. Qed.

Lemma sum_except_batch_tfin (t : list (list R)) :
  sum_except_batch (tfin t) = map Fin (map (fold_right Rplus 0) t).
Proof.
  unfold sum_except_batch, tfin. rewrite !map_map. apply map_ext.
  intros row. apply fsum_Fin.
Qed.

(** Entrywise opposite terms sum to opposite log-det-Jacobians. *)
Lemma sum_except_batch_opposite (g h : R -> R) (t : list (list R)) :
  (forall a, g a = - h a) ->
  sum_except_batch (tfin (map (map g) t))
  = map fneg (sum_except_batch (tfin (map (map h) t))).
Proof.
  intros Hgh. rewrite !sum_except_batch_tfin, !map_map. apply map_ext.
  intros row. cbn [fneg]. f_equal. rewrite <- rsum_opp, map_map.
  f_equal. apply map_ext. exact Hgh.
Qed.

Lemma map_map_id {A : Type} (t : list (list A)) : map (map (fun a => a)) t = t.
Proof. rewrite <- (map_id t) at 2. apply map_ext. intros row. apply map_id. Qed.

(** ** The elementwise transformations and their inverses *)

Lemma tmap_tmap (f g : scalar -> scalar) (t : Tensor) :
  tmap f (tmap g t) = tmap (fun a => f (g a)) t.
Proof.
  unfold tmap. rewrite map_map. apply map_ext. intros row. apply map_map.
Qed.

Lemma tanh_inverse_pair (x : list (list R)) :
  fst (inv_tanh (fst (Transforms.tanh (tfin x)))) = tfin x
  /\ snd (Transforms.tanh (tfin x))
     = map fneg (snd (inv_tanh (fst (Transforms.tanh (tfin x))))).
Proof.
  unfold Transforms.tanh, inv_tanh. cbn [fst snd].
  unfold t_tanh, t_atanh, t_muls, t_log, t_cosh, t_neg, t_log1p, t_pow2.
  rewrite !tmap_tmap. split.
  - rewrite (tmap_tfin (fun a => fatanh (ftanh a)) (fun a => a)).
    + now rewrite map_map_id.
    + intros a. cbn [ftanh fatanh]. pose proof (tanh_bounds a) as [Hlo Hhi].
      rewrite !Rltb_true by assumption. cbn [andb]. now rewrite atanh_tanh.
  - rewrite (tmap_tfin (fun a => fmul (flog (fcosh a)) (Fin (-2)))
                       (fun a => ln (cosh a) * -2)).
    + rewrite (tmap_tfin
                 (fun a => fneg (flog1p (fneg (fpow2 (ftanh a)))))
                 (fun a => - ln (1 + - (Rtrigo_def.tanh a * Rtrigo_def.tanh a)))).
      * apply sum_except_batch_opposite. intros a. apply tanh_ldj_terms.
      * intros a. unfold flog1p. cbn [ftanh fpow2 fmul fneg fadd].
        rewrite flog_Fin; [reflexivity|].
        rewrite one_minus_tanh_sqr. apply Rinv_0_lt_compat.
        pose proof (cosh_pos a). now apply Rmult_lt_0_compat.
    + intros a. cbn [fcosh]. rewrite flog_Fin by apply cosh_pos. reflexivity.
Qed.

Lemma zeros_opposite (n : nat) : zeros n = map fneg (zeros n).
Proof.
  unfold zeros. induction n as [|n IH]; simpl; [reflexivity|].
  rewrite <- IH. f_equal. f_equal. lra.
Qed.

Lemma translation_inverse_pair : inverse_pair translation inv_translation.
Proof.
  intros x p Hs. unfold translation, t_add.
  rewrite (tbinop_fin fadd Rplus (fun _ => True));
    [|reflexivity | exact Hs | apply Forall_Forall_True].
  cbn [bind]. do 3 eexists. split; [reflexivity|].
  unfold inv_translation, t_sub.
  rewrite (tbinop_fin fsub Rminus (fun _ => True));
    [|reflexivity | now apply same_shape_rmap2 | apply Forall_Forall_True].
  cbn [bind].
  assert (E : rmap2 Rminus (rmap2 Rplus x p) p = x).
  { rewrite <- (map_map_id p) at 1 2.
    apply (rmap2_roundtrip Rplus Rminus (fun a => a) (fun a => a)); [|exact Hs].
    intros a b. ring. }
  rewrite E. split; [reflexivity|]. apply zeros_opposite.
Qed.

Lemma rescaling_inverse_pair : inverse_pair rescaling inv_rescaling.
Proof.
  intros x p Hs. unfold rescaling, t_mul, t_exp, t_neg.
  rewrite tmap_tmap.
  rewrite (tmap_tfin (fun a => fexp (fneg a)) (fun s => exp (- s)))
    by reflexivity.
  rewrite (tmap_tfin fneg Ropp) by reflexivity.
  rewrite (tbinop_fin fmul Rmult (fun _ => True));
    [|reflexivity | now apply same_shape_map_r | apply Forall_Forall_True].
  cbn [bind]. do 3 eexists. split; [reflexivity|].
  unfold inv_rescaling, t_mul, t_exp.
  rewrite (tmap_tfin fexp exp) by reflexivity.
  rewrite (tbinop_fin fmul Rmult (fun _ => True));
    [|reflexivity
     | apply same_shape_rmap2; now apply same_shape_map_r
     | apply Forall_Forall_True].
  cbn [bind].
  assert (E : rmap2 Rmult (rmap2 Rmult x (map (map (fun s => exp (- s))) p))
                    (map (map exp) p) = x).
  { apply (rmap2_roundtrip Rmult Rmult); [|exact Hs].
    intros a b. rewrite exp_Ropp. field. apply Rgt_not_eq, exp_pos. }
  rewrite E. split; [reflexivity|].
  rewrite <- (map_map_id p) at 2.
  apply sum_except_batch_opposite. reflexivity.
Qed.

Lemma soft_scale_Fin (s : R) : flog1p (fexp (Fin s)) = Fin (ln (1 + exp s)).
Proof.
  unfold flog1p. cbn [fexp fadd]. rewrite flog_Fin; [reflexivity|].
  pose proof (exp_pos s). lra.
Qed.

Lemma soft_rescaling_inverse_pair : inverse_pair soft_rescaling inv_soft_rescaling.
Proof.
  intros x p Hs. unfold soft_rescaling, t_mul, t_log, t_log1p, t_exp.
  rewrite !tmap_tmap.
  rewrite (tmap_tfin (fun a => flog1p (fexp a)) (fun s => ln (1 + exp s)))
    by exact soft_scale_Fin.
  rewrite (tmap_tfin (fun a => flog (flog1p (fexp a)))
                     (fun s => ln (ln (1 + exp s))))
    by (intros s; rewrite soft_scale_Fin; apply flog_Fin, softplus_pos).
  rewrite (tbinop_fin fmul Rmult (fun _ => True));
    [|reflexivity | now apply same_shape_map_r | apply Forall_Forall_True].
  cbn [bind]. do 3 eexists. split; [reflexivity|].
  unfold inv_soft_rescaling, t_div, t_neg, t_log, t_log1p, t_exp.
  rewrite !tmap_tmap.
  rewrite (tmap_tfin (fun a => flog1p (fexp a)) (fun s => ln (1 + exp s)))
    by exact soft_scale_Fin.
  rewrite (tmap_tfin (fun a => fneg (flog (flog1p (fexp a))))
                     (fun s => - ln (ln (1 + exp s))))
    by (intros s; rewrite soft_scale_Fin;
        rewrite flog_Fin by apply softplus_pos; reflexivity).
  rewrite (tbinop_fin fdiv Rdiv (fun b => b <> 0));
    [|intros u v Hv; now apply fdiv_Fin
     | apply same_shape_rmap2; now apply same_shape_map_r
     | apply Forall_Forall_map; intros s; apply Rgt_not_eq, softplus_pos].
  cbn [bind].
  assert (E : rmap2 Rdiv
                (rmap2 Rmult x (map (map (fun s => ln (1 + exp s))) p))
                (map (map (fun s => ln (1 + exp s))) p) = x).
  { apply (rmap2_roundtrip Rmult Rdiv); [|exact Hs].
    intros a b. field. apply Rgt_not_eq, softplus_pos. }
  rewrite E. split; [reflexivity|].
  apply sum_except_batch_opposite. intros s. ring.
Qed.

Lemma affine_inverse_pair (x s t : list (list R)) :
  same_shape x s -> same_shape x t ->
  exists y ldj ldj',
    affine_transform (tfin x) (tfin s) (tfin t) = Ok (y, ldj) /\
    inv_affine_transform y (tfin s) (tfin t) = Ok (tfin x, ldj') /\
    ldj = map fneg ldj'.
Proof.
  intros Hs Ht.
  unfold affine_transform, t_mul, t_add, t_exp, t_neg.
  rewrite tmap_tmap.
  rewrite (tmap_tfin (fun a => fexp (fneg a)) (fun s => exp (- s)))
    by reflexivity.
  rewrite (tmap_tfin fneg Ropp) by reflexivity.
  assert (Hxs : same_shape (rmap2 Rmult x (map (map (fun s => exp (- s))) s)) t)
    by (apply same_shape_rmap2; [now apply same_shape_map_r | exact Ht]).
  rewrite (tbinop_fin fmul Rmult (fun _ => True));
    [|reflexivity | now apply same_shape_map_r | apply Forall_Forall_True].
  cbn [bind].
  rewrite (tbinop_fin fadd Rplus (fun _ => True));
    [|reflexivity | exact Hxs | apply Forall_Forall_True].
  cbn [bind]. do 3 eexists. split; [reflexivity|].
  unfold inv_affine_transform, t_mul, t_sub, t_exp.
  rewrite (tmap_tfin fexp exp) by reflexivity.
  rewrite (tbinop_fin fsub Rminus (fun _ => True));
    [|reflexivity | now apply same_shape_rmap2 | apply Forall_Forall_True].
  cbn [bind].
  assert (E1 : rmap2 Rminus
                 (rmap2 Rplus (rmap2 Rmult x (map (map (fun s => exp (- s))) s)) t) t
               = rmap2 Rmult x (map (map (fun s => exp (- s))) s)).
  { rewrite <- (map_map_id t) at 1 2.
    apply (rmap2_roundtrip Rplus Rminus (fun a => a) (fun a => a)); [|exact Hxs].
    intros a b. ring. }
  rewrite E1.
  rewrite (tbinop_fin fmul Rmult (fun _ => True));
    [|reflexivity
     | apply same_shape_map_r, same_shape_rmap2;
       [now apply same_shape_map_r | exact Hs]
     | apply Forall_Forall_True].
  cbn [bind].
  assert (E2 : rmap2 Rmult (rmap2 Rmult x (map (map (fun s => exp (- s))) s))
                     (map (map exp) s) = x).
  { apply (rmap2_roundtrip Rmult Rmult); [|exact Hs].
    intros a b. rewrite exp_Ropp. field. apply Rgt_not_eq, exp_pos. }
  rewrite E2. split; [reflexivity|].
  rewrite <- (map_map_id s) at 2.
  apply sum_except_batch_opposite. reflexivity.
Qed.

(** C8.  In exact arithmetic on finite inputs and parameters of the
    shape of the input, each inverse undoes its forward transformation
    and reports the opposite log-det-Jacobian: [tanh] and [inv_tanh],
    [translation], [rescaling], [soft_rescaling] and [affine_transform]
    with their inverses. *)
Theorem elementwise_inverse_laws :
  (forall x : list (list R),
      fst (inv_tanh (fst (Transforms.tanh (tfin x)))) = tfin x
      /\ snd (Transforms.tanh (tfin x))
         = map fneg (snd (inv_tanh (fst (Transforms.tanh (tfin x))))))
  /\ inverse_pair translation inv_translation
  /\ inverse_pair rescaling inv_rescaling
  /\ inverse_pair soft_rescaling inv_soft_rescaling
  /\ (forall x s t : list (list R),
        same_shape x s -> same_shape x t ->
        exists y ldj ldj',
          affine_transform (tfin x) (tfin s) (tfin t) = Ok (y, ldj) /\
          inv_affine_transform y (tfin s) (tfin t) = Ok (tfin x, ldj') /\
          ldj = map fneg ldj').
Proof.
  repeat apply conj.
  - exact tanh_inverse_pair.
  - exact translation_inverse_pair.
  - exact rescaling_inverse_pair.
  - exact soft_rescaling_inverse_pair.
  - exact affine_inverse_pair.
Qed.

(** ** The discriminant of the inverse *)

(** The fractional coordinate [beta] is clamped to [[0, 1]], where the
    discriminant is a sum of two squares-like terms: in exact arithmetic
    it is never negative, whatever the parameters. *)
Lemma inv_discriminant_nonneg (s d0 d1 beta : R) :
  0 <= beta <= 1 -> 0 <= inv_discriminant s d0 d1 beta.
Proof.
  intros [H0 H1]. unfold inv_discriminant.
  set (b := inv_b s d0 d1 beta).
  replace (b * b - 4 * (s - b) * (- s * beta))
    with ((b - 2 * s * beta) * (b - 2 * s * beta)
          + 4 * (s * s) * (beta * (1 - beta))) by ring.
  assert (0 <= (b - 2 * s * beta) * (b - 2 * s * beta))
    by (apply Rle_0_sqr).
  assert (0 <= s * s) by (apply Rle_0_sqr).
  assert (0 <= beta * (1 - beta)) by nra.
  assert (0 <= 4 * (s * s) * (beta * (1 - beta))).
  { apply Rmult_le_pos; [lra | assumption]. }
  lra.
Qed.

Lemma inv_beta_range (q : rspline) (k : nat) (y : R) : 0 <= inv_beta q k y <= 1.
Proof. apply clamp01_range. Qed.

(** On finite parameters whose gathers are in range, the discriminant
    that the inverse computes is a finite number that is not negative:
    the square root never sees a negative argument. *)
Lemma inv_rq_spline_cell_discriminant (q : rspline) (y : R) (k : nat) :
  length (r_heights q) = length (r_widths q) ->
  length (r_derivs q) = S (length (r_widths q)) ->
  length (r_kx q) = S (length (r_widths q)) ->
  length (r_ky q) = S (length (r_widths q)) ->
  clamp_idx (searchsorted (map Fin (r_ky q)) (Fin y) - 1) 0
            (Z.of_nat (length (r_widths q))) = Z.of_nat k ->
  (k < length (r_widths q))%nat ->
  nth k (r_widths q) 0 <> 0 ->
  exists c d,
    inv_rq_spline_cell (Fin y) (finite_spline q) = Ok c /\
    ic_discriminant c = Fin d /\ 0 <= d.
Proof.
  intros Hh Hd Hkx Hky Hk Hlt Hw.
  pose proof (inv_rq_spline_cell_prefix_at q y k Hh Hd Hkx Hky Hk Hlt Hw) as H.
  cbv zeta in H. rewrite H. do 2 eexists. split; [reflexivity|].
  split; [reflexivity|]. apply inv_discriminant_nonneg, inv_beta_range.
Qed.

(** Every coordinate of the parameters is used by a body that
    succeeded on the whole input. *)
Lemma lifted_all {A B C : Type} (f : A * B -> result C)
      (x : list (list A)) (p : list (list B)) (cells : list (list C)) :
  (xp <- tzip x p ;; mapM (mapM f) xp) = Ok cells ->
  Forall (fun b => exists a c, f (a, b) = Ok c) (concat p).
Proof.
  intros H. apply Forall_forall. intros b Hb.
  apply in_concat in Hb as (pr & Hpr & Hb).
  apply In_nth_error in Hpr as [i Hi]. apply In_nth_error in Hb as [j Hj].
  assert (Hz : exists xp, tzip x p = Ok xp).
  { apply bind_ok in H as (xp & Hz & _). eauto. }
  destruct Hz as [xp Hz]. apply tzip_row in Hz as (_ & Hlen & Hrow).
  destruct (nth_error x i) as [xr|] eqn:Ex.
  - destruct (Hrow i xr pr Ex Hi) as [Hl _].
    destruct (nth_error xr j) as [a|] eqn:Ea.
    + destruct (lifted_entry f x p cells i j a b H) as (c & Hc & _).
      * unfold tget. now rewrite Ex.
      * unfold tget. now rewrite Hi.
      * eauto.
    + apply nth_error_None in Ea.
      assert (j < length pr)%nat by (apply nth_error_Some; congruence). lia.
  - apply nth_error_None in Ex.
    assert (i < length p)%nat by (apply nth_error_Some; congruence). lia.
Qed.

Lemma first_and_last_total (knots : spline -> list scalar) (params : list spline) :
  Forall (fun p => exists k0 k1, select_first (knots p) = Ok k0
                                 /\ select_last (knots p) = Ok k1) params ->
  exists ks, first_and_last knots params = Ok ks.
Proof.
  intros H. unfold first_and_last. apply mapM_total.
  eapply Forall_impl; [|exact H].
  intros p (k0 & k1 & H0 & H1). rewrite H0, H1. cbn [bind]. eauto.
Qed.

(** The inverse has no assertion: once the lists are tensors and the
    comparison of lines 312-315 broadcasts, it raises only where the
    pairing of the input with the parameters or a gather does. *)
Lemma inv_rq_spline_transform_returns (y : Tensor) (params : list (list spline))
      (cells : list (list inv_cell)) (B D : nat) (mask : nat * nat * nat) :
  shape y = Ok (B, D) -> tensors (concat params) = Ok tt ->
  outside_interval_mask_shape B D = Ok mask ->
  inv_rq_spline_cells y params = Ok cells ->
  exists x ldj, inv_rq_spline_transform y params = Ok (x, ldj).
Proof.
  intros Hs Ht Hm H. unfold inv_rq_spline_transform.
  rewrite Hs. cbn [bind]. rewrite Ht. cbn [bind].
  destruct (first_and_last_total knots_ycoords (concat params)) as [ks Hk].
  { eapply Forall_impl; [|exact (lifted_all _ _ _ _ H)].
    intros p (v & c & Hc). cbn [fst snd] in Hc.
    destruct (proj2 (first_and_last_single_ok v p) c Hc) as [ks Hk].
    unfold first_and_last in Hk. cbn [mapM] in Hk.
    destruct (select_first (knots_ycoords p)); [|discriminate].
    destruct (select_last (knots_ycoords p)); [|discriminate]. eauto. }
  rewrite Hk. cbn [bind]. rewrite Hm. cbn [bind]. rewrite H. cbn [bind]. eauto.
Qed.

(** * Further properties of the spline *)

(** ** The root that the inverse selects *)

Section InverseRoot.

Variables s d0 d1 : R.
Hypothesis Hs : 0 < s.
Hypothesis Hd0 : 0 < d0.
Hypothesis Hd1 : 0 < d1.

Lemma inv_root_denominator_pos (beta : R) :
  0 <= beta <= 1 ->
  0 < inv_b s d0 d1 beta + sqrt (inv_discriminant s d0 d1 beta).
Proof.
  intros Hb. pose proof (inv_discriminant_nonneg s d0 d1 beta Hb) as HD.
  pose proof (sqrt_pos (inv_discriminant s d0 d1 beta)) as Hr.
  pose proof (sqrt_sqrt _ HD) as Hrr.
  set (r := sqrt (inv_discriminant s d0 d1 beta)) in *.
  destruct (Rlt_le_dec 0 (inv_b s d0 d1 beta)) as [Hpos | Hneg]; [lra|].
  unfold inv_discriminant in Hrr.
  set (b := inv_b s d0 d1 beta) in *.
  assert (Hbeta : 0 < beta).
  { destruct Hb as [[Hlt | Heq] _]; [exact Hlt|].
    subst beta. unfold b, inv_b in Hneg. lra. }
  assert (Hgain : 0 < 4 * (s - b) * (s * beta)).
  { apply Rmult_lt_0_compat; [lra|]. now apply Rmult_lt_0_compat. }
  destruct (Rlt_le_dec (- b) r) as [Hlt | Hle]; [lra|].
  assert (r * r <= (- b) * (- b)) by (apply Rmult_le_compat; lra).
  lra.
Qed.

Lemma inv_alpha_range (beta : R) :
  0 <= beta <= 1 -> 0 <= inv_alpha s d0 d1 beta <= 1.
Proof.
  intros Hb. pose proof (inv_root_denominator_pos beta Hb) as Hm.
  pose proof (inv_discriminant_nonneg s d0 d1 beta Hb) as HD.
  pose proof (sqrt_pos (inv_discriminant s d0 d1 beta)) as Hr.
  pose proof (sqrt_sqrt _ HD) as Hrr.
  unfold inv_alpha.
  set (r := sqrt (inv_discriminant s d0 d1 beta)) in *.
  set (b := inv_b s d0 d1 beta) in *.
  assert (Hi : 0 < / (b + r)) by (now apply Rinv_0_lt_compat).
  assert (Hn : 0 <= s * beta) by (apply Rmult_le_pos; lra).
  split.
  - replace (-2 * (- s * beta) * / (b + r)) with (2 * (s * beta) * / (b + r)) by ring.
    apply Rmult_le_pos; lra.
  - apply (Rmult_le_reg_r (b + r)); [exact Hm|].
    replace (-2 * (- s * beta) * / (b + r) * (b + r)) with (2 * (s * beta))
      by (field; lra).
    rewrite Rmult_1_l.
    destruct (Rle_lt_dec (2 * (s * beta) - b) 0) as [Hle | Hgt]; [lra|].
    assert (Hsq : (2 * (s * beta) - b) * (2 * (s * beta) - b) <= r * r).
    { rewrite Hrr. unfold inv_discriminant. fold b.
      assert (0 <= 4 * (s * s) * (beta * (1 - beta))).
      { apply Rmult_le_pos; [nra|]. apply Rmult_le_pos; lra. }
      lra. }
    destruct (Rle_lt_dec (2 * (s * beta) - b) r) as [Hok | Hbad]; [lra|].
    assert (r * r < (2 * (s * beta) - b) * (2 * (s * beta) - b)).
    { destruct Hr as [Hr | Hr].
      - apply Rmult_le_0_lt_compat; lra.
      - rewrite <- Hr. rewrite Rmult_0_l. apply Rmult_lt_0_compat; lra. }
    lra.
Qed.

(** The value returned by the quadratic formula is a root of
    [interpolant(alpha) = beta]. *)
Lemma rq_beta_inv_alpha (beta : R) :
  0 <= beta <= 1 -> rq_beta s d0 d1 (inv_alpha s d0 d1 beta) = beta.
Proof.
  intros Hb. pose proof (inv_root_denominator_pos beta Hb) as Hm.
  pose proof (inv_discriminant_nonneg s d0 d1 beta Hb) as HD.
  pose proof (sqrt_sqrt _ HD) as Hrr.
  pose proof (inv_alpha_range beta Hb) as Ha.
  pose proof (rq_denominator_pos s d0 d1 Hs Hd0 Hd1 _ Ha) as HDn.
  assert (Hq : (s - inv_b s d0 d1 beta)
               * (inv_alpha s d0 d1 beta * inv_alpha s d0 d1 beta)
               + inv_b s d0 d1 beta * inv_alpha s d0 d1 beta + - s * beta = 0).
  { unfold inv_alpha.
    set (r := sqrt (inv_discriminant s d0 d1 beta)) in *.
    set (b := inv_b s d0 d1 beta) in *.
    apply (Rmult_eq_reg_r ((b + r) * (b + r))); [|nra].
    rewrite Rmult_0_l.
    replace (((s - b) * (-2 * (- s * beta) * / (b + r) * (-2 * (- s * beta) * / (b + r)))
              + b * (-2 * (- s * beta) * / (b + r)) + - s * beta)
             * ((b + r) * (b + r)))
      with (s * beta * (b * b - 4 * (s - b) * (- s * beta) - r * r))
      by (field; lra).
    rewrite Hrr. unfold inv_discriminant. fold b. ring. }
  unfold rq_beta.
  set (a := inv_alpha s d0 d1 beta) in *.
  replace (s * (a * a) + d0 * a * (1 - a))
    with (beta * rq_denominator s d0 d1 a).
  - field. lra.
  - unfold inv_b in Hq. unfold rq_denominator. lra.
Qed.

Lemma rq_beta_range (a : R) : 0 <= a <= 1 -> 0 <= rq_beta s d0 d1 a <= 1.
Proof.
  intros [Ha0 Ha1].
  pose proof (rq_beta_0 s d0 d1) as H0.
  pose proof (rq_beta_1 s d0 d1 Hs) as H1.
  split.
  - destruct Ha0 as [Hlt | <-]; [|lra].
    pose proof (rq_beta_increasing s d0 d1 Hs Hd0 Hd1 0 a). lra.
  - destruct Ha1 as [Hlt | ->]; [|lra].
    pose proof (rq_beta_increasing s d0 d1 Hs Hd0 Hd1 a 1). lra.
Qed.

Lemma rq_beta_injective (a b : R) :
  0 <= a <= 1 -> 0 <= b <= 1 ->
  rq_beta s d0 d1 a = rq_beta s d0 d1 b -> a = b.
Proof.
  intros Ha Hb Heq.
  destruct (Rtotal_order a b) as [Hlt | [Heq' | Hgt]]; [|exact Heq'|].
  - pose proof (rq_beta_increasing s d0 d1 Hs Hd0 Hd1 a b). lra.
  - pose proof (rq_beta_increasing s d0 d1 Hs Hd0 Hd1 b a). lra.
Qed.

(** The quadratic formula undoes the interpolant. *)
Lemma inv_alpha_rq_beta (a : R) :
  0 <= a <= 1 -> inv_alpha s d0 d1 (rq_beta s d0 d1 a) = a.
Proof.
  intros Ha. pose proof (rq_beta_range a Ha) as Hb.
  apply rq_beta_injective; [now apply inv_alpha_range | exact Ha |].
  now apply rq_beta_inv_alpha.
Qed.

End InverseRoot.

(** ** The inverse pass on a valid parametrisation *)

Section ValidInverse.

Variable q : rspline.
Hypothesis Hv : valid_spline q.

Let K := length (r_widths q).

Lemma inv_alpha_valid_range (k : nat) (y : R) :
  (k < K)%nat ->
  0 <= inv_alpha (seg_slope q k) (nth k (r_derivs q) 0) (nth (S k) (r_derivs q) 0)
                 (inv_beta q k y) <= 1.
Proof.
  intros Hk.
  assert (Hs : 0 < seg_slope q k) by (now apply valid_slope_pos).
  assert (Hd0 : 0 < nth k (r_derivs q) 0)
    by (apply valid_deriv_pos; [exact Hv | fold K; lia]).
  assert (Hd1 : 0 < nth (S k) (r_derivs q) 0)
    by (apply valid_deriv_pos; [exact Hv | fold K; lia]).
  apply inv_alpha_range; auto. apply inv_beta_range.
Qed.

Lemma inv_gradient_pos (k : nat) (y : R) : (k < K)%nat -> 0 < inv_gradient q k y.
Proof.
  intros Hk. unfold inv_gradient. apply rq_gradient_pos.
  - now apply valid_slope_pos.
  - apply valid_deriv_pos; [exact Hv | fold K; lia].
  - apply valid_deriv_pos; [exact Hv | fold K; lia].
  - now apply inv_alpha_valid_range.
Qed.

(** Whenever the selected segment is in range, the body of the inverse
    pass evaluates to its closed form: the square root and the two
    reciprocals are taken of positive numbers. *)
Lemma valid_inv_cell (y : R) (k : nat) :
  k = segment_index (r_ky q) K y -> (k < K)%nat ->
  inv_rq_spline_cell (Fin y) (finite_spline q) =
  Ok {| ic_outside := Rltb y (nth 0 (r_ky q) 0) || Rltb (nth K (r_ky q) 0) y;
        ic_discriminant :=
          Fin (inv_discriminant (seg_slope q k) (nth k (r_derivs q) 0)
                                (nth (S k) (r_derivs q) 0) (inv_beta q k y));
        ic_x := Fin (inv_x q k y);
        ic_gradient_fwd := Fin (inv_gradient q k y) |}.
Proof.
  intros Hk Hlt.
  pose proof (inv_rq_spline_cell_closed q y k (vs_len_h q Hv) (vs_len_d q Hv)
                (vs_len_kx q Hv) (vs_len_ky q Hv) Hk Hlt) as H.
  cbv zeta in H. unfold inv_x, inv_gradient.
  assert (Hs : 0 < seg_slope q k) by (now apply valid_slope_pos).
  assert (Hd0 : 0 < nth k (r_derivs q) 0)
    by (apply valid_deriv_pos; [exact Hv | fold K; lia]).
  assert (Hd1 : 0 < nth (S k) (r_derivs q) 0)
    by (apply valid_deriv_pos; [exact Hv | fold K; lia]).
  apply H.
  - pose proof (valid_width_pos q Hv k Hlt). lra.
  - apply inv_discriminant_nonneg, inv_beta_range.
  - apply Rgt_not_eq, Rlt_gt, inv_root_denominator_pos; auto.
    apply inv_beta_range.
  - apply Rgt_not_eq, Rlt_gt, rq_denominator_pos; auto.
    now apply inv_alpha_valid_range.
  - apply Hv.
Qed.

(** Above the last knot of [knots_ycoords] the gather of the segment
    width is out of range. *)
Lemma valid_inv_cell_above (y : R) :
  nth K (r_ky q) 0 < y ->
  inv_rq_spline_cell (Fin y) (finite_spline q) = Raise IndexError.
Proof.
  intros Hy. unfold inv_rq_spline_cell.
  cbn [finite_spline widths heights derivs knots_xcoords knots_ycoords].
  rewrite select_first_Fin by (rewrite (vs_len_ky q Hv); lia).
  rewrite (select_last_Fin _ _ (vs_len_ky q Hv)).
  cbn [bind].
  rewrite searchsorted_Fin by apply Hv. rewrite length_map, clamp_idx_nat.
  fold (segment_index (r_ky q) (length (r_widths q)) y).
  rewrite (segment_index_above (r_ky q) (length (r_widths q))
             (vs_inc_y q Hv) (vs_len_ky q Hv) y Hy).
  rewrite gather_out_of_range by (rewrite length_map; lia).
  reflexivity.
Qed.

Lemma inv_beta_below (y : R) :
  y <= nth 0 (r_ky q) 0 -> inv_beta q 0 y = 0.
Proof.
  intros Hy. unfold inv_beta. apply clamp01_low.
  pose proof (valid_width_pos q Hv 0%nat (vs_segments q Hv)) as Hw.
  assert (Hi : 0 < / nth 0 (r_widths q) 0) by (apply Rinv_0_lt_compat; exact Hw).
  unfold Rdiv. nra.
Qed.

(** At or below the first knot of [knots_ycoords] the inverse body
    returns the first knot of [knots_xcoords]. *)
Lemma valid_inv_cell_below (y : R) :
  y <= nth 0 (r_ky q) 0 ->
  inv_rq_spline_cell (Fin y) (finite_spline q) =
  Ok {| ic_outside := Rltb y (nth 0 (r_ky q) 0) || Rltb (nth K (r_ky q) 0) y;
        ic_discriminant :=
          Fin (inv_discriminant (seg_slope q 0) (nth 0 (r_derivs q) 0)
                                (nth 1 (r_derivs q) 0) 0);
        ic_x := Fin (nth 0 (r_kx q) 0);
        ic_gradient_fwd := Fin (nth 0 (r_derivs q) 0) |}.
Proof.
  intros Hy. pose proof (vs_segments q Hv) as HK. fold K in HK.
  rewrite (valid_inv_cell y 0%nat).
  - unfold inv_x, inv_gradient. rewrite (inv_beta_below y Hy), inv_alpha_0.
    rewrite rq_gradient_0 by (now apply valid_slope_pos).
    rewrite Rmult_0_r, Rplus_0_r. reflexivity.
  - symmetry. apply segment_index_first; [apply Hv | apply Hv | exact Hy].
  - exact HK.
Qed.

Lemma fwd_gradient_left_knot (k : nat) :
  (k < K)%nat -> fwd_gradient q k (nth k (r_kx q) 0) = nth k (r_derivs q) 0.
Proof.
  intros Hk. unfold fwd_gradient.
  pose proof (valid_width_pos q Hv k Hk) as Hw.
  rewrite (fwd_alpha_inner q Hv k); try (fold K; lia); try lra.
  - replace ((nth k (r_kx q) 0 - nth k (r_kx q) 0) / nth k (r_widths q) 0)
      with 0 by (field; lra).
    apply rq_gradient_0. now apply valid_slope_pos.
  - rewrite (vs_extent_x q Hv k Hk). lra.
Qed.

Lemma fwd_gradient_right_knot (k : nat) :
  (k < K)%nat -> fwd_gradient q k (nth (S k) (r_kx q) 0) = nth (S k) (r_derivs q) 0.
Proof.
  intros Hk. unfold fwd_gradient.
  pose proof (valid_width_pos q Hv k Hk) as Hw.
  rewrite (fwd_alpha_inner q Hv k); try (fold K; lia); try lra.
  - rewrite (vs_extent_x q Hv k Hk).
    replace ((nth k (r_kx q) 0 + nth k (r_widths q) 0 - nth k (r_kx q) 0)
             / nth k (r_widths q) 0) with 1 by (field; lra).
    apply rq_gradient_1. now apply valid_slope_pos.
  - rewrite (vs_extent_x q Hv k Hk). lra.
Qed.

Lemma knot_inside (k : nat) :
  (k <= K)%nat ->
  Rltb (nth k (r_kx q) 0) (nth 0 (r_kx q) 0)
  || Rltb (nth K (r_kx q) 0) (nth k (r_kx q) 0) = false.
Proof.
  intros Hk. pose proof (vs_inc_x q Hv) as Hinc.
  pose proof (vs_len_kx q Hv) as Hlen. fold K in Hlen.
  assert (nth 0 (r_kx q) 0 <= nth k (r_kx q) 0)
    by (apply increasing_le; [exact Hinc | lia]).
  assert (nth k (r_kx q) 0 <= nth K (r_kx q) 0)
    by (apply increasing_le; [exact Hinc | lia]).
  rewrite !Rltb_false by lra. reflexivity.
Qed.

(** At the knot [k] the forward body returns the knot [k] of
    [knots_ycoords], with gradient [derivs[k]]. *)
Lemma valid_cell_at_knot (k : nat) :
  (k <= K)%nat ->
  rq_spline_cell (Fin (nth k (r_kx q) 0)) (finite_spline q) =
  Ok {| fc_x := Fin (nth k (r_kx q) 0); fc_outside := false;
        fc_y := Fin (nth k (r_ky q) 0);
        fc_gradient := Fin (nth k (r_derivs q) 0) |}.
Proof.
  intros Hk. pose proof (vs_segments q Hv) as HK. fold K in HK.
  pose proof (vs_inc_x q Hv) as Hinc.
  pose proof (vs_len_kx q Hv) as Hlen. fold K in Hlen.
  destruct k as [|k'].
  - rewrite (valid_cell q Hv _ 0%nat).
    + fold K. rewrite (knot_inside 0) by lia.
      rewrite fwd_y_left_knot, fwd_gradient_left_knot by assumption.
      reflexivity.
    + symmetry. apply segment_index_first; [exact Hinc | exact Hlen | lra].
    + exact HK.
  - assert (Hk' : (k' < K)%nat) by lia.
    rewrite (valid_cell q Hv _ k').
    + fold K. rewrite (knot_inside (S k')) by lia.
      rewrite fwd_y_right_knot, fwd_gradient_right_knot by assumption.
      reflexivity.
    + symmetry. apply segment_index_inner with (K := K); auto; try lra.
      apply Hinc. lia.
    + exact Hk'.
Qed.

(** Below the first knot the forward body works on segment [0] at
    [alpha = 0]: its gradient is [derivs[0]], and the entry is masked. *)
Lemma valid_cell_below (x : R) :
  x < nth 0 (r_kx q) 0 ->
  rq_spline_cell (Fin x) (finite_spline q) =
  Ok {| fc_x := Fin x; fc_outside := true;
        fc_y := Fin (nth 0 (r_ky q) 0);
        fc_gradient := Fin (nth 0 (r_derivs q) 0) |}.
Proof.
  intros Hx. pose proof (vs_segments q Hv) as HK. fold K in HK.
  rewrite (valid_cell q Hv x 0%nat).
  - rewrite (Rltb_true _ _ Hx). cbn [orb].
    unfold fwd_y, fwd_gradient. rewrite (fwd_alpha_below q Hv x) by lra.
    rewrite rq_beta_0, rq_gradient_0 by (now apply valid_slope_pos).
    rewrite Rmult_0_r, Rplus_0_r. reflexivity.
  - symmetry. apply segment_index_first; [apply Hv | apply Hv | lra].
  - exact HK.
Qed.

End ValidInverse.

(** ** A parametrisation with two segments *)

Lemma increasing_triple (a b c : R) : a < b -> b < c -> increasing [a; b; c].
Proof.
  intros Hab Hbc i j Hij. simpl in Hij.
  destruct i as [|[|[|i]]], j as [|[|[|j]]]; simpl; try lia; lra.
Qed.

Lemma two_segment_spline_valid : valid_spline two_segment_spline.
Proof.
  constructor; simpl; auto; try (repeat constructor; lra).
  - apply increasing_triple; lra.
  - apply increasing_triple; lra.
  - intros k Hk. destruct k as [|[|k]]; simpl; try lia; lra.
  - intros k Hk. destruct k as [|[|k]]; simpl; try lia; lra.
Qed.

(** ** Inputs outside the knots and at the knots *)

Lemma rq_spline_transform_entry_raise x params i j v p e :
  tget x i j = Some v -> tget params i j = Some p ->
  rq_spline_cell v p = Raise e ->
  forall y ldj, rq_spline_transform x params <> Ok (y, ldj).
Proof.
  intros Hx Hp Hc y ldj H.
  destruct (rq_spline_transform_entry _ _ _ _ i j _ _ H Hx Hp) as (c & Hcell & _).
  congruence.
Qed.

Lemma inv_rq_spline_transform_entry_raise y params i j v p e :
  tget y i j = Some v -> tget params i j = Some p ->
  inv_rq_spline_cell v p = Raise e ->
  forall x ldj, inv_rq_spline_transform y params <> Ok (x, ldj).
Proof.
  intros Hy Hp Hc x ldj H.
  destruct (inv_rq_spline_transform_entry _ _ _ _ i j _ _ H Hy Hp) as (c & Hcell & _).
  congruence.
Qed.

(** X1.  Whatever the valid parametrisation, an input above the last
    knot makes the call raise: the clamped segment index is [K] and the
    gather of the width is out of range.  This holds for the forward
    pass (input above [knots_xcoords[K]]) and for the inverse pass (input
    above [knots_ycoords[K]]), for the call on that single input and for
    every call that holds it at some entry. *)
Theorem spline_raises_above_last_knot (q : rspline) (v : R) :
  valid_spline q ->
  (nth (length (r_widths q)) (r_kx q) 0 < v ->
   rq_spline_transform [[Fin v]] [[finite_spline q]] = Raise IndexError
   /\ forall x params i j y ldj,
        tget x i j = Some (Fin v) -> tget params i j = Some (finite_spline q) ->
        rq_spline_transform x params <> Ok (y, ldj))
  /\ (nth (length (r_widths q)) (r_ky q) 0 < v ->
      inv_rq_spline_transform [[Fin v]] [[finite_spline q]] = Raise IndexError
      /\ forall y params i j x ldj,
           tget y i j = Some (Fin v) -> tget params i j = Some (finite_spline q) ->
           inv_rq_spline_transform y params <> Ok (x, ldj)).
Proof.
  intros Hv. split; intros Hlt.
  - pose proof (valid_cell_above q Hv v Hlt) as Hc. split.
    + now apply rq_spline_transform_single_raise.
    + intros x params i j y ldj Hx Hp.
      exact (rq_spline_transform_entry_raise _ _ i j _ _ _ Hx Hp Hc y ldj).
  - pose proof (valid_inv_cell_above q Hv v Hlt) as Hc. split.
    + now apply inv_rq_spline_transform_single_raise.
    + intros y params i j x ldj Hy Hp.
      exact (inv_rq_spline_transform_entry_raise _ _ i j _ _ _ Hy Hp Hc x ldj).
Qed.

Lemma spline_raises_above_last_knot_witness :
  rq_spline_transform [[Fin 3]] [[finite_spline tall_spline]] = Raise IndexError
  /\ inv_rq_spline_transform [[Fin 3]] [[finite_spline tall_spline]] = Raise IndexError.
Proof.
  destruct (spline_raises_above_last_knot tall_spline 3 tall_spline_valid)
    as [Hf Hi].
  split.
  - apply Hf. simpl. lra.
  - apply Hi. simpl. lra.
Defined.

(** X2.  Below the first knot the forward pass returns the input
    itself, and its log-det-Jacobian is the logarithm of the derivative
    at the first knot, [ln derivs[0]]: the masked assignment restores
    [y], and the gradient of segment [0] at [alpha = 0] is still summed. *)
Theorem rq_spline_below_first_knot (q : rspline) (v : R) :
  valid_spline q -> v < nth 0 (r_kx q) 0 ->
  rq_spline_transform [[Fin v]] [[finite_spline q]]
  = Ok ([[Fin v]], [Fin (ln (nth 0 (r_derivs q) 0))]).
Proof.
  intros Hv Hlt. pose proof (valid_cell_below q Hv v Hlt) as Hc.
  assert (Hd : 0 < nth 0 (r_derivs q) 0)
    by (apply valid_deriv_pos; [exact Hv | lia]).
  rewrite (rq_spline_transform_single _ _ _ Hc).
  cbn [fc_gradient fc_outside fc_x fc_y]. rewrite fgt_Fin_pos by exact Hd.
  rewrite flog_Fin by exact Hd. rewrite fsum_singleton. reflexivity.
Qed.

Lemma rq_spline_below_first_knot_witness :
  rq_spline_transform [[Fin (-5)]] [[finite_spline steep_spline]]
  = Ok ([[Fin (-5)]], [Fin (ln (nth 0 (r_derivs steep_spline) 0))]).
Proof.
  apply (rq_spline_below_first_knot steep_spline (-5) steep_spline_valid).
  simpl. lra.
Defined.

(** X3.  At or below the first knot of [knots_ycoords] the inverse pass
    returns the first knot of [knots_xcoords], not its input, and its
    log-det-Jacobian is [- ln derivs[0]]. *)
Theorem inv_rq_spline_below_first_knot (q : rspline) (v : R) :
  valid_spline q -> v <= nth 0 (r_ky q) 0 ->
  inv_rq_spline_transform [[Fin v]] [[finite_spline q]]
  = Ok ([[Fin (nth 0 (r_kx q) 0)]], [Fin (- ln (nth 0 (r_derivs q) 0))])
  /\ forall y params x ldj i j,
       tget y i j = Some (Fin v) -> tget params i j = Some (finite_spline q) ->
       inv_rq_spline_transform y params = Ok (x, ldj) ->
       tget x i j = Some (Fin (nth 0 (r_kx q) 0)).
Proof.
  intros Hv Hle. pose proof (valid_inv_cell_below q Hv v Hle) as Hc.
  assert (Hd : 0 < nth 0 (r_derivs q) 0)
    by (apply valid_deriv_pos; [exact Hv | lia]).
  split.
  - rewrite (inv_rq_spline_transform_single _ _ _ Hc).
    cbn [ic_x ic_gradient_fwd]. rewrite flog_Fin by exact Hd.
    cbn [fneg]. rewrite fsum_singleton. reflexivity.
  - intros y params x ldj i j Hy Hp Hcall.
    destruct (inv_rq_spline_transform_entry _ _ _ _ i j _ _ Hcall Hy Hp)
      as (c & Hcell & Hx).
    rewrite Hc in Hcell. inversion Hcell; subst c. exact Hx.
Qed.

Lemma inv_rq_spline_below_first_knot_witness :
  inv_rq_spline_transform [[Fin (-5)]] [[finite_spline steep_spline]]
  = Ok ([[Fin (nth 0 (r_kx steep_spline) 0)]],
        [Fin (- ln (nth 0 (r_derivs steep_spline) 0))]).
Proof.
  apply (inv_rq_spline_below_first_knot steep_spline (-5) steep_spline_valid).
  simpl. lra.
Defined.

(** X4.  The derivative of the spline at the knot [k] is [derivs[k]]:
    on the knot [knots_xcoords[k]] of a valid parametrisation the forward
    pass returns [knots_ycoords[k]] with log-det-Jacobian
    [ln derivs[k]], for every [k] from [0] to [K]. *)
Theorem rq_spline_gradient_at_knots (q : rspline) (k : nat) :
  valid_spline q -> (k <= length (r_widths q))%nat ->
  rq_spline_transform [[Fin (nth k (r_kx q) 0)]] [[finite_spline q]]
  = Ok ([[Fin (nth k (r_ky q) 0)]], [Fin (ln (nth k (r_derivs q) 0))]).
Proof.
  intros Hv Hk. pose proof (valid_cell_at_knot q Hv k Hk) as Hc.
  assert (Hd : 0 < nth k (r_derivs q) 0)
    by (apply valid_deriv_pos; [exact Hv | exact Hk]).
  rewrite (rq_spline_transform_single _ _ _ Hc).
  cbn [fc_gradient fc_outside fc_x fc_y]. rewrite fgt_Fin_pos by exact Hd.
  rewrite flog_Fin by exact Hd. rewrite fsum_singleton. reflexivity.
Qed.

Lemma rq_spline_gradient_at_knots_witness :
  rq_spline_transform [[Fin (nth 0 (r_kx steep_spline) 0)]]
                      [[finite_spline steep_spline]]
  = Ok ([[Fin (nth 0 (r_ky steep_spline) 0)]],
        [Fin (ln (nth 0 (r_derivs steep_spline) 0))]).
Proof.
  apply (rq_spline_gradient_at_knots steep_spline 0 steep_spline_valid).
  apply Nat.le_0_l.
Defined.

(** ** An input that is not a number *)

Lemma searchsorted_NaN (ks : list scalar) :
  searchsorted ks NaN = Z.of_nat (length ks).
Proof.
  unfold searchsorted. f_equal. apply lower_bound_partition; try lia.
  intros i _. destruct (nth i ks NaN); reflexivity.
Qed.

Lemma gather_in_range (l : list scalar) (k : nat) :
  (k < length l)%nat -> exists v, gather l (Z.of_nat k) = Ok v.
Proof.
  intros H. unfold gather.
  replace (Z.of_nat k <? 0)%Z with false by (symmetry; apply Z.ltb_ge; lia).
  rewrite Nat2Z.id. destruct (nth_error l k) as [v|] eqn:E; [eauto|].
  apply nth_error_None in E. lia.
Qed.

Lemma rq_spline_cell_NaN (p : spline) :
  length (knots_xcoords p) = S (length (widths p)) ->
  rq_spline_cell NaN p = Raise IndexError.
Proof.
  intros Hlen. unfold rq_spline_cell, select_first, select_last.
  destruct (gather_in_range (knots_xcoords p) 0) as [v0 H0]; [lia|].
  destruct (gather_in_range (knots_xcoords p) (length (widths p))) as [v1 H1];
    [lia|].
  change (Z.of_nat 0) with 0%Z in H0. rewrite H0. cbn [bind].
  replace (Z.of_nat (length (knots_xcoords p)) - 1)%Z
    with (Z.of_nat (length (widths p))) by lia.
  rewrite H1. cbn [bind].
  rewrite searchsorted_NaN, Hlen.
  rewrite clamp_idx_nat.
  replace (Nat.min (S (length (widths p)) - 1) (length (widths p)))
    with (length (widths p)) by lia.
  rewrite gather_out_of_range by lia. reflexivity.
Qed.

Lemma inv_rq_spline_cell_NaN (p : spline) :
  length (knots_ycoords p) = S (length (widths p)) ->
  inv_rq_spline_cell NaN p = Raise IndexError.
Proof.
  intros Hlen. unfold inv_rq_spline_cell, select_first, select_last.
  destruct (gather_in_range (knots_ycoords p) 0) as [v0 H0]; [lia|].
  destruct (gather_in_range (knots_ycoords p) (length (widths p))) as [v1 H1];
    [lia|].
  change (Z.of_nat 0) with 0%Z in H0. rewrite H0. cbn [bind].
  replace (Z.of_nat (length (knots_ycoords p)) - 1)%Z
    with (Z.of_nat (length (widths p))) by lia.
  rewrite H1. cbn [bind].
  rewrite searchsorted_NaN, Hlen.
  rewrite clamp_idx_nat.
  replace (Nat.min (S (length (widths p)) - 1) (length (widths p)))
    with (length (widths p)) by lia.
  rewrite gather_out_of_range by lia. reflexivity.
Qed.

(** X5.  A NaN input does not propagate: the search places it after the
    last knot, the clamped index is [K], and the call raises, in both
    directions and whatever the values of the parameters, as soon as
    there are [K + 1] knots for [K] widths. *)
Theorem spline_raises_on_nan (p : spline) :
  (length (knots_xcoords p) = S (length (widths p)) ->
   rq_spline_transform [[NaN]] [[p]] = Raise IndexError
   /\ forall x params i j y ldj,
        tget x i j = Some NaN -> tget params i j = Some p ->
        rq_spline_transform x params <> Ok (y, ldj))
  /\ (length (knots_ycoords p) = S (length (widths p)) ->
      inv_rq_spline_transform [[NaN]] [[p]] = Raise IndexError
      /\ forall y params i j x ldj,
           tget y i j = Some NaN -> tget params i j = Some p ->
           inv_rq_spline_transform y params <> Ok (x, ldj)).
Proof.
  split; intros Hlen.
  - pose proof (rq_spline_cell_NaN p Hlen) as Hc. split.
    + now apply rq_spline_transform_single_raise.
    + intros x params i j y ldj Hx Hp.
      exact (rq_spline_transform_entry_raise _ _ i j _ _ _ Hx Hp Hc y ldj).
  - pose proof (inv_rq_spline_cell_NaN p Hlen) as Hc. split.
    + now apply inv_rq_spline_transform_single_raise.
    + intros y params i j x ldj Hy Hp.
      exact (inv_rq_spline_transform_entry_raise _ _ i j _ _ _ Hy Hp Hc x ldj).
Qed.

Lemma spline_raises_on_nan_witness :
  rq_spline_transform [[NaN]] [[finite_spline unit_spline]] = Raise IndexError
  /\ inv_rq_spline_transform [[NaN]] [[finite_spline unit_spline]] = Raise IndexError.
Proof.
  destruct (spline_raises_on_nan (finite_spline unit_spline)) as [Hf Hi].
  split.
  - apply Hf. reflexivity.
  - apply Hi. reflexivity.
Defined.

(** ** The forward pass over the whole interval *)

(** Between the first knot and the knot [j] every input lies in one of
    the half-open segments [(ks[k], ks[k+1]]]. *)
Lemma locate_segment (ks : list R) (x : R) (j : nat) :
  nth 0 ks 0 < x -> x <= nth j ks 0 ->
  exists k, (k < j)%nat /\ nth k ks 0 < x /\ x <= nth (S k) ks 0.
Proof.
  intros Hlo. induction j as [|j IH]; intros Hhi; [lra|].
  destruct (Rlt_le_dec (nth j ks 0) x) as [Hlt | Hle].
  - exists j. auto.
  - destruct (IH Hle) as (k & Hk & H). exists k. split; [lia | exact H].
Qed.

Section ValidInterval.

Variable q : rspline.
Hypothesis Hv : valid_spline q.

Let K := length (r_widths q).

Lemma locate_closed (x : R) :
  nth 0 (r_kx q) 0 <= x -> x <= nth K (r_kx q) 0 ->
  exists k, (k < K)%nat /\ nth k (r_kx q) 0 <= x /\ x <= nth (S k) (r_kx q) 0.
Proof.
  intros [Hlt | Heq] Hhi.
  - destruct (locate_segment (r_kx q) x K Hlt Hhi) as (k & Hk & Hl & Hr).
    exists k. repeat split; [exact Hk | lra | exact Hr].
  - pose proof (vs_segments q Hv) as HK. fold K in HK.
    exists 0%nat. split; [exact HK|]. split; [lra|].
    subst x. left. apply (vs_inc_x q Hv).
    rewrite (vs_len_kx q Hv). fold K. lia.
Qed.

(** The interpolant of segment [k] stays between the two knots of the
    segment. *)
Lemma fwd_y_segment_range (k : nat) (x : R) :
  (k < K)%nat -> nth k (r_kx q) 0 <= x -> x <= nth (S k) (r_kx q) 0 ->
  nth k (r_ky q) 0 <= fwd_y q k x <= nth (S k) (r_ky q) 0.
Proof.
  intros Hk Hlo Hhi.
  pose proof (fwd_y_left_knot q Hv k Hk) as Hl.
  pose proof (fwd_y_right_knot q Hv k Hk) as Hr.
  pose proof (valid_width_pos q Hv k Hk) as Hw.
  pose proof (vs_extent_x q Hv k Hk) as He.
  split.
  - destruct Hlo as [Hlt | Heq].
    + pose proof (fwd_y_increasing q Hv k (nth k (r_kx q) 0) x Hk). lra.
    + rewrite <- Heq at 1. lra.
  - destruct Hhi as [Hlt | Heq].
    + pose proof (fwd_y_increasing q Hv k x (nth (S k) (r_kx q) 0) Hk). lra.
    + rewrite Heq at 1. lra.
Qed.

Lemma ky_le (i j : nat) : (i <= j <= K)%nat -> nth i (r_ky q) 0 <= nth j (r_ky q) 0.
Proof.
  intros H. apply increasing_le; [apply Hv|].
  rewrite (vs_len_ky q Hv). fold K. lia.
Qed.

Lemma kx_le (i j : nat) : (i <= j <= K)%nat -> nth i (r_kx q) 0 <= nth j (r_kx q) 0.
Proof.
  intros H. apply increasing_le; [apply Hv|].
  rewrite (vs_len_kx q Hv). fold K. lia.
Qed.

(** What the forward body returns on the interval of the knots: a value
    between the first and the last knot of [knots_ycoords], not masked,
    with a positive gradient. *)
Lemma valid_cell_interval (x : R) :
  nth 0 (r_kx q) 0 <= x -> x <= nth K (r_kx q) 0 ->
  exists y g,
    rq_spline_cell (Fin x) (finite_spline q) =
    Ok {| fc_x := Fin x; fc_outside := false; fc_y := Fin y; fc_gradient := Fin g |}
    /\ 0 < g /\ nth 0 (r_ky q) 0 <= y <= nth K (r_ky q) 0.
Proof.
  intros Hlo Hhi.
  destruct (locate_closed x Hlo Hhi) as (k & Hk & Hl & Hr).
  destruct (valid_cell_segment q Hv k x Hk Hl Hr) as (g & Hg & Hc).
  exists (fwd_y q k x), g. split; [exact Hc|]. split; [exact Hg|].
  pose proof (fwd_y_segment_range k x Hk Hl Hr).
  split; [assert (nth 0 (r_ky q) 0 <= nth k (r_ky q) 0) by (apply ky_le; lia)
         | assert (nth (S k) (r_ky q) 0 <= nth K (r_ky q) 0) by (apply ky_le; lia)];
    lra.
Qed.

(** The forward body is strictly increasing across the segments. *)
Lemma valid_cell_increasing (x1 x2 : R) :
  nth 0 (r_kx q) 0 <= x1 -> x1 < x2 -> x2 <= nth K (r_kx q) 0 ->
  exists y1 g1 y2 g2,
    rq_spline_cell (Fin x1) (finite_spline q) =
    Ok {| fc_x := Fin x1; fc_outside := false; fc_y := Fin y1; fc_gradient := Fin g1 |}
    /\ rq_spline_cell (Fin x2) (finite_spline q) =
       Ok {| fc_x := Fin x2; fc_outside := false; fc_y := Fin y2; fc_gradient := Fin g2 |}
    /\ 0 < g1 /\ 0 < g2 /\ y1 < y2.
Proof.
  intros Hlo Hlt Hhi.
  assert (Hlo2 : nth 0 (r_kx q) 0 < x2) by lra.
  destruct (locate_segment (r_kx q) x2 K Hlo2 Hhi) as (k2 & Hk2 & Hl2 & Hr2).
  destruct (valid_cell_segment q Hv k2 x2 Hk2) as (g2 & Hg2 & Hc2); try lra.
  assert (Hy2 : nth k2 (r_ky q) 0 < fwd_y q k2 x2).
  { rewrite <- (fwd_y_left_knot q Hv k2 Hk2).
    apply (fwd_y_increasing q Hv); auto; lra. }
  destruct Hlo as [Hlo | Heq].
  - assert (Hhi1 : x1 <= nth K (r_kx q) 0) by lra.
    destruct (locate_segment (r_kx q) x1 K Hlo Hhi1) as (k1 & Hk1 & Hl1 & Hr1).
    destruct (valid_cell_segment q Hv k1 x1 Hk1) as (g1 & Hg1 & Hc1); try lra.
    exists (fwd_y q k1 x1), g1, (fwd_y q k2 x2), g2.
    repeat (split; [assumption|]).
    destruct (Nat.lt_trichotomy k1 k2) as [Hlt12 | [Heq12 | Hgt12]].
    + assert (fwd_y q k1 x1 <= nth (S k1) (r_ky q) 0)
        by (apply fwd_y_segment_range; auto; lra).
      assert (nth (S k1) (r_ky q) 0 <= nth k2 (r_ky q) 0) by (apply ky_le; lia).
      lra.
    + subst k2. apply (fwd_y_increasing q Hv); auto; lra.
    + assert (nth (S k2) (r_kx q) 0 <= nth k1 (r_kx q) 0) by (apply kx_le; lia).
      lra.
  - subst x1. pose proof (vs_segments q Hv) as HK. fold K in HK.
    destruct (valid_cell_segment q Hv 0%nat (nth 0 (r_kx q) 0) HK) as (g1 & Hg1 & Hc1).
    + lra.
    + apply kx_le. lia.
    + exists (fwd_y q 0 (nth 0 (r_kx q) 0)), g1, (fwd_y q k2 x2), g2.
      repeat (split; [assumption|]).
      rewrite (fwd_y_left_knot q Hv 0%nat HK).
      assert (nth 0 (r_ky q) 0 <= nth k2 (r_ky q) 0) by (apply ky_le; lia).
      lra.
Qed.

End ValidInterval.

Lemma rq_spline_transform_single_finite (x y g : R) (p : spline) (o : bool) :
  rq_spline_cell (Fin x) p =
    Ok {| fc_x := Fin x; fc_outside := o; fc_y := Fin y; fc_gradient := Fin g |} ->
  0 < g ->
  rq_spline_transform [[Fin x]] [[p]]
  = Ok ([[Fin (if o then x else y)]], [Fin (ln g)]).
Proof.
  intros Hc Hg. rewrite (rq_spline_transform_single _ _ _ Hc).
  cbn [fc_gradient fc_outside fc_x fc_y]. rewrite fgt_Fin_pos by exact Hg.
  rewrite flog_Fin by exact Hg. rewrite fsum_singleton.
  destruct o; reflexivity.
Qed.

(** X6.  On a valid parametrisation the forward pass maps the interval
    of the knots into the interval of their images: for an input between
    [knots_xcoords[0]] and [knots_xcoords[K]] the call returns a finite
    value between [knots_ycoords[0]] and [knots_ycoords[K]], and a finite
    log-det-Jacobian. *)
Theorem rq_spline_maps_interval_into_interval (q : rspline) (v : R) :
  valid_spline q ->
  nth 0 (r_kx q) 0 <= v -> v <= nth (length (r_widths q)) (r_kx q) 0 ->
  exists w l,
    rq_spline_transform [[Fin v]] [[finite_spline q]] = Ok ([[Fin w]], [Fin l])
    /\ nth 0 (r_ky q) 0 <= w <= nth (length (r_widths q)) (r_ky q) 0.
Proof.
  intros Hv Hlo Hhi.
  destruct (valid_cell_interval q Hv v Hlo Hhi) as (y & g & Hc & Hg & Hy).
  exists y, (ln g). split; [|exact Hy].
  now rewrite (rq_spline_transform_single_finite _ _ _ _ _ Hc Hg).
Qed.

Lemma rq_spline_maps_interval_into_interval_witness :
  exists w l,
    rq_spline_transform [[Fin (1 / 2)]] [[finite_spline tall_spline]]
    = Ok ([[Fin w]], [Fin l])
    /\ nth 0 (r_ky tall_spline) 0 <= w
       <= nth (length (r_widths tall_spline)) (r_ky tall_spline) 0.
Proof.
  apply (rq_spline_maps_interval_into_interval tall_spline (1 / 2) tall_spline_valid).
  - simpl. lra.
  - simpl. lra.
Defined.

(** X7.  On a valid parametrisation the forward pass is strictly
    increasing over the whole interval of the knots, across the
    segments: for [knots_xcoords[0] <= x1 < x2 <= knots_xcoords[K]] the
    value returned at [x1] is strictly smaller than the one returned at
    [x2]. *)
Theorem rq_spline_increasing_on_interval (q : rspline) (x1 x2 : R) :
  valid_spline q ->
  nth 0 (r_kx q) 0 <= x1 -> x1 < x2 -> x2 <= nth (length (r_widths q)) (r_kx q) 0 ->
  exists y1 y2 l1 l2,
    rq_spline_transform [[Fin x1]] [[finite_spline q]] = Ok ([[Fin y1]], l1) /\
    rq_spline_transform [[Fin x2]] [[finite_spline q]] = Ok ([[Fin y2]], l2) /\
    y1 < y2.
Proof.
  intros Hv Hlo Hlt Hhi.
  destruct (valid_cell_increasing q Hv x1 x2 Hlo Hlt Hhi)
    as (y1 & g1 & y2 & g2 & Hc1 & Hc2 & Hg1 & Hg2 & Hy).
  exists y1, y2.
  rewrite (rq_spline_transform_single_finite _ _ _ _ _ Hc1 Hg1).
  rewrite (rq_spline_transform_single_finite _ _ _ _ _ Hc2 Hg2).
  do 2 eexists. split; [reflexivity | split; [reflexivity | exact Hy]].
Qed.

Lemma rq_spline_increasing_on_interval_witness :
  exists y1 y2 l1 l2,
    rq_spline_transform [[Fin (1 / 2)]] [[finite_spline two_segment_spline]]
      = Ok ([[Fin y1]], l1) /\
    rq_spline_transform [[Fin 2]] [[finite_spline two_segment_spline]]
      = Ok ([[Fin y2]], l2) /\
    y1 < y2.
Proof.
  apply (rq_spline_increasing_on_interval two_segment_spline (1 / 2) 2
           two_segment_spline_valid).
  - simpl. lra.
  - lra.
  - simpl. lra.
Defined.

(** ** Whole tensors on valid parametrisations *)

Lemma Forall2_same_shape {A B : Type} (P : A -> B -> Prop)
      (x : list (list A)) (p : list (list B)) :
  Forall2 (Forall2 P) x p -> same_shape x p.
Proof.
  unfold same_shape. induction 1 as [|a b x p Hab _ IH]; constructor; auto.
  eapply Forall2_length; eauto.
Qed.

Lemma Forall2_combine {A B : Type} (P : A -> B -> Prop) (a : list A) (b : list B) :
  Forall2 P a b -> Forall (fun ab => P (fst ab) (snd ab)) (combine a b).
Proof. induction 1; simpl; constructor; auto. Qed.

(** A body that succeeds at every pair of entries succeeds on the two
    tensors. *)
Lemma lifted_total {A B C : Type} (f : A * B -> result C) (P : A -> B -> Prop)
      (x : list (list A)) (p : list (list B)) :
  (forall a b, P a b -> exists c, f (a, b) = Ok c) ->
  Forall2 (Forall2 P) x p ->
  exists cells, (xp <- tzip x p ;; mapM (mapM f) xp) = Ok cells.
Proof.
  intros Hf H.
  rewrite (tzip_same_shape x p (Forall2_same_shape P x p H)). cbn [bind].
  apply mapM_total.
  induction H as [|a b x p Hab _ IH]; simpl; constructor; [|exact IH].
  simpl. apply mapM_total.
  apply Forall2_combine in Hab.
  eapply Forall_impl; [|exact Hab].
  intros [u v] Huv. simpl in Huv. auto.
Qed.

(** Every entry of the result of a lifted body comes from the entries
    of the two tensors at the same position. *)
Lemma lifted_entry_inv {A B C : Type} (f : A * B -> result C)
      (x : list (list A)) (p : list (list B)) (cells : list (list C))
      (i j : nat) (c : C) :
  (xp <- tzip x p ;; mapM (mapM f) xp) = Ok cells ->
  tget cells i j = Some c ->
  exists v w, tget x i j = Some v /\ tget p i j = Some w /\ f (v, w) = Ok c.
Proof.
  intros H Hc. destruct (lifted_row f _ _ _ H) as [Hlen Hrow].
  assert (Hxp : length x = length p).
  { apply bind_ok in H as (xp & Hz & _). now apply tzip_row in Hz. }
  unfold tget in *.
  destruct (nth_error cells i) as [cr|] eqn:Ecr; [|discriminate].
  assert (Hi : (i < length cells)%nat) by (apply nth_error_Some; congruence).
  destruct (nth_error x i) as [xr|] eqn:Ex;
    [|apply nth_error_None in Ex; lia].
  destruct (nth_error p i) as [pr|] eqn:Ep;
    [|apply nth_error_None in Ep; lia].
  destruct (Hrow i xr pr Ex Ep) as (cr' & Hcr' & Hm).
  assert (cr' = cr) by congruence. subst cr'.
  assert (Hj : (j < length cr)%nat) by (apply nth_error_Some; congruence).
  pose proof (mapM_length _ _ _ Hm) as Hl.
  destruct (nth_error (combine xr pr) j) as [[v w]|] eqn:Evw;
    [|apply nth_error_None in Evw; lia].
  destruct (mapM_nth_error _ _ _ Hm j (v, w) Evw) as (c' & Hc' & Hn).
  assert (c' = c) by congruence. subst c'.
  rewrite nth_error_combine in Evw.
  destruct (nth_error xr j) as [v'|]; [|discriminate].
  destruct (nth_error pr j) as [w'|]; [|discriminate].
  inversion Evw; subst. eauto.
Qed.

Lemma Forall2_tget {A B : Type} (P : A -> B -> Prop)
      (x : list (list A)) (p : list (list B)) (i j : nat) (a : A) (b : B) :
  Forall2 (Forall2 P) x p ->
  tget x i j = Some a -> tget p i j = Some b -> P a b.
Proof.
  intros H. revert i. unfold tget.
  induction H as [|xr pr x p Hrow _ IH]; intros [|i] Ha Hb; simpl in *;
    try discriminate.
  - clear IH. revert j Ha Hb.
    induction Hrow as [|u v xr pr Huv _ IHr]; intros [|j] Ha Hb; simpl in *;
      try discriminate.
    + inversion Ha; inversion Hb; subst; exact Huv.
    + eauto.
  - eauto.
Qed.

Lemma Forall_Forall_tget {A : Type} (Q : A -> Prop) (t : list (list A)) :
  (forall i j a, tget t i j = Some a -> Q a) -> Forall (Forall Q) t.
Proof.
  intros H. apply Forall_forall. intros row Hrow.
  apply Forall_forall. intros a Ha.
  apply In_nth_error in Hrow as [i Hi]. apply In_nth_error in Ha as [j Hj].
  apply (H i j). unfold tget. now rewrite Hi.
Qed.

(** A tensor whose entries are finite under [h] is a tensor of reals. *)
Lemma finite_row {A : Type} (h : A -> scalar) (l : list A) :
  Forall (fun a => exists r, h a = Fin r) l -> exists rl, map h l = map Fin rl.
Proof.
  induction 1 as [|a l [r Hr] _ [rl Hrl]]; simpl.
  - exists []. reflexivity.
  - exists (r :: rl). simpl. now rewrite Hr, Hrl.
Qed.

Lemma finite_tensor {A : Type} (h : A -> scalar) (t : list (list A)) :
  Forall (Forall (fun a => exists r, h a = Fin r)) t ->
  exists t', map (map h) t = tfin t'.
Proof.
  induction 1 as [|row t Hrow _ [t' Ht']]; simpl.
  - exists []. reflexivity.
  - destruct (finite_row h row Hrow) as [rl Hrl].
    exists (rl :: t'). unfold tfin in *. simpl. now rewrite Hrl, Ht'.
Qed.

(** The forward body at an input that is not above the last knot. *)
Lemma valid_cell_total (q : rspline) (v : R) :
  valid_spline q -> v <= nth (length (r_widths q)) (r_kx q) 0 ->
  exists o y g,
    rq_spline_cell (Fin v) (finite_spline q) =
    Ok {| fc_x := Fin v; fc_outside := o; fc_y := Fin y; fc_gradient := Fin g |}
    /\ 0 < g.
Proof.
  intros Hv Hhi.
  destruct (Rlt_le_dec v (nth 0 (r_kx q) 0)) as [Hlt | Hle].
  - exists true, (nth 0 (r_ky q) 0), (nth 0 (r_derivs q) 0).
    split; [now apply valid_cell_below|].
    apply valid_deriv_pos; [exact Hv | lia].
  - destruct (valid_cell_interval q Hv v Hle Hhi) as (y & g & Hc & Hg & _).
    exists false, y, g. auto.
Qed.

(** The inverse body at an input that is not above the last knot: the
    value returned lies between the first and the last knot of
    [knots_xcoords]. *)
Lemma valid_inv_cell_total (q : rspline) (v : R) :
  valid_spline q -> v <= nth (length (r_widths q)) (r_ky q) 0 ->
  exists o d x g,
    inv_rq_spline_cell (Fin v) (finite_spline q) =
    Ok {| ic_outside := o; ic_discriminant := Fin d;
          ic_x := Fin x; ic_gradient_fwd := Fin g |}
    /\ 0 <= d /\ 0 < g
    /\ nth 0 (r_kx q) 0 <= x <= nth (length (r_widths q)) (r_kx q) 0.
Proof.
  intros Hv Hhi.
  pose proof (vs_segments q Hv) as HK.
  assert (Hseg : exists k, (k < length (r_widths q))%nat
                           /\ k = segment_index (r_ky q) (length (r_widths q)) v).
  { destruct (Rlt_le_dec (nth 0 (r_ky q) 0) v) as [Hlt | Hle].
    - destruct (locate_segment (r_ky q) v _ Hlt Hhi) as (k & Hk & Hl & Hr).
      exists k. split; [exact Hk|]. symmetry.
      apply segment_index_inner; auto; apply Hv.
    - exists 0%nat. split; [exact HK|]. symmetry.
      apply segment_index_first; auto; apply Hv. }
  destruct Hseg as (k & Hk & Hidx).
  do 4 eexists. split; [exact (valid_inv_cell q Hv v k Hidx Hk)|].
  split; [apply inv_discriminant_nonneg, inv_beta_range|].
  split; [now apply inv_gradient_pos|].
  pose proof (inv_alpha_valid_range q Hv k v Hk) as [Ha0 Ha1].
  pose proof (valid_width_pos q Hv k Hk) as Hw.
  pose proof (vs_extent_x q Hv k Hk) as He.
  unfold inv_x. split.
  - assert (nth 0 (r_kx q) 0 <= nth k (r_kx q) 0) by (apply kx_le; auto; lia).
    nra.
  - assert (nth (S k) (r_kx q) 0 <= nth (length (r_widths q)) (r_kx q) 0)
      by (apply kx_le; auto; lia).
    nra.
Qed.

Lemma Forall2_finite_splines (P : R -> rspline -> Prop)
      (x : list (list R)) (qs : list (list rspline)) :
  Forall2 (Forall2 P) x qs ->
  Forall2 (Forall2 (fun a b => exists v q, a = Fin v /\ b = finite_spline q /\ P v q))
          (tfin x) (map (map finite_spline) qs).
Proof.
  unfold tfin. induction 1 as [|xr qr x qs Hrow _ IH]; simpl; constructor; auto.
  induction Hrow as [|v q xr qr Hvq _ IHr]; simpl; constructor; eauto.
Qed.

(** *** One spline for each batch element *)

Lemma bzip_ok_cases {A B : Type} (l : list A) (m : list B) r :
  bzip l m = Ok r ->
  (length l = length m \/ length l = 1%nat \/ length m = 1%nat)
  /\ length r = (if (length l =? 1)%nat then length m else length l).
Proof.
  unfold bzip. intros H. destruct (length l =? length m)%nat eqn:E.
  - apply Nat.eqb_eq in E. inversion H; subst r. split; [auto|].
    rewrite length_combine. destruct (length l =? 1)%nat; lia.
  - destruct l as [|a0 [|a1 l]].
    + destruct m as [|b [|b' m]]; try discriminate. inversion H. simpl. auto.
    + inversion H; subst r. rewrite length_map. simpl. auto.
    + destruct m as [|b [|b' m]]; try discriminate.
      assert (Hr : r = map (fun u => (u, b)) (a0 :: a1 :: l)) by congruence.
      rewrite Hr, length_map. simpl. auto.
Qed.

Lemma assign_row_length (y x : list scalar) (m : list bool) r :
  assign_row y x m = Ok r -> length x = length y /\ length m = length y.
Proof.
  revert x m r. induction y as [|b y IH]; intros [|a x] [|c m] r H;
    try discriminate; cbn [assign_row] in H.
  - auto.
  - apply bind_ok in H as (r' & Hr & _). apply IH in Hr as [Hx Hm].
    simpl. auto.
Qed.

(** The masked assignment goes through only with a mask of the shape of
    the tensor. *)
Lemma masked_assign_shape (y x : Tensor) (m : list (list bool)) r (i : nat) xr mr :
  masked_assign y x m = Ok r ->
  nth_error x i = Some xr -> nth_error m i = Some mr -> length mr = length xr.
Proof.
  revert x m r i. induction y as [|yr y IH]; intros [|xr' x] [|mr' m] r i H Hx Hm;
    try discriminate; cbn [masked_assign] in H.
  - destruct i; discriminate.
  - apply bind_ok in H as (r0 & Hr0 & H). apply bind_ok in H as (rs & Hrs & _).
    destruct i as [|i]; simpl in Hx, Hm.
    + inversion Hx; inversion Hm; subst.
      apply assign_row_length in Hr0. lia.
    + eapply IH; eauto.
Qed.

Lemma assign_row_fin (y x : list R) (m : list bool) :
  length x = length y -> length m = length x ->
  exists r : list R, assign_row (map Fin y) (map Fin x) m = Ok (map Fin r).
Proof.
  revert x m. induction y as [|b y IH]; intros [|a x] [|c m] Hx Hm;
    try discriminate; cbn [map assign_row].
  - exists []. reflexivity.
  - destruct (IH x m) as [r Hr]; [simpl in *; lia | simpl in *; lia|].
    rewrite Hr. cbn [bind].
    exists ((if c then a else b) :: r). destruct c; reflexivity.
Qed.

Lemma masked_assign_fin (y x : list (list R)) (m : list (list bool)) :
  Forall2 (fun yr xr => length xr = length yr) y x ->
  Forall2 (fun xr mr => length mr = length xr) x m ->
  exists r : list (list R), masked_assign (tfin y) (tfin x) m = Ok (tfin r).
Proof.
  intros Hx. revert m. unfold tfin.
  induction Hx as [|yr xr y x Hl _ IH]; intros m Hm; inversion Hm; subst;
    cbn [map masked_assign].
  - exists []. reflexivity.
  - destruct (assign_row_fin yr xr _ Hl H1) as [r Hr].
    destruct (IH _ H3) as [rs Hrs].
    rewrite Hr. cbn [bind]. rewrite Hrs. cbn [bind].
    exists (r :: rs). reflexivity.
Qed.

(** The body along one row of finite inputs that are not above the last
    knot of the spline of the row. *)
Lemma rank2_row_cells (q : rspline) (row : list R) :
  valid_spline q ->
  Forall (fun v => v <= nth (length (r_widths q)) (r_kx q) 0) row ->
  exists cr (ys ls : list R),
    mapM (fun v => rq_spline_cell v (finite_spline q)) (map Fin row) = Ok cr
    /\ map fc_y cr = map Fin ys
    /\ map (fun c => flog (fc_gradient c)) cr = map Fin ls
    /\ forallb (fun c => fgt (fc_gradient c) (Fin 0)) cr = true
    /\ length ys = length row.
Proof.
  intros Hv. induction 1 as [|v row Hle _ (cr & ys & ls & Hm & Hy & Hl & Hp & Hn)].
  - exists [], [], []. repeat split; reflexivity.
  - destruct (valid_cell_total q v Hv Hle) as (o & y & g & Hc & Hg).
    cbn [map mapM]. rewrite Hc. cbn [bind]. rewrite Hm. cbn [bind].
    eexists _, (y :: ys), (ln g :: ls). split; [reflexivity|].
    cbn [map forallb fc_y fc_gradient length].
    rewrite Hy, Hl, Hp, fgt_Fin_pos, flog_Fin by exact Hg. auto.
Qed.

Lemma rank2_cells (x : list (list R)) (qs : list rspline) :
  Forall2 (fun row q =>
             valid_spline q
             /\ Forall (fun v => v <= nth (length (r_widths q)) (r_kx q) 0) row)
          x qs ->
  exists cells (ys ls : list (list R)),
    Rank2.rq_spline_cells (tfin x) (map finite_spline qs) = Ok cells
    /\ map (map fc_y) cells = tfin ys
    /\ map (map (fun c => flog (fc_gradient c))) cells = tfin ls
    /\ all_gradients_positive cells = true
    /\ Forall2 (fun yr xr => length xr = length yr) ys x.
Proof.
  unfold Rank2.rq_spline_cells, tfin, all_gradients_positive.
  induction 1 as [|row q x qs [Hv Hle] Hrest
                    (cells & ys & ls & Hc & Hy & Hl & Hp & Hs)].
  - exists [], [], []. repeat split; try reflexivity. constructor.
  - destruct (rank2_row_cells q row Hv Hle) as (cr & yr & lr & Hm & Hyr & Hlr & Hpr & Hn).
    apply bind_ok in Hc as (rows & Hz & Hc).
    cbn [map zip]. rewrite Hz. cbn [bind mapM fst snd]. rewrite Hm. cbn [bind].
    rewrite Hc. cbn [bind].
    exists (cr :: cells), (yr :: ys), (lr :: ls).
    cbn [map forallb]. rewrite Hy, Hl, Hyr, Hlr, Hpr, Hp.
    repeat split; try reflexivity. constructor; [lia | exact Hs].
Qed.

(** Valid parametrisations with the same number of segments make
    parameter tensors, with a first and a last knot everywhere. *)
Lemma valid_tensors (qs : list rspline) (K : nat) :
  Forall (fun q => valid_spline q /\ length (r_widths q) = K) qs ->
  tensors (map finite_spline qs) = Ok tt.
Proof.
  intros H. destruct qs as [|q qs]; [reflexivity|].
  inversion H as [|? ? [Hv HK] Hrest]; subst. cbn [map tensors].
  replace (forallb (same_lengths (finite_spline q)) (map finite_spline qs)) with true;
    [reflexivity|].
  symmetry. apply forallb_forall. intros p Hp.
  apply in_map_iff in Hp as (q' & <- & Hq').
  rewrite Forall_forall in Hrest. destruct (Hrest q' Hq') as [Hv' HK'].
  unfold same_lengths, finite_spline. cbn [widths heights derivs knots_xcoords knots_ycoords].
  rewrite !length_map.
  rewrite (vs_len_h q Hv), (vs_len_d q Hv), (vs_len_kx q Hv), (vs_len_ky q Hv).
  rewrite (vs_len_h q' Hv'), (vs_len_d q' Hv'), (vs_len_kx q' Hv'), (vs_len_ky q' Hv').
  rewrite HK'. rewrite !Nat.eqb_refl. reflexivity.
Qed.

Lemma valid_first_and_last (qs : list rspline) :
  Forall valid_spline qs ->
  (exists ks, first_and_last knots_xcoords (map finite_spline qs) = Ok ks
              /\ length ks = length qs)
  /\ (exists ks, first_and_last knots_ycoords (map finite_spline qs) = Ok ks
                 /\ length ks = length qs).
Proof.
  intros H. split.
  - destruct (first_and_last_total knots_xcoords (map finite_spline qs)) as [ks Hk].
    + apply Forall_forall. intros p Hp. apply in_map_iff in Hp as (q & <- & Hq).
      rewrite Forall_forall in H. specialize (H q Hq).
      cbn [finite_spline knots_xcoords].
      rewrite select_first_Fin by (rewrite (vs_len_kx q H); lia).
      rewrite (select_last_Fin _ _ (vs_len_kx q H)). eauto.
    + exists ks. split; [exact Hk|].
      apply mapM_length in Hk. now rewrite Hk, length_map.
  - destruct (first_and_last_total knots_ycoords (map finite_spline qs)) as [ks Hk].
    + apply Forall_forall. intros p Hp. apply in_map_iff in Hp as (q & <- & Hq).
      rewrite Forall_forall in H. specialize (H q Hq).
      cbn [finite_spline knots_ycoords].
      rewrite select_first_Fin by (rewrite (vs_len_ky q H); lia).
      rewrite (select_last_Fin _ _ (vs_len_ky q H)). eauto.
    + exists ks. split; [exact Hk|].
      apply mapM_length in Hk. now rewrite Hk, length_map.
Qed.

Lemma shape_rectangular {A : Type} (t : list (list A)) (M : nat) :
  Forall (fun r => length r = M) t ->
  shape t = Ok (length t, match t with [] => 0%nat | _ => M end).
Proof.
  intros H. destruct t as [|r t]; [reflexivity|].
  inversion H; subst. cbn [shape].
  replace (forallb (fun r' => (length r' =? length r)%nat) t) with true;
    [reflexivity|].
  symmetry. apply forallb_forall. intros r' Hr'.
  rewrite Forall_forall in H3. rewrite (H3 r' Hr'). apply Nat.eqb_refl.
Qed.

(** The mask has the shape of the input when there is one batch element,
    or as many as there are entries in a row. *)
Lemma rank2_mask_total (x : Tensor) (knots : list (scalar * scalar)) (M : nat) :
  Forall (fun r => length r = M) x ->
  length knots = 1%nat \/ length knots = M ->
  exists m, Rank2.outside_interval_mask x knots = Ok m
            /\ Forall2 (fun xr mr => length mr = length xr) x m.
Proof.
  intros H Hk. rewrite outside_interval_mask_rows.
  induction H as [|r x Hr _ (m & Hm & Hs)].
  - exists []. split; [reflexivity | constructor].
  - cbn [mapM].
    assert (Hz : exists cols, bzip r knots = Ok cols /\ length cols = length r).
    { destruct Hk as [Hk | Hk].
      - destruct knots as [|k [|k' knots]]; try discriminate.
        rewrite bzip_singleton_r. eexists. split; [reflexivity|].
        now rewrite length_map.
      - rewrite bzip_same_length by lia. eexists. split; [reflexivity|].
        rewrite length_combine. lia. }
    destruct Hz as (cols & Hz & Hl). rewrite Hz. cbn [bind]. rewrite Hm. cbn [bind].
    eexists. split; [reflexivity|]. constructor; [|exact Hs].
    now rewrite length_map.
Qed.

(** A call that returns has one batch element, or as many as there are
    entries in a row. *)
Lemma rank2_forward_shape (x : Tensor) (params : list spline) y ldj (r : list scalar) :
  Rank2.rq_spline_transform x params = Ok (y, ldj) -> In r x ->
  length x = 1%nat \/ length x = length r.
Proof.
  intros H Hr. unfold Rank2.rq_spline_transform in H.
  apply bind_ok in H as (sh & _ & H). apply bind_ok in H as (u & _ & H).
  apply bind_ok in H as (knots & Hk & H). apply bind_ok in H as (mask & Hm & H).
  apply bind_ok in H as (cells & Hc & H).
  destruct (all_gradients_positive cells); [|discriminate].
  apply bind_ok in H as (w & Hw & _).
  apply mapM_length in Hk.
  unfold Rank2.rq_spline_cells in Hc. apply bind_ok in Hc as (rows & Hz & _).
  apply zip_ok in Hz as [_ Hlen].
  apply In_nth_error in Hr as [i Hi].
  rewrite outside_interval_mask_rows in Hm.
  destruct (mapM_nth_error _ _ _ Hm i r Hi) as (mr & Hmr & Hmi).
  apply bind_ok in Hmr as (cols & Hz & Hmr). inversion Hmr; subst mr.
  pose proof (masked_assign_shape _ _ _ _ i _ _ Hw Hi Hmi) as Hl.
  rewrite length_map in Hl.
  destruct (bzip_ok_cases _ _ _ Hz) as [Hcases Hcols].
  destruct (length r =? 1)%nat eqn:E.
  - apply Nat.eqb_eq in E. lia.
  - apply Nat.eqb_neq in E. lia.
Qed.

(** X8.  With one spline for each batch element, valid and of the same
    number of segments, and an input of shape [(B, M)] of finite values
    none of which is above the last knot of its batch element: the
    forward pass returns, with finite values, when [B = 1] or [B = M];
    for any other [B > 1] it does not return. *)
Theorem rq_spline_transform_returns_on_valid
        (x : list (list R)) (qs : list rspline) (M K : nat) :
  Forall2 (fun row q =>
             valid_spline q /\ length (r_widths q) = K /\ length row = M
             /\ Forall (fun v => v <= nth K (r_kx q) 0) row) x qs ->
  (length x = 1%nat \/ length x = M ->
   exists (y : list (list R)) (ldj : list R),
     Rank2.rq_spline_transform (tfin x) (map finite_spline qs)
     = Ok (tfin y, map Fin ldj))
  /\ ((1 < length x)%nat -> length x <> M ->
      forall y ldj,
        Rank2.rq_spline_transform (tfin x) (map finite_spline qs) <> Ok (y, ldj)).
Proof.
  intros H. split.
  - intros Hshape.
    assert (Hrect : Forall (fun r => length r = M) (tfin x)).
    { unfold tfin. apply Forall_forall. intros r Hr.
      apply in_map_iff in Hr as (r' & <- & Hr'). rewrite length_map.
      clear Hshape. induction H as [|row q x qs (_ & _ & Hl & _) _ IH];
        [contradiction|].
      destruct Hr' as [<- | Hr']; auto. }
    assert (Hvalid : Forall (fun q => valid_spline q /\ length (r_widths q) = K) qs).
    { clear Hshape Hrect. induction H as [|row q x qs (Hv & HK & _) _ IH];
        constructor; auto. }
    assert (Hcells : Forall2 (fun row q =>
               valid_spline q
               /\ Forall (fun v => v <= nth (length (r_widths q)) (r_kx q) 0) row) x qs).
    { eapply Forall2_impl; [|exact H].
      intros row q (Hv & HK & _ & Hle). rewrite HK. auto. }
    destruct (valid_first_and_last qs) as [(ks & Hk & Hlk) _].
    { eapply Forall_impl; [|exact Hvalid]. now intros q [Hv _]. }
    destruct (rank2_mask_total (tfin x) ks M Hrect) as (m & Hm & Hms).
    { rewrite Hlk, <- (Forall2_length H). unfold tfin in Hshape.
      exact Hshape. }
    destruct (rank2_cells x qs Hcells) as (cells & ys & ls & Hc & Hy & Hl & Hp & Hs).
    destruct (masked_assign_fin ys x m Hs) as [w Hw].
    { unfold tfin in Hms. clear - Hms.
      remember (map (map Fin) x) as fx eqn:E. revert x E.
      induction Hms as [|xr mr fx m Hl _ IH]; intros [|r x] E; try discriminate.
      - constructor.
      - inversion E; subst. constructor; [now rewrite length_map in Hl | auto]. }
    unfold Rank2.rq_spline_transform.
    rewrite (shape_rectangular _ _ Hrect). cbn [bind].
    rewrite (valid_tensors qs K Hvalid). cbn [bind].
    rewrite Hk. cbn [bind]. rewrite Hm. cbn [bind]. rewrite Hc. cbn [bind].
    rewrite Hp, Hy, Hw. cbn [bind].
    exists w, (map (fold_right Rplus 0) ls).
    rewrite Hl, sum_except_batch_tfin. reflexivity.
  - intros HB HM y ldj Hcall.
    destruct x as [|r x]; [simpl in HB; lia|].
    destruct (rank2_forward_shape _ _ _ _ (map Fin r) Hcall) as [H1 | H1].
    + left. reflexivity.
    + unfold tfin in H1. rewrite length_map in H1. lia.
    + inversion H as [|? ? ? ? (_ & _ & Hl & _)]; subst.
      unfold tfin in H1. rewrite !length_map in H1. simpl in *. lia.
Qed.

(** The mask of lines 250-253 on such an input.  With a segment over
    [[0, 1]] for the first batch element and a segment over [[2, 3]] for
    the second, both of height [2], the spline of the first batch
    element sends [1/2] to [1] and the spline of the second sends [5/2]
    to [6].  The call compares entry [(i, j)] with the knots of batch
    element [j]: the entries [(0, 1)] and [(1, 0)] count as outside the
    interval and come back unchanged. *)
Example rank2_mask_crosses_batch_elements :
  exists ldj,
    Rank2.rq_spline_transform
      [[Fin (1 / 2); Fin (1 / 2)]; [Fin (5 / 2); Fin (5 / 2)]]
      [finite_spline tall_spline; finite_spline far_spline]
    = Ok ([[Fin 1; Fin (1 / 2)]; [Fin (5 / 2); Fin 6]], ldj).
Proof.
  unfold Rank2.rq_spline_transform.
  replace (shape [[Fin (1 / 2); Fin (1 / 2)]; [Fin (5 / 2); Fin (5 / 2)]])
    with (Ok (2, 2)%nat : result (nat * nat)) by reflexivity.
  cbn [bind].
  replace (tensors [finite_spline tall_spline; finite_spline far_spline])
    with (Ok tt : result unit) by reflexivity.
  cbn [bind].
  replace (first_and_last knots_xcoords
             [finite_spline tall_spline; finite_spline far_spline])
    with (Ok [(Fin 0, Fin 1); (Fin 2, Fin 3)] : result (list (scalar * scalar)))
    by reflexivity.
  cbn [bind].
  replace (Rank2.outside_interval_mask
             [[Fin (1 / 2); Fin (1 / 2)]; [Fin (5 / 2); Fin (5 / 2)]]
             [(Fin 0, Fin 1); (Fin 2, Fin 3)])
    with (Ok [[false; true]; [true; false]] : result (list (list bool))).
  2:{ unfold Rank2.outside_interval_mask, broadcast2, bzip.
      cbn [length Nat.eqb bind map mapM combine fst snd flt fgt].
      rdecide. reflexivity. }
  cbn [bind]. unfold Rank2.rq_spline_cells.
  cbn [zip bind mapM fst snd]. rewrite tall_cell_half, far_cell_middle.
  cbn [bind]. unfold all_gradients_positive. cbn [forallb fc_gradient].
  rewrite fgt_Fin_pos by lra. cbn [andb map fc_y masked_assign assign_row bind].
  eexists. reflexivity.
Qed.

Lemma Forall2_Forall2_concat {A B : Type} (P : A -> B -> Prop) (Q : B -> Prop)
      (x : list (list A)) (p : list (list B)) :
  (forall a b, P a b -> Q b) -> Forall2 (Forall2 P) x p -> Forall Q (concat p).
Proof.
  intros HPQ H. induction H as [|xr pr x p Hrow _ IH]; simpl; [constructor|].
  apply Forall_app. split; [|exact IH].
  clear IH. induction Hrow; constructor; eauto.
Qed.

Lemma outside_interval_mask_shape_ok (B D : nat) :
  B = D \/ B = 1%nat \/ D = 1%nat ->
  exists mask, outside_interval_mask_shape B D = Ok mask.
Proof.
  intros H. unfold outside_interval_mask_shape, broadcast_dim.
  destruct (1 =? D)%nat eqn:E1; cbn [bind].
  - apply Nat.eqb_eq in E1. subst D.
    destruct (1 =? B)%nat; cbn [bind]; [eauto|].
    rewrite Nat.eqb_refl. cbn [bind]. eauto.
  - rewrite Nat.eqb_refl. cbn [bind].
    destruct (D =? B)%nat eqn:E2; cbn [bind]; [eauto|].
    destruct (D =? 1)%nat eqn:E3; cbn [bind]; [eauto|].
    destruct (B =? 1)%nat eqn:E4; cbn [bind]; [eauto|].
    apply Nat.eqb_neq in E1, E2, E3, E4. lia.
Qed.

Lemma outside_interval_mask_shape_raise (B D : nat) :
  B <> D -> B <> 1%nat -> D <> 1%nat ->
  outside_interval_mask_shape B D = Raise ShapeError.
Proof.
  intros H1 H2 H3. unfold outside_interval_mask_shape, broadcast_dim.
  replace (1 =? D)%nat with false by (symmetry; apply Nat.eqb_neq; lia).
  rewrite Nat.eqb_refl. cbn [bind].
  replace (D =? B)%nat with false by (symmetry; apply Nat.eqb_neq; lia).
  replace (D =? 1)%nat with false by (symmetry; apply Nat.eqb_neq; lia).
  replace (B =? 1)%nat with false by (symmetry; apply Nat.eqb_neq; lia).
  reflexivity.
Qed.

(** X9.  With parameters for every coordinate, valid and of the same
    number of segments, and an input of [B] batch elements of [D]
    coordinates, all finite and none above the last knot of
    [knots_ycoords] of its coordinate: the inverse pass returns, with
    finite values, when the comparison of lines 312-315 broadcasts, that
    is when [B = D], [B = 1] or [D = 1]; otherwise it raises. *)
Theorem inv_rq_spline_transform_returns_on_valid
        (y : list (list R)) (qs : list (list rspline)) (D K : nat) :
  Forall2 (Forall2 (fun v q =>
             valid_spline q /\ length (r_widths q) = K
             /\ v <= nth K (r_ky q) 0)) y qs ->
  Forall (fun row => length row = D) y ->
  (length y = D \/ length y = 1%nat \/ D = 1%nat ->
   exists (x : list (list R)) (ldj : list R),
     inv_rq_spline_transform (tfin y) (map (map finite_spline) qs)
     = Ok (tfin x, map Fin ldj))
  /\ ((1 < length y)%nat -> length y <> D -> D <> 1%nat ->
      inv_rq_spline_transform (tfin y) (map (map finite_spline) qs)
      = Raise ShapeError).
Proof.
  intros H0 Hrect0.
  assert (Hrect : Forall (fun r => length r = D) (tfin y)).
  { unfold tfin. apply Forall_forall. intros r Hr.
    apply in_map_iff in Hr as (r' & <- & Hr'). rewrite length_map.
    rewrite Forall_forall in Hrect0. auto. }
  assert (Hvalid : Forall (fun q => valid_spline q /\ length (r_widths q) = K)
                          (concat qs)).
  { apply (Forall2_Forall2_concat _ _ _ _ (fun v q Hq => conj (proj1 Hq) (proj1 (proj2 Hq))) H0). }
  assert (Htens : tensors (concat (map (map finite_spline) qs)) = Ok tt).
  { rewrite <- concat_map. exact (valid_tensors _ K Hvalid). }
  destruct (valid_first_and_last (concat qs)) as [_ (ks & Hk & _)].
  { eapply Forall_impl; [|exact Hvalid]. now intros q [Hv _]. }
  rewrite concat_map in Hk.
  assert (Hlen : length (tfin y) = length y) by (unfold tfin; apply length_map).
  split.
  - intros Hshape.
    assert (H : Forall2 (Forall2 (fun v q =>
                  valid_spline q /\ v <= nth (length (r_widths q)) (r_ky q) 0)) y qs).
    { eapply Forall2_impl; [|exact H0]. intros yr qr Hrow.
      eapply Forall2_impl; [|exact Hrow]. intros v q (Hv & HK & Hle).
      rewrite HK. auto. }
    apply Forall2_finite_splines in H.
    set (f := fun yq : scalar * spline => inv_rq_spline_cell (fst yq) (snd yq)).
    assert (Hcell : forall a b,
               (exists v q, a = Fin v /\ b = finite_spline q /\
                            (valid_spline q /\ v <= nth (length (r_widths q)) (r_ky q) 0)) ->
               exists o d x g,
                 f (a, b) = Ok {| ic_outside := o; ic_discriminant := Fin d;
                                  ic_x := Fin x; ic_gradient_fwd := Fin g |} /\ 0 < g).
    { intros a b (v & q & -> & -> & Hv & Hle).
      destruct (valid_inv_cell_total q v Hv Hle) as (o & d & x & g & Hc & _ & Hg & _).
      exists o, d, x, g. auto. }
    assert (Hok : forall a b,
               (exists v q, a = Fin v /\ b = finite_spline q /\
                            (valid_spline q /\ v <= nth (length (r_widths q)) (r_ky q) 0)) ->
               exists c, f (a, b) = Ok c).
    { intros a b Hab. destruct (Hcell a b Hab) as (o & d & x & g & Hc & _). eauto. }
    destruct (lifted_total f _ _ _ Hok H) as [cells Hcells].
    assert (Hall : forall i j c, tget cells i j = Some c ->
                     exists o d x g, c = {| ic_outside := o; ic_discriminant := Fin d;
                                            ic_x := Fin x; ic_gradient_fwd := Fin g |}
                                     /\ 0 < g).
    { intros i j c Hc.
      destruct (lifted_entry_inv f _ _ _ i j c Hcells Hc) as (a & b & Ha & Hb & Hf).
      pose proof (Forall2_tget _ _ _ i j a b H Ha Hb) as Hab.
      destruct (Hcell a b Hab) as (o & d & x & g & Hf' & Hg).
      exists o, d, x, g. split; [congruence | exact Hg]. }
    destruct (outside_interval_mask_shape_ok (length (tfin y))
                (match tfin y with [] => 0%nat | _ => D end)) as [mask Hmask].
    { rewrite Hlen. destruct y as [|r y]; simpl in *; [lia | exact Hshape]. }
    unfold inv_rq_spline_transform, inv_rq_spline_cells. fold f.
    rewrite (shape_rectangular _ _ Hrect). cbn [bind].
    rewrite Htens. cbn [bind]. rewrite Hk. cbn [bind]. rewrite Hmask. cbn [bind].
    rewrite Hcells. cbn [bind].
    destruct (finite_tensor ic_x cells) as [x Hx].
    { apply Forall_Forall_tget. intros i j c Hc.
      destruct (Hall i j c Hc) as (o & d & x & g & -> & _). simpl. eauto. }
    destruct (finite_tensor (fun c => fneg (flog (ic_gradient_fwd c))) cells) as [l Hl].
    { apply Forall_Forall_tget. intros i j c Hc.
      destruct (Hall i j c Hc) as (o & d & w & g & -> & Hg).
      simpl ic_gradient_fwd. rewrite flog_Fin by exact Hg. simpl. eauto. }
    exists x, (map (fold_right Rplus 0) l).
    rewrite Hx, Hl, sum_except_batch_tfin. reflexivity.
  - intros HB HD HD1. unfold inv_rq_spline_transform.
    rewrite (shape_rectangular _ _ Hrect). cbn [bind].
    rewrite Htens. cbn [bind]. rewrite Hk. cbn [bind].
    rewrite Hlen. destruct y as [|r y]; [simpl in HB; lia|]. cbn [tfin map].
    rewrite outside_interval_mask_shape_raise by lia. reflexivity.
Qed.

(** X10.  On a valid parametrisation the inverse pass sends every input
    that is not above the last knot of [knots_ycoords] to a finite value
    between the first and the last knot of [knots_xcoords], with a finite
    log-det-Jacobian. *)
Theorem inv_rq_spline_returns_in_interval (q : rspline) (v : R) :
  valid_spline q -> v <= nth (length (r_widths q)) (r_ky q) 0 ->
  exists w l,
    inv_rq_spline_transform [[Fin v]] [[finite_spline q]] = Ok ([[Fin w]], [Fin l])
    /\ nth 0 (r_kx q) 0 <= w <= nth (length (r_widths q)) (r_kx q) 0.
Proof.
  intros Hv Hle.
  destruct (valid_inv_cell_total q v Hv Hle) as (o & d & x & g & Hc & _ & Hg & Hx).
  exists x, (- ln g). split; [|exact Hx].
  rewrite (inv_rq_spline_transform_single _ _ _ Hc).
  cbn [ic_x ic_gradient_fwd]. rewrite flog_Fin by exact Hg.
  cbn [fneg]. rewrite fsum_singleton. reflexivity.
Qed.

(** ** The two passes on segments as wide as they are high *)

(** The segment that the search selects inside the range of the knots. *)
Lemma selected_segment (ks : list R) (K : nat) (v : R) :
  increasing ks -> length ks = S K -> (0 < K)%nat ->
  nth 0 ks 0 <= v -> v <= nth K ks 0 ->
  exists k, (k < K)%nat /\ k = segment_index ks K v
            /\ nth k ks 0 <= v /\ v <= nth (S k) ks 0
            /\ (nth k ks 0 < v \/ k = 0%nat).
Proof.
  intros Hinc Hlen HK [Hlt | Heq] Hhi.
  - destruct (locate_segment ks v K Hlt Hhi) as (k & Hk & Hl & Hr).
    exists k. split; [exact Hk|]. split.
    + symmetry. now apply segment_index_inner.
    + repeat split; auto. lra.
  - exists 0%nat. split; [exact HK|]. split.
    + symmetry. apply segment_index_first; auto. lra.
    + subst v. repeat split; auto; try lra.
      left. apply Hinc. lia.
Qed.

Section SquareSegment.

Variable q : rspline.
Hypothesis Hv : valid_spline q.

Let K := length (r_widths q).

Variable k : nat.
Hypothesis Hk : (k < K)%nat.
Hypothesis Hsq : nth k (r_widths q) 0 = nth k (r_heights q) 0.

Let s := seg_slope q k.
Let d0 := nth k (r_derivs q) 0.
Let d1 := nth (S k) (r_derivs q) 0.

Lemma square_slope : 0 < s.
Proof. apply valid_slope_pos; assumption. Qed.

Lemma square_d0 : 0 < d0.
Proof. apply valid_deriv_pos; [exact Hv | fold K; lia]. Qed.

Lemma square_d1 : 0 < d1.
Proof. apply valid_deriv_pos; [exact Hv | fold K; lia]. Qed.

Lemma inv_beta_fwd_y (v : R) :
  inv_beta q k (fwd_y q k v) = rq_beta s d0 d1 (fwd_alpha q k v).
Proof.
  pose proof (valid_width_pos q Hv k Hk) as Hw.
  pose proof (rq_beta_range s d0 d1 square_slope square_d0 square_d1
                (fwd_alpha q k v) (fwd_alpha_range q k v)) as Hb.
  unfold inv_beta, fwd_y. fold s d0 d1. rewrite <- Hsq.
  replace ((nth k (r_ky q) 0
            + nth k (r_widths q) 0 * rq_beta s d0 d1 (fwd_alpha q k v)
            - nth k (r_ky q) 0) / nth k (r_widths q) 0)
    with (rq_beta s d0 d1 (fwd_alpha q k v)) by (field; lra).
  now apply clamp01_id.
Qed.

Lemma inv_x_fwd_y (v : R) :
  nth k (r_kx q) 0 <= v -> v <= nth (S k) (r_kx q) 0 ->
  inv_x q k (fwd_y q k v) = v.
Proof.
  intros Hlo Hhi. pose proof (valid_width_pos q Hv k Hk) as Hw.
  unfold inv_x. fold s d0 d1. rewrite inv_beta_fwd_y.
  rewrite (inv_alpha_rq_beta s d0 d1 square_slope square_d0 square_d1)
    by apply fwd_alpha_range.
  rewrite (fwd_alpha_inner q Hv k v Hk Hlo Hhi). field. lra.
Qed.

Lemma inv_gradient_fwd_y (v : R) :
  inv_gradient q k (fwd_y q k v) = fwd_gradient q k v.
Proof.
  unfold inv_gradient, fwd_gradient. fold s d0 d1. rewrite inv_beta_fwd_y.
  rewrite (inv_alpha_rq_beta s d0 d1 square_slope square_d0 square_d1)
    by apply fwd_alpha_range.
  reflexivity.
Qed.

Lemma inv_beta_square (y : R) :
  nth k (r_ky q) 0 <= y -> y <= nth (S k) (r_ky q) 0 ->
  inv_beta q k y = (y - nth k (r_ky q) 0) / nth k (r_heights q) 0.
Proof.
  intros Hlo Hhi. pose proof (valid_width_pos q Hv k Hk) as Hw.
  unfold inv_beta. rewrite <- Hsq. apply clamp01_id.
  rewrite (vs_extent_y q Hv k Hk), <- Hsq in Hhi.
  assert (Hi : 0 < / nth k (r_widths q) 0) by (now apply Rinv_0_lt_compat).
  split.
  - unfold Rdiv. apply Rmult_le_pos; lra.
  - apply (Rmult_le_reg_r (nth k (r_widths q) 0)); [exact Hw|].
    unfold Rdiv. rewrite Rmult_assoc, Rinv_l by lra. lra.
Qed.

Lemma fwd_alpha_inv_x (y : R) :
  fwd_alpha q k (inv_x q k y) = inv_alpha s d0 d1 (inv_beta q k y).
Proof.
  pose proof (valid_width_pos q Hv k Hk) as Hw.
  unfold fwd_alpha, inv_x. fold s d0 d1.
  replace ((nth k (r_kx q) 0
            + nth k (r_widths q) 0 * inv_alpha s d0 d1 (inv_beta q k y)
            - nth k (r_kx q) 0) / nth k (r_widths q) 0)
    with (inv_alpha s d0 d1 (inv_beta q k y)) by (field; lra).
  apply clamp01_id. now apply inv_alpha_valid_range.
Qed.

Lemma fwd_y_inv_x (y : R) :
  nth k (r_ky q) 0 <= y -> y <= nth (S k) (r_ky q) 0 ->
  fwd_y q k (inv_x q k y) = y.
Proof.
  intros Hlo Hhi. pose proof (valid_width_pos q Hv k Hk) as Hw.
  unfold fwd_y. fold s d0 d1. rewrite fwd_alpha_inv_x.
  rewrite (rq_beta_inv_alpha s d0 d1 square_slope square_d0 square_d1)
    by apply inv_beta_range.
  rewrite (inv_beta_square y Hlo Hhi). field. lra.
Qed.

Lemma fwd_gradient_inv_x (y : R) :
  fwd_gradient q k (inv_x q k y) = inv_gradient q k y.
Proof.
  unfold fwd_gradient, inv_gradient. fold s d0 d1. now rewrite fwd_alpha_inv_x.
Qed.

(** The inverse body lands strictly inside the segment for an input
    strictly above its lower end. *)
Lemma inv_x_segment (y : R) :
  nth k (r_ky q) 0 <= y -> y <= nth (S k) (r_ky q) 0 ->
  nth k (r_kx q) 0 <= inv_x q k y <= nth (S k) (r_kx q) 0
  /\ (nth k (r_ky q) 0 < y -> nth k (r_kx q) 0 < inv_x q k y).
Proof.
  intros Hlo Hhi. pose proof (valid_width_pos q Hv k Hk) as Hw.
  pose proof (inv_alpha_valid_range q Hv k y Hk) as [Ha0 Ha1].
  fold s d0 d1 in Ha0, Ha1.
  pose proof (vs_extent_x q Hv k Hk) as He.
  unfold inv_x. fold s d0 d1. split; [split; nra|].
  intros Hlt.
  destruct Ha0 as [Ha0 | Ha0]; [nra|].
  pose proof (rq_beta_inv_alpha s d0 d1 square_slope square_d0 square_d1
                (inv_beta q k y) (inv_beta_range q k y)) as Hb.
  rewrite <- Ha0, rq_beta_0 in Hb.
  rewrite (inv_beta_square y Hlo Hhi) in Hb.
  rewrite <- Hsq in Hb.
  assert (y - nth k (r_ky q) 0 = 0).
  { apply (Rmult_eq_reg_r (/ nth k (r_widths q) 0)).
    - unfold Rdiv in Hb. lra.
    - apply Rinv_neq_0_compat. lra. }
  lra.
Qed.

End SquareSegment.

Lemma inside_interval (ks : list R) (K : nat) (v : R) :
  nth 0 ks 0 <= v -> v <= nth K ks 0 ->
  Rltb v (nth 0 ks 0) || Rltb (nth K ks 0) v = false.
Proof. intros H0 H1. rewrite !Rltb_false by lra. reflexivity. Qed.

Lemma inv_rq_spline_transform_single_finite (y x g : R) (p : spline)
      (o : bool) (d : scalar) :
  inv_rq_spline_cell (Fin y) p =
    Ok {| ic_outside := o; ic_discriminant := d;
          ic_x := Fin x; ic_gradient_fwd := Fin g |} ->
  0 < g ->
  inv_rq_spline_transform [[Fin y]] [[p]] = Ok ([[Fin x]], [Fin (- ln g)]).
Proof.
  intros Hc Hg. rewrite (inv_rq_spline_transform_single _ _ _ Hc).
  cbn [ic_x ic_gradient_fwd]. rewrite flog_Fin by exact Hg.
  cbn [fneg]. rewrite fsum_singleton. reflexivity.
Qed.

(** X11.  The inverse pass undoes the forward pass wherever the
    segments are as wide as they are high: on a valid parametrisation,
    for an input [v] of the interval of the knots such that every
    segment containing [v] has [widths[k] = heights[k]], the forward
    pass returns some [w] with log-det-Jacobian [l], and the inverse
    pass at [w] returns [v] with log-det-Jacobian [- l]. *)
Theorem inv_rq_spline_undoes_forward_on_square_segments (q : rspline) (v : R) :
  valid_spline q ->
  nth 0 (r_kx q) 0 <= v -> v <= nth (length (r_widths q)) (r_kx q) 0 ->
  (forall k, (k < length (r_widths q))%nat ->
     nth k (r_kx q) 0 <= v -> v <= nth (S k) (r_kx q) 0 ->
     nth k (r_widths q) 0 = nth k (r_heights q) 0) ->
  exists w l,
    rq_spline_transform [[Fin v]] [[finite_spline q]] = Ok ([[Fin w]], [Fin l])
    /\ inv_rq_spline_transform [[Fin w]] [[finite_spline q]]
       = Ok ([[Fin v]], [Fin (- l)]).
Proof.
  intros Hv Hlo Hhi Hsq.
  destruct (selected_segment (r_kx q) _ v (vs_inc_x q Hv) (vs_len_kx q Hv)
              (vs_segments q Hv) Hlo Hhi) as (k & Hk & Hidx & Hl & Hr & Hstrict).
  specialize (Hsq k Hk Hl Hr).
  pose proof (valid_cell q Hv v k Hidx Hk) as Hc.
  rewrite (inside_interval _ _ v Hlo Hhi) in Hc.
  pose proof (fwd_gradient_pos q Hv k v Hk) as Hg.
  exists (fwd_y q k v), (ln (fwd_gradient q k v)).
  split; [exact (rq_spline_transform_single_finite _ _ _ _ _ Hc Hg)|].
  pose proof (fwd_y_segment_range q Hv k v Hk Hl Hr) as [Hyl Hyr].
  assert (Hidx' : k = segment_index (r_ky q) (length (r_widths q)) (fwd_y q k v)).
  { symmetry. destruct Hstrict as [Hlt | ->].
    - apply segment_index_inner; auto; try apply Hv.
      rewrite <- (fwd_y_left_knot q Hv k Hk).
      apply (fwd_y_increasing q Hv); auto; lra.
    - destruct Hl as [Hlt | Heq].
      + apply segment_index_inner; auto; try apply Hv.
        rewrite <- (fwd_y_left_knot q Hv 0%nat Hk).
        apply (fwd_y_increasing q Hv); auto; lra.
      + apply segment_index_first; try apply Hv.
        rewrite <- Heq, (fwd_y_left_knot q Hv 0%nat Hk). lra. }
  pose proof (valid_inv_cell q Hv (fwd_y q k v) k Hidx' Hk) as Hci.
  rewrite (inv_x_fwd_y q Hv k Hk Hsq v Hl Hr) in Hci.
  rewrite (inv_gradient_fwd_y q Hv k Hk Hsq v) in Hci.
  exact (inv_rq_spline_transform_single_finite _ _ _ _ _ _ Hci Hg).
Qed.

(** X12.  The forward pass undoes the inverse pass wherever the segments
    are as wide as they are high: for an input [v] between the first and
    the last knot of [knots_ycoords] such that every segment containing
    [v] has [widths[k] = heights[k]], the inverse pass returns some [w]
    with log-det-Jacobian [l], and the forward pass at [w] returns [v]
    with log-det-Jacobian [- l]. *)
Theorem rq_spline_undoes_inverse_on_square_segments (q : rspline) (v : R) :
  valid_spline q ->
  nth 0 (r_ky q) 0 <= v -> v <= nth (length (r_widths q)) (r_ky q) 0 ->
  (forall k, (k < length (r_widths q))%nat ->
     nth k (r_ky q) 0 <= v -> v <= nth (S k) (r_ky q) 0 ->
     nth k (r_widths q) 0 = nth k (r_heights q) 0) ->
  exists w l,
    inv_rq_spline_transform [[Fin v]] [[finite_spline q]] = Ok ([[Fin w]], [Fin l])
    /\ rq_spline_transform [[Fin w]] [[finite_spline q]]
       = Ok ([[Fin v]], [Fin (- l)]).
Proof.
  intros Hv Hlo Hhi Hsq.
  destruct (selected_segment (r_ky q) _ v (vs_inc_y q Hv) (vs_len_ky q Hv)
              (vs_segments q Hv) Hlo Hhi) as (k & Hk & Hidx & Hl & Hr & Hstrict).
  specialize (Hsq k Hk Hl Hr).
  pose proof (valid_inv_cell q Hv v k Hidx Hk) as Hci.
  pose proof (inv_gradient_pos q Hv k v Hk) as Hg.
  exists (inv_x q k v), (- ln (inv_gradient q k v)).
  split; [exact (inv_rq_spline_transform_single_finite _ _ _ _ _ _ Hci Hg)|].
  destruct (inv_x_segment q Hv k Hk Hsq v Hl Hr) as [[Hxl Hxr] Hxs].
  assert (Hidx' : k = segment_index (r_kx q) (length (r_widths q)) (inv_x q k v)).
  { symmetry. destruct Hstrict as [Hlt | ->].
    - apply segment_index_inner; auto; apply Hv.
    - destruct Hl as [Hlt | Heq].
      + apply segment_index_inner; auto; apply Hv.
      + apply segment_index_first; try apply Hv.
        subst v. unfold inv_x. rewrite (inv_beta_below q Hv) by lra.
        rewrite inv_alpha_0. lra. }
  pose proof (valid_cell q Hv (inv_x q k v) k Hidx' Hk) as Hc.
  assert (Hin : nth 0 (r_kx q) 0 <= inv_x q k v
                /\ inv_x q k v <= nth (length (r_widths q)) (r_kx q) 0).
  { assert (nth 0 (r_kx q) 0 <= nth k (r_kx q) 0) by (apply kx_le; auto; lia).
    assert (nth (S k) (r_kx q) 0 <= nth (length (r_widths q)) (r_kx q) 0)
      by (apply kx_le; auto; lia).
    lra. }
  rewrite (inside_interval _ _ _ (proj1 Hin) (proj2 Hin)) in Hc.
  rewrite (fwd_y_inv_x q Hv k Hk Hsq v Hl Hr) in Hc.
  rewrite (fwd_gradient_inv_x q Hv k Hk v) in Hc.
  rewrite (rq_spline_transform_single_finite _ _ _ _ _ Hc Hg).
  rewrite Ropp_involutive. reflexivity.
Qed.

(** ** The statements above at concrete inputs *)

Lemma rq_spline_transform_returns_on_valid_witness :
  (exists (y : list (list R)) (ldj : list R),
      Rank2.rq_spline_transform (tfin [[1 / 2; -1]; [5 / 2; 0]])
        (map finite_spline [tall_spline; far_spline])
      = Ok (tfin y, map Fin ldj))
  /\ (forall y ldj,
        Rank2.rq_spline_transform (tfin [[1 / 2]; [5 / 2]])
          (map finite_spline [tall_spline; far_spline])
        <> Ok (y, ldj)).
Proof.
  split.
  - refine (proj1 (rq_spline_transform_returns_on_valid
                     [[1 / 2; -1]; [5 / 2; 0]] [tall_spline; far_spline] 2 1 _) _).
    + repeat (apply Forall2_cons || apply Forall2_nil);
        (split; [first [exact tall_spline_valid | exact far_spline_valid]
                | split; [reflexivity
                         | split; [reflexivity | repeat constructor; simpl; lra]]]).
    + right. reflexivity.
  - refine (proj2 (rq_spline_transform_returns_on_valid
                     [[1 / 2]; [5 / 2]] [tall_spline; far_spline] 1 1 _) _ _).
    + repeat (apply Forall2_cons || apply Forall2_nil);
        (split; [first [exact tall_spline_valid | exact far_spline_valid]
                | split; [reflexivity
                         | split; [reflexivity | repeat constructor; simpl; lra]]]).
    + simpl. lia.
    + simpl. lia.
Defined.

Lemma inv_rq_spline_transform_returns_on_valid_witness :
  (exists (x : list (list R)) (ldj : list R),
      inv_rq_spline_transform (tfin [[1 / 2; -1]; [2; 4]])
        (map (map finite_spline)
             [[two_segment_spline; two_segment_spline];
              [two_segment_spline; two_segment_spline]])
      = Ok (tfin x, map Fin ldj))
  /\ inv_rq_spline_transform (tfin [[0; 0; 0]; [0; 0; 0]])
       (map (map finite_spline)
            [[two_segment_spline; two_segment_spline; two_segment_spline];
             [two_segment_spline; two_segment_spline; two_segment_spline]])
     = Raise ShapeError.
Proof.
  split.
  - refine (proj1 (inv_rq_spline_transform_returns_on_valid
                     [[1 / 2; -1]; [2; 4]]
                     [[two_segment_spline; two_segment_spline];
                      [two_segment_spline; two_segment_spline]] 2 2 _ _) _).
    + repeat (apply Forall2_cons || apply Forall2_nil);
        (split; [exact two_segment_spline_valid | split; [reflexivity | simpl; lra]]).
    + repeat constructor.
    + left. reflexivity.
  - refine (proj2 (inv_rq_spline_transform_returns_on_valid
                     [[0; 0; 0]; [0; 0; 0]]
                     [[two_segment_spline; two_segment_spline; two_segment_spline];
                      [two_segment_spline; two_segment_spline; two_segment_spline]]
                     3 2 _ _) _ _ _).
    + repeat (apply Forall2_cons || apply Forall2_nil);
        (split; [exact two_segment_spline_valid | split; [reflexivity | simpl; lra]]).
    + repeat constructor.
    + simpl. lia.
    + simpl. lia.
    + lia.
Defined.

Lemma inv_rq_spline_returns_in_interval_witness :
  exists w l,
    inv_rq_spline_transform [[Fin 2]] [[finite_spline two_segment_spline]]
    = Ok ([[Fin w]], [Fin l])
    /\ nth 0 (r_kx two_segment_spline) 0 <= w
       <= nth (length (r_widths two_segment_spline)) (r_kx two_segment_spline) 0.
Proof.
  apply (inv_rq_spline_returns_in_interval two_segment_spline 2
           two_segment_spline_valid).
  simpl. lra.
Defined.

Lemma inv_rq_spline_undoes_forward_on_square_segments_witness :
  exists w l,
    rq_spline_transform [[Fin (1 / 2)]] [[finite_spline two_segment_spline]]
    = Ok ([[Fin w]], [Fin l])
    /\ inv_rq_spline_transform [[Fin w]] [[finite_spline two_segment_spline]]
       = Ok ([[Fin (1 / 2)]], [Fin (- l)]).
Proof.
  apply (inv_rq_spline_undoes_forward_on_square_segments two_segment_spline (1 / 2)
           two_segment_spline_valid).
  - simpl. lra.
  - simpl. lra.
  - intros k Hk Hl Hr. destruct k as [|[|k]]; simpl in *; [reflexivity | lra | lia].
Defined.

Lemma rq_spline_undoes_inverse_on_square_segments_witness :
  exists w l,
    inv_rq_spline_transform [[Fin (1 / 2)]] [[finite_spline two_segment_spline]]
    = Ok ([[Fin w]], [Fin l])
    /\ rq_spline_transform [[Fin w]] [[finite_spline two_segment_spline]]
       = Ok ([[Fin (1 / 2)]], [Fin (- l)]).
Proof.
  apply (rq_spline_undoes_inverse_on_square_segments two_segment_spline (1 / 2)
           two_segment_spline_valid).
  - simpl. lra.
  - simpl. lra.
  - intros k Hk Hl Hr. destruct k as [|[|k]]; simpl in *; [reflexivity | lra | lia].
Defined.

(** * The log-det-Jacobian as the logarithm of a derivative *)

Lemma derivable_pt_lim_quadratic (c2 c1 c0 a : R) :
  derivable_pt_lim (fun x => c2 * (x * x) + c1 * x + c0) a (2 * c2 * a + c1).
Proof.
  replace (2 * c2 * a + c1) with (c2 * (1 * id a + id a * 1) + c1 * 1 + 0)
    by (unfold id; ring).
  apply (derivable_pt_lim_plus (fun x => c2 * (x * x) + c1 * x) (fun _ => c0)).
  - apply (derivable_pt_lim_plus (fun x => c2 * (x * x)) (fun x => c1 * x)).
    + apply (derivable_pt_lim_scal (fun x => x * x) c2).
      apply (derivable_pt_lim_mult id id); apply derivable_pt_lim_id.
    + apply (derivable_pt_lim_scal id c1). apply derivable_pt_lim_id.
  - apply derivable_pt_lim_const.
Qed.

Lemma derivable_pt_lim_affine (c1 c0 a : R) :
  derivable_pt_lim (fun x => c1 * x + c0) a c1.
Proof.
  apply (derivable_pt_lim_ext (fun x => 0 * (x * x) + c1 * x + c0)).
  - intros z. ring.
  - pose proof (derivable_pt_lim_quadratic 0 c1 c0 a) as H.
    replace (2 * 0 * a + c1) with c1 in H by ring. exact H.
Qed.

(** The derivative of the rational-quadratic interpolant. *)
Lemma derivable_pt_lim_rq_beta (s d0 d1 a : R) :
  rq_denominator s d0 d1 a <> 0 ->
  derivable_pt_lim (rq_beta s d0 d1) a
    (s * (d1 * (a * a) + 2 * s * a * (1 - a) + d0 * ((1 - a) * (1 - a)))
     * (/ rq_denominator s d0 d1 a * / rq_denominator s d0 d1 a)).
Proof.
  intros HD.
  set (P := fun x : R => (s - d0) * (x * x) + d0 * x + 0).
  set (D := fun x : R => - (d1 + d0 - 2 * s) * (x * x) + (d1 + d0 - 2 * s) * x + s).
  assert (HP : derivable_pt_lim P a (2 * (s - d0) * a + d0))
    by apply derivable_pt_lim_quadratic.
  assert (HDd : derivable_pt_lim D a (2 * - (d1 + d0 - 2 * s) * a + (d1 + d0 - 2 * s)))
    by apply derivable_pt_lim_quadratic.
  assert (HDa : D a = rq_denominator s d0 d1 a)
    by (unfold D, rq_denominator; ring).
  assert (HD' : D a <> 0) by (now rewrite HDa).
  pose proof (derivable_pt_lim_div P D a _ _ HP HDd HD') as Hq.
  apply (derivable_pt_lim_ext (P / D)%F).
  - intros z. unfold div_fct, P, D, rq_beta, rq_denominator, Rdiv.
    f_equal; [ring | f_equal; ring].
  - replace (s * (d1 * (a * a) + 2 * s * a * (1 - a) + d0 * ((1 - a) * (1 - a)))
             * (/ rq_denominator s d0 d1 a * / rq_denominator s d0 d1 a))
      with (((2 * (s - d0) * a + d0) * D a
             - (2 * - (d1 + d0 - 2 * s) * a + (d1 + d0 - 2 * s)) * P a) / (D a)²).
    + exact Hq.
    + unfold Rsqr. rewrite <- HDa. unfold P, D. field.
      unfold D in HD'. exact HD'.
Qed.

Section SegmentDerivative.

Variable q : rspline.
Hypothesis Hv : valid_spline q.

Let K := length (r_widths q).

Variable k : nat.
Hypothesis Hk : (k < K)%nat.

(** Strictly inside a segment, the gradient that the forward pass
    computes is the derivative of the value that it computes. *)
Lemma derivable_pt_lim_fwd_y (x : R) :
  nth k (r_kx q) 0 < x -> x < nth (S k) (r_kx q) 0 ->
  derivable_pt_lim (fwd_y q k) x (fwd_gradient q k x).
Proof.
  intros Hlo Hhi.
  pose proof (valid_width_pos q Hv k Hk) as Hw.
  assert (Hs : 0 < seg_slope q k) by (now apply valid_slope_pos).
  assert (Hd0 : 0 < nth k (r_derivs q) 0)
    by (apply valid_deriv_pos; [exact Hv | fold K; lia]).
  assert (Hd1 : 0 < nth (S k) (r_derivs q) 0)
    by (apply valid_deriv_pos; [exact Hv | fold K; lia]).
  set (u := fun z : R => / nth k (r_widths q) 0 * z
                         + - nth k (r_kx q) 0 * / nth k (r_widths q) 0).
  assert (Hu : derivable_pt_lim u x (/ nth k (r_widths q) 0))
    by apply derivable_pt_lim_affine.
  assert (Hux : forall z, u z = (z - nth k (r_kx q) 0) / nth k (r_widths q) 0).
  { intros z. unfold u. field. lra. }
  assert (Hal : fwd_alpha q k x = u x).
  { rewrite Hux. apply (fwd_alpha_inner q Hv); auto; lra. }
  assert (HD : rq_denominator (seg_slope q k) (nth k (r_derivs q) 0)
                              (nth (S k) (r_derivs q) 0) (u x) <> 0).
  { apply Rgt_not_eq, Rlt_gt, rq_denominator_pos; auto.
    rewrite <- Hal. apply fwd_alpha_range. }
  pose proof (derivable_pt_lim_rq_beta _ _ _ _ HD) as HF.
  pose proof (derivable_pt_lim_comp u _ x _ _ Hu HF) as Hc.
  pose proof (derivable_pt_lim_scal _ (nth k (r_heights q) 0) x _ Hc) as Hm.
  pose proof (derivable_pt_lim_plus _ _ x _ _
                (derivable_pt_lim_const (nth k (r_ky q) 0) x) Hm) as Hp.
  apply (derivable_pt_lim_locally_ext
           (fct_cte (nth k (r_ky q) 0)
            + mult_real_fct (nth k (r_heights q) 0)
                (comp (rq_beta (seg_slope q k) (nth k (r_derivs q) 0)
                               (nth (S k) (r_derivs q) 0)) u))%F
           (fwd_y q k) x (nth k (r_kx q) 0) (nth (S k) (r_kx q) 0)).
  - split; assumption.
  - intros z Hz. unfold fwd_y.
    rewrite (fwd_alpha_inner q Hv k z Hk) by lra.
    rewrite <- Hux. reflexivity.
  - replace (fwd_gradient q k x)
      with (0 + nth k (r_heights q) 0
                * (seg_slope q k
                   * (nth (S k) (r_derivs q) 0 * (u x * u x)
                      + 2 * seg_slope q k * u x * (1 - u x)
                      + nth k (r_derivs q) 0 * ((1 - u x) * (1 - u x)))
                   * (/ rq_denominator (seg_slope q k) (nth k (r_derivs q) 0)
                          (nth (S k) (r_derivs q) 0) (u x)
                      * / rq_denominator (seg_slope q k) (nth k (r_derivs q) 0)
                            (nth (S k) (r_derivs q) 0) (u x))
                   * / nth k (r_widths q) 0)).
    + exact Hp.
    + unfold fwd_gradient, rq_gradient. rewrite Hal.
      unfold seg_slope at 5. field. split; [exact HD | lra].
Qed.

End SegmentDerivative.

(** X13.  Strictly inside each segment of a valid parametrisation, the
    log-det-Jacobian of [rq_spline_transform] is the logarithm of the
    derivative of the transformation: the call on [[[x]]] returns a
    value [f x] and the log-det-Jacobian [ln (g x)], where [g x] is
    positive and is the derivative of [f] at [x]. *)
Theorem rq_spline_ldj_is_log_derivative (q : rspline) (k : nat) :
  valid_spline q -> (k < length (r_widths q))%nat ->
  log_derivative (fun x => rq_spline_transform x [[finite_spline q]])
                 (fun x => nth k (r_kx q) 0 < x < nth (S k) (r_kx q) 0).
Proof.
  intros Hv Hk. exists (fwd_y q k), (fwd_gradient q k). intros x [Hlo Hhi].
  pose proof (fwd_gradient_pos q Hv k x Hk) as Hg.
  split; [|split; [exact Hg | now apply derivable_pt_lim_fwd_y]].
  assert (Hidx : k = segment_index (r_kx q) (length (r_widths q)) x).
  { symmetry. apply segment_index_inner; auto; try apply Hv. lra. }
  pose proof (valid_cell q Hv x k Hidx Hk) as Hc.
  rewrite inside_interval in Hc.
  - exact (rq_spline_transform_single_finite _ _ _ _ _ Hc Hg).
  - assert (nth 0 (r_kx q) 0 <= nth k (r_kx q) 0) by (apply kx_le; auto; lia).
    lra.
  - assert (nth (S k) (r_kx q) 0 <= nth (length (r_widths q)) (r_kx q) 0)
      by (apply kx_le; auto; lia).
    lra.
Qed.

Lemma rq_spline_ldj_is_log_derivative_witness :
  log_derivative (fun x => rq_spline_transform x [[finite_spline two_segment_spline]])
                 (fun x => nth 1 (r_kx two_segment_spline) 0 < x
                           < nth 2 (r_kx two_segment_spline) 0).
Proof.
  apply (rq_spline_ldj_is_log_derivative two_segment_spline 1
           two_segment_spline_valid).
  simpl. lia.
Defined.

(** ** The elementwise transformations *)

Lemma derivable_pt_lim_linear (c d a : R) :
  derivable_pt_lim (fun x => x * c + d) a c.
Proof.
  apply (derivable_pt_lim_ext (fun x => c * x + d)).
  - intros z. ring.
  - apply derivable_pt_lim_affine.
Qed.

Lemma sinh_as_exp (r : R) : sinh r = (exp r * exp r - 1) / (2 * exp r).
Proof.
  pose proof (exp_pos r) as He. unfold sinh. rewrite exp_Ropp. field. lra.
Qed.

Lemma derivable_pt_lim_tanh (x : R) :
  derivable_pt_lim Rtrigo_def.tanh x (/ (cosh x * cosh x)).
Proof.
  pose proof (cosh_pos x) as Hc.
  pose proof (derivable_pt_lim_div sinh cosh x _ _
                (derivable_pt_lim_sinh x) (derivable_pt_lim_cosh x)) as H.
  replace (/ (cosh x * cosh x))
    with ((cosh x * cosh x - sinh x * sinh x) / (cosh x)²).
  - apply H. lra.
  - unfold Rsqr. rewrite cosh_as_exp, sinh_as_exp.
    pose proof (exp_pos x) as He. field. split; nra.
Qed.

Lemma derivable_pt_lim_atanh (y : R) :
  -1 < y < 1 -> derivable_pt_lim atanh y (/ (1 - y * y)).
Proof.
  intros [Hlo Hhi].
  set (P := fun r : R => 1 * r + 1).
  set (D := fun r : R => -1 * r + 1).
  assert (HP : derivable_pt_lim P y 1) by apply derivable_pt_lim_affine.
  assert (HD : derivable_pt_lim D y (-1)) by apply derivable_pt_lim_affine.
  assert (HDy : D y <> 0) by (unfold D; lra).
  pose proof (derivable_pt_lim_div P D y _ _ HP HD HDy) as Hq.
  assert (Hpos : 0 < (P / D)%F y).
  { unfold div_fct, P, D. apply Rdiv_lt_0_compat; lra. }
  pose proof (derivable_pt_lim_comp _ ln y _ _ Hq (derivable_pt_lim_ln _ Hpos)) as Hc.
  pose proof (derivable_pt_lim_scal _ (/ 2) y _ Hc) as Hs.
  apply (derivable_pt_lim_ext (mult_real_fct (/ 2) (comp ln (P / D)%F))).
  - intros z. unfold mult_real_fct, comp, div_fct, P, D, atanh.
    replace (1 * z + 1) with (1 + z) by ring.
    replace (-1 * z + 1) with (1 - z) by ring.
    unfold Rdiv. ring.
  - replace (/ (1 - y * y))
      with (/ 2 * (/ (P / D)%F y * ((1 * D y - -1 * P y) / (D y)²))).
    + exact Hs.
    + unfold div_fct, Rsqr, P, D. field. repeat split; try lra; nra.
Qed.

Lemma ln_cosh_ldj (x : R) : ln (cosh x) * -2 = ln (/ (cosh x * cosh x)).
Proof.
  pose proof (cosh_pos x) as Hc.
  rewrite ln_Rinv by (now apply Rmult_lt_0_compat).
  rewrite ln_mult by assumption. ring.
Qed.

Lemma tanh_log_derivative :
  log_derivative (fun x => Ok (Transforms.tanh x)) (fun _ => True).
Proof.
  exists Rtrigo_def.tanh, (fun x => / (cosh x * cosh x)). intros x _.
  pose proof (cosh_pos x) as Hc. split; [|split].
  - unfold Transforms.tanh, t_tanh, t_muls, t_log, t_cosh, tmap, sum_except_batch.
    cbn [map ftanh fcosh]. rewrite flog_Fin by exact Hc.
    cbn [fmul]. rewrite fsum_singleton, ln_cosh_ldj. reflexivity.
  - apply Rinv_0_lt_compat. now apply Rmult_lt_0_compat.
  - apply derivable_pt_lim_tanh.
Qed.

Lemma inv_tanh_log_derivative :
  log_derivative (fun y => Ok (inv_tanh y)) (fun y => -1 < y < 1).
Proof.
  exists atanh, (fun y => / (1 - y * y)). intros y [Hlo Hhi].
  assert (Hpos : 0 < 1 - y * y) by nra.
  split; [|split].
  - unfold inv_tanh, t_atanh, t_neg, t_log1p, t_pow2, tmap, sum_except_batch.
    cbn [map fatanh fpow2 fmul fneg]. rewrite !Rltb_true by assumption.
    cbn [andb]. unfold flog1p. cbn [fadd].
    rewrite flog_Fin by lra. cbn [fneg]. rewrite fsum_singleton.
    rewrite ln_Rinv by exact Hpos.
    replace (1 + - (y * y)) with (1 - y * y) by ring. reflexivity.
  - now apply Rinv_0_lt_compat.
  - apply derivable_pt_lim_atanh. lra.
Qed.

Lemma tbinop_single (f : scalar -> scalar -> scalar) (a b : scalar) :
  tbinop f [[a]] [[b]] = Ok [[f a b]].
Proof. reflexivity. Qed.

Lemma derivable_pt_lim_scale (c a : R) :
  derivable_pt_lim (fun x => x * c) a c.
Proof.
  apply (derivable_pt_lim_ext (fun x => x * c + 0)).
  - intros z. ring.
  - apply derivable_pt_lim_linear.
Qed.

Lemma derivable_pt_lim_shift (t a : R) :
  derivable_pt_lim (fun x => x + t) a 1.
Proof.
  apply (derivable_pt_lim_ext (fun x => x * 1 + t)).
  - intros z. ring.
  - apply derivable_pt_lim_linear.
Qed.

Lemma translation_log_derivative (t : R) :
  log_derivative (fun x => translation x [[Fin t]]) (fun _ => True).
Proof.
  exists (fun x => x + t), (fun _ => 1). intros x _. split; [|split].
  - unfold translation, t_add. rewrite tbinop_single.
    cbn [bind fadd length zeros repeat]. rewrite ln_1. reflexivity.
  - lra.
  - apply derivable_pt_lim_shift.
Qed.

Lemma inv_translation_log_derivative (t : R) :
  log_derivative (fun y => inv_translation y [[Fin t]]) (fun _ => True).
Proof.
  exists (fun y => y + - t), (fun _ => 1). intros y _. split; [|split].
  - unfold inv_translation, t_sub. rewrite tbinop_single.
    unfold fsub. cbn [bind fadd fneg length zeros repeat].
    rewrite ln_1. reflexivity.
  - lra.
  - apply derivable_pt_lim_shift.
Qed.

Lemma rescaling_log_derivative (s : R) :
  log_derivative (fun x => rescaling x [[Fin s]]) (fun _ => True).
Proof.
  exists (fun x => x * exp (- s)), (fun _ => exp (- s)). intros x _.
  split; [|split].
  - unfold rescaling, t_mul, t_exp, t_neg, tmap, sum_except_batch.
    cbn [map fneg fexp]. rewrite tbinop_single. cbn [bind fmul map].
    rewrite fsum_singleton, ln_exp. reflexivity.
  - apply exp_pos.
  - apply derivable_pt_lim_scale.
Qed.

Lemma inv_rescaling_log_derivative (s : R) :
  log_derivative (fun y => inv_rescaling y [[Fin s]]) (fun _ => True).
Proof.
  exists (fun y => y * exp s), (fun _ => exp s). intros y _.
  split; [|split].
  - unfold inv_rescaling, t_mul, t_exp, tmap, sum_except_batch.
    cbn [map fexp]. rewrite tbinop_single. cbn [bind fmul map].
    rewrite fsum_singleton, ln_exp. reflexivity.
  - apply exp_pos.
  - apply derivable_pt_lim_scale.
Qed.

Lemma soft_rescaling_log_derivative (s : R) :
  log_derivative (fun x => soft_rescaling x [[Fin s]]) (fun _ => True).
Proof.
  exists (fun x => x * ln (1 + exp s)), (fun _ => ln (1 + exp s)).
  intros x _. pose proof (softplus_pos s) as HL. split; [|split].
  - unfold soft_rescaling, t_mul, t_log, t_log1p, t_exp, tmap, sum_except_batch.
    cbn [map]. rewrite soft_scale_Fin, tbinop_single. cbn [bind fmul map].
    rewrite flog_Fin by exact HL. rewrite fsum_singleton. reflexivity.
  - exact HL.
  - apply derivable_pt_lim_scale.
Qed.

Lemma inv_soft_rescaling_log_derivative (s : R) :
  log_derivative (fun y => inv_soft_rescaling y [[Fin s]]) (fun _ => True).
Proof.
  exists (fun y => y * / ln (1 + exp s)), (fun _ => / ln (1 + exp s)).
  intros y _. pose proof (softplus_pos s) as HL. split; [|split].
  - unfold inv_soft_rescaling, t_div, t_neg, t_log, t_log1p, t_exp, tmap,
      sum_except_batch.
    cbn [map]. rewrite soft_scale_Fin, tbinop_single. cbn [bind map].
    rewrite fdiv_Fin by lra. rewrite flog_Fin by exact HL.
    cbn [fneg]. rewrite fsum_singleton, ln_Rinv by exact HL.
    reflexivity.
  - now apply Rinv_0_lt_compat.
  - apply derivable_pt_lim_scale.
Qed.

Lemma affine_transform_log_derivative (s t : R) :
  log_derivative (fun x => affine_transform x [[Fin s]] [[Fin t]]) (fun _ => True).
Proof.
  exists (fun x => x * exp (- s) + t), (fun _ => exp (- s)). intros x _.
  split; [|split].
  - unfold affine_transform, t_mul, t_add, t_exp, t_neg, tmap, sum_except_batch.
    cbn [map fneg fexp]. rewrite tbinop_single. cbn [bind fmul].
    rewrite tbinop_single. cbn [bind fadd map].
    rewrite fsum_singleton, ln_exp. reflexivity.
  - apply exp_pos.
  - apply derivable_pt_lim_linear.
Qed.

Lemma inv_affine_transform_log_derivative (s t : R) :
  log_derivative (fun y => inv_affine_transform y [[Fin s]] [[Fin t]])
                 (fun _ => True).
Proof.
  exists (fun y => (y + - t) * exp s), (fun _ => exp s). intros y _.
  split; [|split].
  - unfold inv_affine_transform, t_mul, t_sub, t_exp, tmap, sum_except_batch.
    cbn [map fexp]. rewrite tbinop_single. unfold fsub. cbn [bind fadd fneg].
    rewrite tbinop_single. cbn [bind fmul map].
    rewrite fsum_singleton, ln_exp. reflexivity.
  - apply exp_pos.
  - apply (derivable_pt_lim_ext (fun y => y * exp s + - t * exp s)).
    + intros z. ring.
    + apply derivable_pt_lim_linear.
Qed.

(** X14.  For each elementwise transformation and its inverse, the
    log-det-Jacobian that the function reports is the logarithm of the
    derivative of the map that it computes (on the one-entry tensor, for
    every finite input and parameter; [inv_tanh] on the open interval
    from [-1] to [1]), and that derivative is positive: the maps are
    increasing and the logarithm needs no absolute value. *)
Theorem elementwise_ldj_is_log_derivative :
  log_derivative (fun x => Ok (Transforms.tanh x)) (fun _ => True)
  /\ log_derivative (fun y => Ok (inv_tanh y)) (fun y => -1 < y < 1)
  /\ (forall t, log_derivative (fun x => translation x [[Fin t]]) (fun _ => True))
  /\ (forall t, log_derivative (fun y => inv_translation y [[Fin t]]) (fun _ => True))
  /\ (forall s, log_derivative (fun x => rescaling x [[Fin s]]) (fun _ => True))
  /\ (forall s, log_derivative (fun y => inv_rescaling y [[Fin s]]) (fun _ => True))
  /\ (forall s, log_derivative (fun x => soft_rescaling x [[Fin s]]) (fun _ => True))
  /\ (forall s, log_derivative (fun y => inv_soft_rescaling y [[Fin s]])
                               (fun _ => True))
  /\ (forall s t, log_derivative (fun x => affine_transform x [[Fin s]] [[Fin t]])
                                 (fun _ => True))
  /\ (forall s t, log_derivative (fun y => inv_affine_transform y [[Fin s]] [[Fin t]])
                                 (fun _ => True)).
Proof.
  repeat apply conj.
  - exact tanh_log_derivative.
  - exact inv_tanh_log_derivative.
  - exact translation_log_derivative.
  - exact inv_translation_log_derivative.
  - exact rescaling_log_derivative.
  - exact inv_rescaling_log_derivative.
  - exact soft_rescaling_log_derivative.
  - exact inv_soft_rescaling_log_derivative.
  - exact affine_transform_log_derivative.
  - exact inv_affine_transform_log_derivative.
Qed.

(** * Further properties of the elementwise transformations *)

(** ** Composition *)

(** X15.  The affine transformation is the rescaling followed by the
    translation, with the log-det-Jacobian of the rescaling; its inverse
    is the inverse translation followed by the inverse rescaling.  This
    holds for all tensors, failing calls included. *)
Theorem affine_is_rescaling_then_translation (x log_scale shift : Tensor) :
  affine_transform x log_scale shift
  = ('(xs, ldj) <- rescaling x log_scale ;;
     '(y, _) <- translation xs shift ;;
     Ok (y, ldj))
  /\ inv_affine_transform x log_scale shift
     = ('(ys, _) <- inv_translation x shift ;;
        inv_rescaling ys log_scale).
Proof.
  split.
  - unfold affine_transform, rescaling, translation.
    destruct (t_mul x (t_exp (t_neg log_scale))) as [xs|e]; cbn [bind]; [|reflexivity].
    destruct (t_add xs shift) as [y|e]; reflexivity.
  - unfold inv_affine_transform, inv_rescaling, inv_translation.
    destruct (t_sub x shift) as [ys|e]; reflexivity.
Qed.

(** ** Shapes *)

Lemma same_shape_refl {A : Type} (x : list (list A)) : same_shape x x.
Proof. unfold same_shape. induction x; constructor; auto. Qed.

Lemma same_shape_tmap (g : scalar -> scalar) (x : Tensor) : same_shape x (tmap g x).
Proof. apply same_shape_map_r, same_shape_refl. Qed.

Lemma same_shape_length {A B : Type} (x : list (list A)) (p : list (list B)) :
  same_shape x p -> length x = length p.
Proof. apply Forall2_length. Qed.

Lemma same_shape_trans {A B C : Type} (x : list (list A)) (y : list (list B))
      (z : list (list C)) :
  same_shape x y -> same_shape y z -> same_shape x z.
Proof.
  unfold same_shape. intros H. revert z.
  induction H as [|a b x y Hab _ IH]; intros z Hz; inversion Hz; subst;
    constructor; [congruence | auto].
Qed.

Lemma same_shape_sym {A B : Type} (x : list (list A)) (y : list (list B)) :
  same_shape x y -> same_shape y x.
Proof. unfold same_shape. induction 1; constructor; auto. Qed.

Lemma tbinop_same_shape (f : scalar -> scalar -> scalar) (x p : Tensor) :
  same_shape x p -> exists y, tbinop f x p = Ok y /\ same_shape x y.
Proof.
  intros H. rewrite (tbinop_strict _ _ _ H).
  rewrite (tzip_same_shape x p H). cbn [bind].
  eexists. split; [reflexivity|].
  unfold same_shape in *. induction H as [|a b x p Hab _ IH]; simpl; constructor.
  - rewrite length_map, length_combine. simpl. lia.
  - exact IH.
Qed.

Lemma sum_except_batch_length (t : Tensor) :
  length (sum_except_batch t) = length t.
Proof. unfold sum_except_batch. apply length_map. Qed.

Lemma zeros_length (n : nat) : length (zeros n) = n.
Proof. apply repeat_length. Qed.

Lemma tmap_length (g : scalar -> scalar) (t : Tensor) : length (tmap g t) = length t.
Proof. unfold tmap. apply length_map. Qed.

(** X16.  No elementwise transformation raises on operands of one
    shape, whatever their values (infinities and NaN included): the call
    returns an output of the shape of the input and one log-det-Jacobian
    per batch element. *)
Theorem elementwise_returns_shape (x p p' : Tensor) :
  same_shape x p -> same_shape x p' ->
  returns_shape x (Ok (Transforms.tanh x))
  /\ returns_shape x (Ok (inv_tanh x))
  /\ returns_shape x (translation x p)
  /\ returns_shape x (inv_translation x p)
  /\ returns_shape x (rescaling x p)
  /\ returns_shape x (inv_rescaling x p)
  /\ returns_shape x (soft_rescaling x p)
  /\ returns_shape x (inv_soft_rescaling x p)
  /\ returns_shape x (affine_transform x p p')
  /\ returns_shape x (inv_affine_transform x p p').
Proof.
  intros Hp Hp'. pose proof (same_shape_length _ _ Hp) as Hl.
  unfold returns_shape. repeat apply conj.
  - unfold Transforms.tanh. do 2 eexists. split; [reflexivity|].
    split; [apply same_shape_tmap|].
    unfold t_muls, t_log, t_cosh.
    now rewrite sum_except_batch_length, !tmap_length.
  - unfold inv_tanh. do 2 eexists. split; [reflexivity|].
    split; [apply same_shape_tmap|].
    unfold t_neg, t_log1p, t_pow2.
    now rewrite sum_except_batch_length, !tmap_length.
  - destruct (tbinop_same_shape fadd x p Hp) as (y & Hy & Hs).
    unfold translation, t_add. rewrite Hy. cbn [bind].
    do 2 eexists. split; [reflexivity|]. split; [exact Hs|].
    rewrite zeros_length. symmetry. now apply same_shape_length.
  - destruct (tbinop_same_shape fsub x p Hp) as (y & Hy & Hs).
    unfold inv_translation, t_sub. rewrite Hy. cbn [bind].
    do 2 eexists. split; [reflexivity|]. split; [exact Hs|].
    apply zeros_length.
  - destruct (tbinop_same_shape fmul x (t_exp (t_neg p))) as (y & Hy & Hs).
    { unfold t_exp, t_neg. now do 2 apply same_shape_map_r. }
    unfold rescaling, t_mul. rewrite Hy. cbn [bind].
    do 2 eexists. split; [reflexivity|]. split; [exact Hs|].
    unfold t_neg. rewrite sum_except_batch_length, tmap_length. lia.
  - destruct (tbinop_same_shape fmul x (t_exp p)) as (y & Hy & Hs).
    { unfold t_exp. now apply same_shape_map_r. }
    unfold inv_rescaling, t_mul. rewrite Hy. cbn [bind].
    do 2 eexists. split; [reflexivity|]. split; [exact Hs|].
    rewrite sum_except_batch_length. lia.
  - destruct (tbinop_same_shape fmul x (t_log1p (t_exp p))) as (y & Hy & Hs).
    { unfold t_log1p, t_exp. now do 2 apply same_shape_map_r. }
    unfold soft_rescaling, t_mul. rewrite Hy. cbn [bind].
    do 2 eexists. split; [reflexivity|]. split; [exact Hs|].
    unfold t_log, t_log1p, t_exp. rewrite sum_except_batch_length, !tmap_length. lia.
  - destruct (tbinop_same_shape fdiv x (t_log1p (t_exp p))) as (y & Hy & Hs).
    { unfold t_log1p, t_exp. now do 2 apply same_shape_map_r. }
    unfold inv_soft_rescaling, t_div. rewrite Hy. cbn [bind].
    do 2 eexists. split; [reflexivity|]. split; [exact Hs|].
    unfold t_neg, t_log, t_log1p, t_exp.
    rewrite sum_except_batch_length, !tmap_length. lia.
  - destruct (tbinop_same_shape fmul x (t_exp (t_neg p))) as (xs & Hxs & Hs).
    { unfold t_exp, t_neg. now do 2 apply same_shape_map_r. }
    destruct (tbinop_same_shape fadd xs p') as (y & Hy & Hs').
    { eapply same_shape_trans; [apply same_shape_sym; exact Hs | exact Hp']. }
    unfold affine_transform, t_mul, t_add. rewrite Hxs. cbn [bind].
    rewrite Hy. cbn [bind].
    do 2 eexists. split; [reflexivity|].
    split; [eapply same_shape_trans; eassumption|].
    unfold t_neg. rewrite sum_except_batch_length, tmap_length. lia.
  - destruct (tbinop_same_shape fsub x p' Hp') as (ys & Hys & Hs).
    destruct (tbinop_same_shape fmul ys (t_exp p)) as (y & Hy & Hs').
    { unfold t_exp. apply same_shape_map_r.
      eapply same_shape_trans; [apply same_shape_sym; exact Hs | exact Hp]. }
    unfold inv_affine_transform, t_mul, t_sub. rewrite Hys. cbn [bind].
    rewrite Hy. cbn [bind].
    do 2 eexists. split; [reflexivity|].
    split; [eapply same_shape_trans; eassumption|].
    rewrite sum_except_batch_length. lia.
Qed.

Lemma elementwise_returns_shape_witness :
  returns_shape [[Fin 1; NaN]; [PInf; Fin 0]]
    (affine_transform [[Fin 1; NaN]; [PInf; Fin 0]]
                      [[Fin 0; Fin 1]; [Fin 2; NInf]]
                      [[Fin 1; Fin 1]; [NInf; Fin 1]]).
Proof.
  apply (elementwise_returns_shape
           [[Fin 1; NaN]; [PInf; Fin 0]]
           [[Fin 0; Fin 1]; [Fin 2; NInf]]
           [[Fin 1; Fin 1]; [NInf; Fin 1]]);
    repeat constructor.
Defined.

(** ** The range of [tanh] and the domain of its inverse *)

Lemma cosh_ge_1 (r : R) : 1 <= cosh r.
Proof.
  pose proof (exp_pos r) as He. rewrite cosh_as_exp.
  apply (Rmult_le_reg_r (2 * exp r)); [lra|].
  replace ((exp r * exp r + 1) / (2 * exp r) * (2 * exp r))
    with (exp r * exp r + 1) by (field; lra).
  pose proof (Rle_0_sqr (exp r - 1)) as Hsq. unfold Rsqr in Hsq. lra.
Qed.

Lemma rsum_nonpos (l : list R) :
  Forall (fun v => v <= 0) l -> fold_right Rplus 0 l <= 0.
Proof. induction 1; simpl; lra. Qed.

(** X17.  On finite inputs [tanh] returns values strictly between [-1]
    and [1], and its log-det-Jacobian is never positive. *)
Theorem tanh_range_and_ldj_sign (x : list (list R)) :
  exists (y : list (list R)) (ldj : list R),
    Transforms.tanh (tfin x) = (tfin y, map Fin ldj)
    /\ Forall (Forall (fun v => -1 < v < 1)) y
    /\ Forall (fun l => l <= 0) ldj.
Proof.
  exists (map (map Rtrigo_def.tanh) x),
         (map (fold_right Rplus 0) (map (map (fun v => ln (cosh v) * -2)) x)).
  split; [|split].
  - unfold Transforms.tanh, t_tanh, t_muls, t_log, t_cosh. rewrite !tmap_tmap.
    rewrite (tmap_tfin ftanh Rtrigo_def.tanh) by reflexivity.
    rewrite (tmap_tfin (fun a => fmul (flog (fcosh a)) (Fin (-2)))
                       (fun v => ln (cosh v) * -2)).
    + now rewrite sum_except_batch_tfin.
    + intros a. cbn [fcosh]. rewrite flog_Fin by apply cosh_pos. reflexivity.
  - apply Forall_Forall_map. intros a. apply tanh_bounds.
  - apply Forall_forall. intros l Hl.
    apply in_map_iff in Hl as (row & <- & Hrow).
    apply in_map_iff in Hrow as (row' & <- & _).
    apply rsum_nonpos, Forall_forall. intros v Hv.
    apply in_map_iff in Hv as (a & <- & _).
    assert (0 <= ln (cosh a)).
    { rewrite <- ln_1. destruct (cosh_ge_1 a) as [Hlt | <-]; [|lra].
      left. apply ln_increasing; lra. }
    lra.
Qed.

(** X18.  [inv_tanh] does not guard its domain.  An entry above [1] or
    below [-1] gives NaN at that entry and NaN as the log-det-Jacobian
    of its batch element; an entry equal to [1] or [-1] gives an
    infinity at that entry.  No error is raised. *)
Theorem inv_tanh_outside_domain (y : Tensor) (i j : nat) (v : R) :
  tget y i j = Some (Fin v) ->
  (v < -1 \/ 1 < v ->
   tget (fst (inv_tanh y)) i j = Some NaN
   /\ nth_error (snd (inv_tanh y)) i = Some NaN)
  /\ (v = 1 -> tget (fst (inv_tanh y)) i j = Some PInf)
  /\ (v = -1 -> tget (fst (inv_tanh y)) i j = Some NInf).
Proof.
  intros Hy. unfold inv_tanh. cbn [fst snd].
  unfold t_atanh, t_neg, t_log1p, t_pow2. rewrite !tmap_tmap.
  assert (Hx : tget (tmap fatanh y) i j = Some (fatanh (Fin v)))
    by (unfold tmap; rewrite tget_map, Hy; reflexivity).
  rewrite Hx. cbn [fatanh].
  split; [|split].
  - intros Hout. split.
    + destruct Hout as [Hlo | Hhi].
      * rewrite (Rltb_false (-1) v) by lra. cbn [andb].
        rewrite !Reqb_false by lra. reflexivity.
      * rewrite (Rltb_false v 1) by lra. rewrite andb_false_r.
        rewrite !Reqb_false by lra. reflexivity.
    + unfold tget in Hy. unfold sum_except_batch, tmap.
      rewrite !nth_error_map.
      destruct (nth_error y i) as [row|]; [|discriminate].
      cbn [option_map]. f_equal. apply fsum_NaN.
      apply in_map_iff. exists (Fin v). split; [|eapply nth_error_In; eauto].
      unfold flog1p. cbn [fpow2 fmul fneg fadd flog].
      rewrite Rltb_true by nra. reflexivity.
  - intros ->. rewrite (Rltb_false 1 1) by lra. rewrite andb_false_r.
    rewrite Reqb_true by reflexivity. reflexivity.
  - intros ->. rewrite (Rltb_false (-1) (-1)) by lra. cbn [andb].
    rewrite Reqb_false by lra. rewrite Reqb_true by reflexivity. reflexivity.
Qed.

Lemma inv_tanh_outside_domain_witness :
  tget (fst (inv_tanh [[Fin 0; Fin 2]])) 0 1 = Some NaN
  /\ nth_error (snd (inv_tanh [[Fin 0; Fin 2]])) 0 = Some NaN.
Proof.
  apply (inv_tanh_outside_domain [[Fin 0; Fin 2]] 0 1 2 eq_refl).
  right. lra.
Defined.

(** * The identity parametrisation of the spline *)

Section IdentitySpline.

Variable q : rspline.
Hypothesis Hv : valid_spline q.
Hypothesis Hknots : r_ky q = r_kx q.
Hypothesis Hderivs : Forall (eq 1) (r_derivs q).

Let K := length (r_widths q).

Lemma identity_height (k : nat) :
  (k < K)%nat -> nth k (r_heights q) 0 = nth k (r_widths q) 0.
Proof.
  intros Hk. pose proof (vs_extent_x q Hv k Hk) as Hx.
  pose proof (vs_extent_y q Hv k Hk) as Hy. rewrite Hknots in Hy. lra.
Qed.

Lemma identity_deriv (k : nat) : (k <= K)%nat -> nth k (r_derivs q) 0 = 1.
Proof.
  intros Hk. symmetry. rewrite Forall_forall in Hderivs.
  apply Hderivs, nth_In. rewrite (vs_len_d q Hv). fold K. lia.
Qed.

Lemma identity_slope (k : nat) : (k < K)%nat -> seg_slope q k = 1.
Proof.
  intros Hk. unfold seg_slope. rewrite (identity_height k Hk).
  pose proof (valid_width_pos q Hv k Hk). field. lra.
Qed.

Lemma identity_fwd_gradient (k : nat) (v : R) :
  (k < K)%nat -> fwd_gradient q k v = 1.
Proof.
  intros Hk. unfold fwd_gradient.
  rewrite (identity_slope k Hk), !identity_deriv by lia.
  unfold rq_gradient, rq_denominator. set (a := fwd_alpha q k v).
  replace (1 + (1 + 1 - 2 * 1) * a * (1 - a)) with 1 by ring.
  rewrite Rinv_1. ring.
Qed.

Lemma identity_fwd_y (k : nat) (v : R) :
  (k < K)%nat -> nth k (r_kx q) 0 <= v -> v <= nth (S k) (r_kx q) 0 ->
  fwd_y q k v = v.
Proof.
  intros Hk Hlo Hhi. pose proof (valid_width_pos q Hv k Hk) as Hw.
  unfold fwd_y.
  rewrite (identity_slope k Hk), !identity_deriv by lia.
  rewrite (fwd_alpha_inner q Hv k v Hk Hlo Hhi).
  rewrite (identity_height k Hk), Hknots.
  unfold rq_beta, rq_denominator.
  set (a := (v - nth k (r_kx q) 0) / nth k (r_widths q) 0).
  replace (1 + (1 + 1 - 2 * 1) * a * (1 - a)) with 1 by ring.
  rewrite Rinv_1. unfold a. field. lra.
Qed.

End IdentitySpline.

(** X19.  The identity parametrisation: when the knots of
    [knots_ycoords] are those of [knots_xcoords] and every derivative is
    [1], the forward pass returns its input with log-det-Jacobian [0]
    for every input that is not above the last knot, and so does the
    inverse pass on the interval of the knots. *)
Theorem rq_spline_identity_parametrisation (q : rspline) (v : R) :
  valid_spline q -> r_ky q = r_kx q -> Forall (eq 1) (r_derivs q) ->
  (v <= nth (length (r_widths q)) (r_kx q) 0 ->
   rq_spline_transform [[Fin v]] [[finite_spline q]] = Ok ([[Fin v]], [Fin 0]))
  /\ (nth 0 (r_kx q) 0 <= v -> v <= nth (length (r_widths q)) (r_kx q) 0 ->
      inv_rq_spline_transform [[Fin v]] [[finite_spline q]] = Ok ([[Fin v]], [Fin 0])).
Proof.
  intros Hv Hknots Hderivs.
  assert (Hinside : forall k, (k < length (r_widths q))%nat ->
            k = segment_index (r_kx q) (length (r_widths q)) v ->
            nth 0 (r_kx q) 0 <= v -> v <= nth (length (r_widths q)) (r_kx q) 0 ->
            nth k (r_kx q) 0 <= v -> v <= nth (S k) (r_kx q) 0 ->
            rq_spline_cell (Fin v) (finite_spline q) =
            Ok {| fc_x := Fin v; fc_outside := false; fc_y := Fin v;
                  fc_gradient := Fin 1 |}).
  { intros k Hk Hidx Hlo Hhi Hl Hr.
    rewrite (valid_cell q Hv v k Hidx Hk).
    rewrite (inside_interval _ _ v Hlo Hhi).
    rewrite (identity_fwd_y q Hv Hknots Hderivs k v Hk Hl Hr).
    rewrite (identity_fwd_gradient q Hv Hknots Hderivs k v Hk).
    reflexivity. }
  split.
  - intros Hhi. destruct (Rlt_le_dec v (nth 0 (r_kx q) 0)) as [Hlt | Hlo].
    + pose proof (valid_cell_below q Hv v Hlt) as Hc.
      rewrite (identity_deriv q Hv Hderivs 0) in Hc by lia.
      rewrite (rq_spline_transform_single_finite _ _ _ _ _ Hc) by lra.
      rewrite ln_1. reflexivity.
    + destruct (selected_segment (r_kx q) _ v (vs_inc_x q Hv) (vs_len_kx q Hv)
                  (vs_segments q Hv) Hlo Hhi) as (k & Hk & Hidx & Hl & Hr & _).
      rewrite (rq_spline_transform_single_finite _ _ _ _ _
                 (Hinside k Hk Hidx Hlo Hhi Hl Hr)) by lra.
      rewrite ln_1. reflexivity.
  - intros Hlo Hhi.
    destruct (selected_segment (r_kx q) _ v (vs_inc_x q Hv) (vs_len_kx q Hv)
                (vs_segments q Hv) Hlo Hhi) as (k & Hk & Hidx & Hl & Hr & _).
    assert (Hsq : nth k (r_widths q) 0 = nth k (r_heights q) 0)
      by (symmetry; now apply identity_height).
    assert (Hidx' : k = segment_index (r_ky q) (length (r_widths q)) v)
      by (now rewrite Hknots).
    pose proof (valid_inv_cell q Hv v k Hidx' Hk) as Hc.
    pose proof (identity_fwd_y q Hv Hknots Hderivs k v Hk Hl Hr) as Hid.
    assert (Hx : inv_x q k v = v).
    { transitivity (inv_x q k (fwd_y q k v)); [now rewrite Hid|].
      now apply inv_x_fwd_y. }
    assert (Hg : inv_gradient q k v = 1).
    { transitivity (inv_gradient q k (fwd_y q k v)); [now rewrite Hid|].
      rewrite (inv_gradient_fwd_y q Hv k Hk Hsq v).
      now apply identity_fwd_gradient. }
    rewrite Hx, Hg in Hc.
    rewrite (inv_rq_spline_transform_single_finite _ _ _ _ _ _ Hc) by lra.
    rewrite ln_1, Ropp_0. reflexivity.
Qed.

Lemma rq_spline_identity_parametrisation_witness :
  rq_spline_transform [[Fin (1 / 3)]] [[finite_spline unit_spline]]
  = Ok ([[Fin (1 / 3)]], [Fin 0])
  /\ inv_rq_spline_transform [[Fin (1 / 3)]] [[finite_spline unit_spline]]
     = Ok ([[Fin (1 / 3)]], [Fin 0]).
Proof.
  destruct (rq_spline_identity_parametrisation unit_spline (1 / 3)
              unit_spline_valid eq_refl) as [Hf Hi].
  - repeat constructor.
  - split.
    + apply Hf. simpl. lra.
    + apply Hi; simpl; lra.
Defined.
